(** * goiardi ACL checker: a shallow embedding of [acl.Checker] and its
    specification.

    The development follows the deny-all-aware snapshot of the [acl]
    package: permission evaluation ([CheckItemPerm]), grant reconciliation
    ([EditFromJSON]), renaming ([RenameItemACL]) and snapshot assembly
    ([GetItemACL]).  The casbin enforcer, the actor and group lookups and
    the [util] string helpers live outside the package; they are modelled
    from their contracts and marked as such. *)

From Stdlib Require Import String Ascii ZArith.
From stdpp Require Import base decidable option list strings gmap.

Local Open Scope string_scope.
Local Open Scope nat_scope.
Local Open Scope list_scope.
Local Open Scope stdpp_scope.

(** ** Strings *)

(** [strings.HasPrefix(s, prefix)]. *)
Definition HasPrefix (s pre : string) : bool := String.prefix pre s.

Fixpoint drop_chars (n : nat) (s : string) : string :=
  match n, s with
  | S n', String _ s' => drop_chars n' s'
  | _, _ => s
  end.

(** [strings.TrimPrefix(s, prefix)]: [s] without the leading [prefix], or
    [s] itself when it does not start with [prefix]. *)
Definition TrimPrefix (s pre : string) : string :=
  if HasPrefix s pre then drop_chars (String.length pre) s else s.

(** Modelled from the spec: [util.StringPresentInSlice] is not part of the
    package; it tells whether the string occurs in the slice. *)
Definition StringPresentInSlice (s : string) (l : list string) : bool :=
  bool_decide (s ∈ l).

(** Modelled from the spec: [util.RemoveDupStrings] is not part of the
    package; section 4.4 only asks that the lists are deduplicated. *)
Definition RemoveDupStrings (l : list string) : list string := remove_dups l.

(** Modelled from the spec: [util.JoinStr] concatenates its arguments. *)
Definition JoinStr (l : list string) : string := String.concat "" l.

(** ** Policy tuples *)

(** A casbin rule of the model: group, subkind, kind, name, perm, effect.
    The Go code holds a rule as a six-element slice indexed by the
    [cond*Pos] constants; field [condX] below is the element at
    [condXPos]. *)
Record Tuple := mkTuple {
  condGroup : string;
  condSubkind : string;
  condKind : string;
  condName : string;
  condPerm : string;
  condEffect : string
}.

#[global] Instance Tuple_eq_dec : EqDecision Tuple.
Proof. solve_decision. Defined.

Inductive Pos :=
  | condGroupPos | condSubkindPos | condKindPos
  | condNamePos | condPermPos | condEffectPos.

Definition field (i : Pos) (p : Tuple) : string :=
  match i with
  | condGroupPos => condGroup p
  | condSubkindPos => condSubkind p
  | condKindPos => condKind p
  | condNamePos => condName p
  | condPermPos => condPerm p
  | condEffectPos => condEffect p
  end.

Definition enforceEffect : string := "allow".
Definition denyEffect : string := "deny".
Definition DefaultUser : string := "pivotal".

(** ** Items, actors, members *)

Class Named (A : Type) := GetName : A → string.
Class Member (A : Type) `{Named A} := ACLName : A → string.

Record Item := mkItem {
  ContainerKind : string;
  ContainerType : string;
  itemName : string
}.
#[global] Instance Item_named : Named Item := itemName.

Record Actor := mkActor {
  IsUser : bool;
  OrgName : string;
  actorACLName : string;
  actorName : string
}.
#[global] Instance Actor_named : Named Actor := actorName.
#[global] Instance Actor_member : Member Actor := actorACLName.

(** Modelled from the spec: the group type is not part of the package; a
    group is a grant subject whose ACL name is [role##<groupname>]. *)
Record Group := mkGroup { groupName : string }.
#[global] Instance Group_named : Named Group := groupName.
#[global] Instance Group_member : Member Group := λ g, "role##" +:+ groupName g.

Record Organization := mkOrg { Name : string }.

(** ** The rule store *)

(** Modelled from the spec: the casbin enforcer is an external collaborator
    (section 6).  It holds the policy rules in insertion order and the
    role-membership edges (member, role). *)
Record Enforcer := mkEnforcer {
  policy : list Tuple;
  grouping : list (string * string)
}.

Module RuleStore.

(** A chain of membership edges leading from [u] to [r]. *)
Inductive role_path (g : list (string * string)) : string → string → Prop :=
  | role_path_refl u : role_path g u u
  | role_path_step u m r :
      (u, m) ∈ g → role_path g m r → role_path g u r.

(** An explicit chain of edges from [u] to [r]. *)
Fixpoint is_path (g : list (string * string)) (u : string)
    (es : list (string * string)) (r : string) : Prop :=
  match es with
  | [] => u = r
  | e :: es' => e ∈ g ∧ e.1 = u ∧ is_path g e.2 es' r
  end.

(** Decision procedure for [role_path]: depth-first search in which an
    edge is dropped once it has been followed. *)
Fixpoint hasLink_aux (fuel : nat) (g : list (string * string)) (u r : string) : bool :=
  bool_decide (u = r) ||
  match fuel with
  | O => false
  | S n =>
      existsb (λ e, bool_decide (e.1 = u) &&
                    hasLink_aux n (filter (λ e', e' ≠ e) g) e.2 r) g
  end.

Definition hasLink (g : list (string * string)) (u r : string) : bool :=
  hasLink_aux (length g) g u r.

(** The matcher: the request subject reaches the rule subject through
    role membership and the other five fields coincide. *)
Definition matches (g : list (string * string)) (r p : Tuple) : bool :=
  hasLink g (condGroup r) (condGroup p) &&
  bool_decide (condSubkind r = condSubkind p) &&
  bool_decide (condKind r = condKind p) &&
  bool_decide (condName r = condName p) &&
  bool_decide (condPerm r = condPerm p) &&
  bool_decide (condEffect r = condEffect p).

Definition Enforce (s : Enforcer) (r : Tuple) : bool :=
  existsb (matches (grouping s) r) (policy s).

(** [GetFilteredPolicy(fieldIndex, value)]: the rules whose field at
    [fieldIndex] is [value], in store order. *)
Definition GetFilteredPolicy (s : Enforcer) (i : Pos) (v : string) : list Tuple :=
  filter (λ p, field i p = v) (policy s).

(** [AddPolicy]: a rule already present is not added again. *)
Definition AddPolicy (s : Enforcer) (t : Tuple) : bool * Enforcer :=
  if bool_decide (t ∈ policy s) then (false, s)
  else (true, mkEnforcer (policy s ++ [t]) (grouping s)).

(** [RemovePolicy]: the rule leaves the rule set. *)
Definition RemovePolicy (s : Enforcer) (t : Tuple) : bool * Enforcer :=
  (bool_decide (t ∈ policy s),
   mkEnforcer (filter (λ p, p ≠ t) (policy s)) (grouping s)).

(** The specification-level reading of [Enforce]: some rule of the store
    is matched by the request, possibly through role membership. *)
Definition grants (s : Enforcer) (r : Tuple) : Prop :=
  ∃ p, p ∈ policy s ∧ role_path (grouping s) (condGroup r) (condGroup p) ∧
       condSubkind r = condSubkind p ∧ condKind r = condKind p ∧
       condName r = condName p ∧ condPerm r = condPerm p ∧
       condEffect r = condEffect p.

End RuleStore.

(** ** The checker *)

(** Error classes of section 7; the Go code tells them apart by message
    and HTTP status. *)
Inductive Gerror :=
  | PolicyLoadError | PolicySaveError | InvalidPermission | NotAssociated
  | InvalidEditAction | MalformedACLPayload | BadRequest | NotFound.

#[global] Instance Gerror_eq_dec : EqDecision Gerror.
Proof. solve_decision. Defined.

(** What a call yields: a value, an error return, or a Go run-time panic. *)
Inductive Outcome (A : Type) :=
  | Ok (a : A)
  | Err (err : Gerror)
  | Panic.
Arguments Ok {A} a.
Arguments Err {A} err.
Arguments Panic {A}.

(** Modelled from the spec: policy persistence (one file per organization,
    read by [LoadPolicy], rewritten in full by [SavePolicy]); [stored] is
    [None] when the file cannot be read. *)
Record Adapter := mkAdapter {
  stored : option Enforcer;
  writable : bool
}.

(** [Checker]: the organization, the in-memory enforcer [e] and the file
    behind it.  The lock and the coordinating channel only serialise calls
    and have no sequential content. *)
Record Checker := mkChecker {
  org : Organization;
  e : Enforcer;
  adapter : Adapter
}.

(** Modelled from the spec: collaborators outside the package, [config],
    the [datastore] association index, [actor.GetActor] and [group.Get]. *)
Record World := mkWorld {
  UsingDB : bool;
  associations : list string;
  actors : list Actor;
  groups : list Group
}.

(** Calls on a checker thread its state and stop at the first error. *)
Definition Op (A : Type) : Type := Checker → Outcome A * Checker.

Definition ret {A} (a : A) : Op A := λ c, (Ok a, c).
Definition fail {A} (err : Gerror) : Op A := λ c, (Err err, c).
Definition panic {A} : Op A := λ c, (Panic, c).
Definition bind {A B} (m : Op A) (k : A → Op B) : Op B :=
  λ c, match m c with
       | (Ok a, c') => k a c'
       | (Err err, c') => (Err err, c')
       | (Panic, c') => (Panic, c')
       end.

Notation "x <- m ;; k" := (bind m (λ x, k))
  (at level 100, m at next level, right associativity, only parsing).
Notation "m ;;; k" := (bind m (λ _, k))
  (at level 100, right associativity, only parsing).

Definition LoadPolicy : Op () :=
  λ c, match stored (adapter c) with
       | Some s => (Ok (), mkChecker (org c) s (adapter c))
       | None => (Err PolicyLoadError, c)
       end.

Definition SavePolicy : Op () :=
  λ c, if writable (adapter c)
       then (Ok (), mkChecker (org c) (e c) (mkAdapter (Some (e c)) true))
       else (Err PolicySaveError, c).

Definition Enforce (t : Tuple) : Op bool :=
  λ c, (Ok (RuleStore.Enforce (e c) t), c).

Definition GetFilteredPolicy (i : Pos) (v : string) : Op (list Tuple) :=
  λ c, (Ok (RuleStore.GetFilteredPolicy (e c) i v), c).

Definition AddPolicy (t : Tuple) : Op bool :=
  λ c, let r := RuleStore.AddPolicy (e c) t in
       (Ok r.1, mkChecker (org c) r.2 (adapter c)).

Definition RemovePolicy (t : Tuple) : Op bool :=
  λ c, let r := RuleStore.RemovePolicy (e c) t in
       (Ok r.1, mkChecker (org c) r.2 (adapter c)).

(** [RemovePolicySafe] is [RemovePolicy] with the enforcer's panics turned
    into an error; the modelled enforcer has none. *)
Definition RemovePolicySafe (t : Tuple) : Op bool := RemovePolicy t.

Definition buildEnforcingSlice {M} `{Member M}
    (item : Item) (member : M) (perm : string) : Tuple :=
  mkTuple (ACLName member) (ContainerType item) (ContainerKind item)
          (GetName item) perm enforceEffect.

Definition buildDenySlice (item : Item) (perm : string) : Tuple :=
  mkTuple "denyall##groups" (ContainerType item) (ContainerKind item)
          (GetName item) perm enforceEffect.

(** [enforceCondition.general]: the type-wide rule behind a specific one. *)
Definition general (t : Tuple) : Tuple :=
  let sub :=
    if bool_decide (condSubkind t = "containers") &&
       bool_decide (condKind t = "containers")
    then condName t else condSubkind t in
  mkTuple (condGroup t) sub (condKind t) "$$default$$" (condPerm t) (condEffect t).

Definition testForAnyPol {M} `{Member M}
    (item : Item) (doer : M) (perm : string) : Op bool :=
  fi <- GetFilteredPolicy condGroupPos (ACLName doer) ;;
  if existsb (λ p, bool_decide (ContainerKind item = condKind p) &&
                   bool_decide (ContainerType item = condSubkind p) &&
                   bool_decide (GetName item = condName p)) fi
  then ret true
  else if bool_decide (ContainerKind item = "groups")
  then Enforce (buildDenySlice item perm)
  else ret false.

Definition isPermValid (item : Item) (perm : string) : Op bool :=
  fPass <- GetFilteredPolicy condSubkindPos (ContainerType item) ;;
  ret (existsb (λ p, bool_decide (condKind p = ContainerKind item) &&
                     bool_decide (condPerm p = perm)) fPass).

Section Checker.
Context (w : World).

Definition testAssociation (doer : Actor) (o : Organization) : option Gerror :=
  if IsUser doer then
    if UsingDB w then None
    else
      let key := JoinStr [GetName doer; "-"; Name o] in
      if bool_decide (key ∈ associations w) then None else Some NotAssociated
  else
    if bool_decide (OrgName doer ≠ Name o) then Some NotAssociated else None.

Definition CheckItemPerm (item : Item) (doer : Actor) (perm : string) : Op bool :=
  LoadPolicy ;;;
  let specific := buildEnforcingSlice item doer perm in
  chk <- Enforce specific ;;
  chkSucceeded <-
    (if chk then ret true
     else
       pinned <- testForAnyPol item doer perm ;;
       if negb pinned then Enforce (general specific) else ret false) ;;
  if chkSucceeded : bool then ret true
  else
    valid <- isPermValid item perm ;;
    if negb valid then fail InvalidPermission
    else
      λ c, match testAssociation doer (org c) with
           | Some err => (Err err, c)
           | None => (Ok false, c)
           end.

End Checker.

(** *** Readings of the rule set used in the statements *)

(** Some rule names [doer] itself as subject on exactly this item, whatever
    its permission (step 4 of the evaluation). *)
Definition pinned_by {M} `{Member M} (s : Enforcer) (item : Item) (doer : M) : Prop :=
  ∃ p, p ∈ policy s ∧ condGroup p = ACLName doer ∧
       ContainerKind item = condKind p ∧ ContainerType item = condSubkind p ∧
       GetName item = condName p.

(** [perm] occurs in some rule for the item's (kind, subkind) pair. *)
Definition perm_defined (s : Enforcer) (item : Item) (perm : string) : Prop :=
  ∃ p, p ∈ policy s ∧ condSubkind p = ContainerType item ∧
       condKind p = ContainerKind item ∧ condPerm p = perm.

(** [RemoveItemACL] does nothing and reports success. *)
Definition RemoveItemACL (item : Item) : Op () := ret ().

(** ** ACL snapshots *)

(** [aclhelper.ACLItem]; a nil slice is the empty list. *)
Record ACLItem := mkACLItem {
  Perm : string;
  Effect : string;
  Actors : list string;
  Groups : list string
}.

(** [aclhelper.ACL]: the per-permission map. *)
Record ACL := mkACL { Perms : gmap string ACLItem }.

(** One round of the loop of [assembleACL]. *)
Definition assembleStep (item : Item) (comparer : Item → Tuple → bool)
    (tmp : gmap string ACLItem) (p : Tuple) : gmap string ACLItem :=
  if comparer item p then
    let perm := condPerm p in
    let subj := condGroup p in
    let eft := condEffect p in
    if bool_decide (eft = denyEffect) then tmp
    else
      let cur := match tmp !! perm with
                 | Some it => it
                 | None => mkACLItem perm (condEffect p) [] []
                 end in
      if HasPrefix subj "role##"
      then <[perm := mkACLItem (Perm cur) (Effect cur) (Actors cur)
                       (Groups cur ++ [TrimPrefix subj "role##"])]> tmp
      else <[perm := mkACLItem (Perm cur) (Effect cur) (Actors cur ++ [subj])
                       (Groups cur)]> tmp
  else tmp.

Definition assembleACL (item : Item) (filtered : list Tuple)
    (comparer : Item → Tuple → bool) : ACL :=
  mkACL (fold_left (assembleStep item comparer) filtered ∅).

Definition itemCompare (i : Item) (pol : Tuple) : bool :=
  bool_decide (condKind pol = ContainerKind i) &&
  bool_decide (condSubkind pol = ContainerType i).

Definition genCompare (i : Item) (pol : Tuple) : bool :=
  if bool_decide (ContainerKind i = "containers") &&
     bool_decide (ContainerType i = "containers")
  then false
  else bool_decide (condKind pol = ContainerKind i).

(** The body of the override loop of [GetItemACL]: the specific entry [v]
    replaces the general one under [k]; a permission the general snapshot
    lacks is a nil-pointer dereference. *)
Definition overrideStep (k : string) (v : ACLItem)
    (acc : option (gmap string ACLItem)) : option (gmap string ACLItem) :=
  gen ← acc;
  match gen !! k with
  | None => None
  | Some g =>
      Some (<[k := mkACLItem (Perm v) (Effect v)
                     (match Actors v with [] => Actors g | _ => Actors v end)
                     (match Groups v with [] => Groups g | _ => Groups v end)]> gen)
  end.

(** The closing loop of [GetItemACL]: the superuser is among the actors and
    both lists are free of duplicates. *)
Definition finishItem (v : ACLItem) : ACLItem :=
  let actors := if StringPresentInSlice DefaultUser (Actors v)
                then Actors v else Actors v ++ [DefaultUser] in
  mkACLItem (Perm v) (Effect v) (RemoveDupStrings actors)
            (RemoveDupStrings (Groups v)).

Definition GetItemACL (item : Item) : Op ACL :=
  LoadPolicy ;;;
  filteredItem <- GetFilteredPolicy condNamePos (GetName item) ;;
  filteredType <-
    (if bool_decide (ContainerKind item = "groups")
     then GetFilteredPolicy condNamePos "$$default$$"
     else GetFilteredPolicy condSubkindPos (ContainerType item)) ;;
  match filteredItem, filteredType with
  | [], [] => fail NotFound
  | _, _ =>
      let itemPerms := assembleACL item filteredItem itemCompare in
      let genPerms := assembleACL item filteredType genCompare in
      merged <-
        (if bool_decide (ContainerKind item = "containers") &&
            bool_decide (ContainerType item = "containers")
         then ret (Perms itemPerms)
         else match map_fold overrideStep (Some (Perms genPerms)) (Perms itemPerms) with
              | Some m => ret m
              | None => panic
              end) ;;
      ret (mkACL (finishItem <$> merged))
  end.

(** Every entry of a snapshot entry stems from a tuple of [pol] for the
    permission [k] whose effect is not deny; [extra] lists the actors put
    in regardless of the rules. *)
Definition contributed (extra : list string) (pol : list Tuple)
    (k : string) (v : ACLItem) : Prop :=
  Effect v ≠ denyEffect ∧
  (∀ a, a ∈ Actors v →
        a ∈ extra ∨
        ∃ p, p ∈ pol ∧ condEffect p ≠ denyEffect ∧ condPerm p = k ∧
             HasPrefix (condGroup p) "role##" = false ∧ condGroup p = a) ∧
  (∀ g, g ∈ Groups v →
        ∃ p, p ∈ pol ∧ condEffect p ≠ denyEffect ∧ condPerm p = k ∧
             HasPrefix (condGroup p) "role##" = true ∧
             TrimPrefix (condGroup p) "role##" = g).

(** Every entry of the map [m] stems from allowing tuples of [pol]. *)
Definition all_contributed (extra : list string) (pol : list Tuple)
    (m : gmap string ACLItem) : Prop :=
  ∀ k v, m !! k = Some v → contributed extra pol k v.

(** ** Grant reconciliation *)

(** A decoded JSON document ([interface{}] as [encoding/json] fills it);
    the checker never looks at the value of a number. *)
#[local] Unset Elimination Schemes.
Inductive JSON :=
  | JNull
  | JBool (b : bool)
  | JNumber (n : Z)
  | JString (s : string)
  | JArray (l : list JSON)
  | JObject (m : gmap string JSON).
#[local] Set Elimination Schemes.

(** [for _, x := range l { f x }], stopping at the first error. *)
Fixpoint forEach {A} (l : list A) (f : A → Op ()) : Op () :=
  match l with
  | [] => ret ()
  | x :: l' => f x ;;; forEach l' f
  end.

(** The conversion loops [newActors[i] = v.(string)]: the unchecked type
    assertion panics on an element that is not a string. *)
Fixpoint asStrings (l : list JSON) : Op (list string) :=
  match l with
  | [] => ret []
  | JString s :: l' => rest <- asStrings l' ;; ret (s :: rest)
  | _ :: _ => panic
  end.

(** Modelled from the spec: [actor.GetActor] resolves an actor of the
    organization by name. *)
Definition GetActor (w : World) (name : string) : option Actor :=
  List.find (λ a, bool_decide (GetName a = name)) (actors w).

(** Modelled from the spec: [group.Get] resolves a group of the
    organization by name. *)
Definition groupGet (w : World) (name : string) : option Group :=
  List.find (λ g, bool_decide (GetName g = name)) (groups w).

Section Reconcile.
Context (w : World).

(** The first loop of [EditFromJSON]: grants on this item and permission
    whose subject is no longer wanted are removed. *)
Definition dropUnwanted (item : Item) (perm : string)
    (newActors newGroups : list string) (p : Tuple) : Op () :=
  if bool_decide (condKind p = ContainerKind item) &&
     bool_decide (condSubkind p = ContainerType item) &&
     bool_decide (condPerm p = perm)
  then
    let subj := condGroup p in
    if HasPrefix subj "denyall##" then ret ()
    else if HasPrefix subj "role##" then
      if negb (StringPresentInSlice (TrimPrefix subj "role##") newGroups)
      then RemovePolicy p ;;; ret ()
      else ret ()
    else
      if negb (StringPresentInSlice subj newActors)
      then RemovePolicy p ;;; ret ()
      else ret ()
  else ret ().

Definition addActor (item : Item) (perm : string) (act : string) : Op () :=
  match GetActor w act with
  | None => fail BadRequest
  | Some a => AddPolicy (buildEnforcingSlice item a perm) ;;; ret ()
  end.

Definition addGroup (item : Item) (perm : string) (gr : string) : Op () :=
  match groupGet w gr with
  | None => fail BadRequest
  | Some g => AddPolicy (buildEnforcingSlice item g perm) ;;; ret ()
  end.

Definition EditFromJSON (item : Item) (perm : string) (data : JSON) : Op () :=
  match data with
  | JObject data =>
      match data !! perm with
      | None => fail MalformedACLPayload
      | Some (JObject aclEdit) =>
          LoadPolicy ;;;
          filteredItem <- GetFilteredPolicy condNamePos (GetName item) ;;
          match aclEdit !! "actors" with
          | Some (JArray newActRaw) =>
              match aclEdit !! "groups" with
              | Some (JArray newGroupsRaw) =>
                  newActors <- asStrings newActRaw ;;
                  newGroups <- asStrings newGroupsRaw ;;
                  forEach filteredItem
                    (dropUnwanted item perm newActors newGroups) ;;;
                  forEach newActors (addActor item perm) ;;;
                  let denyallp := buildDenySlice item perm in
                  (match newGroups with
                   | _ :: _ =>
                       forEach newGroups (addGroup item perm) ;;;
                       if bool_decide (ContainerKind item = "groups")
                       then RemovePolicy denyallp ;;; ret ()
                       else ret ()
                   | [] =>
                       if bool_decide (ContainerKind item = "groups")
                       then AddPolicy denyallp ;;; ret ()
                       else ret ()
                   end) ;;;
                  SavePolicy
              | _ => fail MalformedACLPayload
              end
          | _ => fail MalformedACLPayload
          end
      | Some _ => fail MalformedACLPayload
      end
  | _ => fail MalformedACLPayload
  end.

End Reconcile.

(** *** Closed form of a successful reconciliation *)

Definition with_e (c : Checker) (s : Enforcer) : Checker :=
  mkChecker (org c) s (adapter c).

(** The test of [dropUnwanted]: a grant on this kind, subkind and
    permission whose subject is neither the sentinel nor wanted. *)
Definition unwanted (item : Item) (perm : string)
    (newActors newGroups : list string) (p : Tuple) : bool :=
  bool_decide (condKind p = ContainerKind item) &&
  bool_decide (condSubkind p = ContainerType item) &&
  bool_decide (condPerm p = perm) &&
  negb (HasPrefix (condGroup p) "denyall##") &&
  (if HasPrefix (condGroup p) "role##"
   then negb (StringPresentInSlice (TrimPrefix (condGroup p) "role##") newGroups)
   else negb (StringPresentInSlice (condGroup p) newActors)).

Definition dropAll (item : Item) (perm : string)
    (newActors newGroups : list string) (l : list Tuple) (s : Enforcer) : Enforcer :=
  fold_left (λ s p, if unwanted item perm newActors newGroups p
                    then (RuleStore.RemovePolicy s p).2 else s) l s.

Definition addAll (ts : list Tuple) (s : Enforcer) : Enforcer :=
  fold_left (λ s t, (RuleStore.AddPolicy s t).2) ts s.

Definition actorTuple (w : World) (item : Item) (perm : string)
    (act : string) : option Tuple :=
  a ← GetActor w act; Some (buildEnforcingSlice item a perm).

Definition groupTuple (w : World) (item : Item) (perm : string)
    (gr : string) : option Tuple :=
  g ← groupGet w gr; Some (buildEnforcingSlice item g perm).

(** The rule set [EditFromJSON] leaves in memory when every wanted actor
    and group resolves. *)
Definition reconciled (w : World) (item : Item) (perm : string)
    (newActors newGroups : list string) (s : Enforcer) : Enforcer :=
  let s1 := dropAll item perm newActors newGroups
              (RuleStore.GetFilteredPolicy s condNamePos (GetName item)) s in
  let s2 := addAll (omap (actorTuple w item perm) newActors) s1 in
  let s3 := addAll (omap (groupTuple w item perm) newGroups) s2 in
  if bool_decide (ContainerKind item = "groups") then
    match newGroups with
    | [] => (RuleStore.AddPolicy s3 (buildDenySlice item perm)).2
    | _ :: _ => (RuleStore.RemovePolicy s3 (buildDenySlice item perm)).2
    end
  else s3.

(** The tuples of the rule set that the first loop removes. *)
Definition dropped (item : Item) (perm : string)
    (newActors newGroups : list string) (t : Tuple) : Prop :=
  condName t = GetName item ∧ unwanted item perm newActors newGroups t = true.

(** A payload of the expected shape asking for [newActors] and
    [newGroups] under [perm]. *)
Definition well_formed (data : JSON) (perm : string)
    (newActors newGroups : list string) : Prop :=
  ∃ m aclEdit,
    data = JObject m ∧ m !! perm = Some (JObject aclEdit) ∧
    aclEdit !! "actors" = Some (JArray (JString <$> newActors)) ∧
    aclEdit !! "groups" = Some (JArray (JString <$> newGroups)).

(** Two rule sets with the same tuples and the same membership edges. *)
Definition same_rules (s1 s2 : Enforcer) : Prop :=
  (∀ t, t ∈ policy s1 ↔ t ∈ policy s2) ∧ grouping s1 = grouping s2.

(** Two checkers that agree up to the order of their rules, in memory and
    in the policy file. *)
Definition same_state (c1 c2 : Checker) : Prop :=
  org c1 = org c2 ∧ same_rules (e c1) (e c2) ∧
  writable (adapter c1) = writable (adapter c2) ∧
  match stored (adapter c1), stored (adapter c2) with
  | Some s1, Some s2 => same_rules s1 s2
  | None, None => True
  | _, _ => False
  end.

(** ** Renaming *)

(** [GetItemPolicies]: the rules of an item; the error of the reload is
    dropped, as in the Go code. *)
Definition GetItemPolicies (itemName itemKind itemType : string) : Op (list Tuple) :=
  λ c, let c1 := (LoadPolicy c).2 in
       let filteredItem := RuleStore.GetFilteredPolicy (e c1) condNamePos itemName in
       (Ok (filter (λ p, condKind p = itemKind ∧ condSubkind p = itemType)
              filteredItem), c1).

(** [newPolicy[condNamePos] = item.GetName()]. *)
Definition setName (n : string) (p : Tuple) : Tuple :=
  mkTuple (condGroup p) (condSubkind p) (condKind p) n (condPerm p) (condEffect p).

Definition RenameItemACL (item : Item) (oldName : string) : Op () :=
  LoadPolicy ;;;
  oldPolicies <- GetItemPolicies oldName (ContainerKind item) (ContainerType item) ;;
  match oldPolicies with
  | [] => ret ()
  | _ :: _ =>
      forEach oldPolicies (λ p, AddPolicy (setName (GetName item) p) ;;; ret ()) ;;;
      forEach oldPolicies (λ p, RemovePolicySafe p ;;; ret ()) ;;;
      SavePolicy
  end.

(** [t] is a rule of the item of kind [k] and type [ty] named [n]. *)
Definition is_item (k ty n : string) (t : Tuple) : Prop :=
  condName t = n ∧ condKind t = k ∧ condSubkind t = ty.

(** The rule set a rename computes in memory. *)
Definition renamed (k ty old new : string) (s : Enforcer) : Enforcer :=
  let olds := filter (λ p, condKind p = k ∧ condSubkind p = ty)
                (RuleStore.GetFilteredPolicy s condNamePos old) in
  fold_left (λ s p, (RuleStore.RemovePolicy s p).2) olds
    (fold_left (λ s p, (RuleStore.AddPolicy s (setName new p)).2) olds s).

(** ** Editing single grants *)

Definition addPerm : string := "add".
Definition removePerm : string := "remove".

Section Whitelist.
(** The whitelist [aclhelper.DefaultACLs] is declared outside the package;
    the checker is parametric in it. *)
Context (DefaultACLs : list string).

Definition checkValidPerm (perm : string) : bool :=
  existsb (λ p, bool_decide (p = perm)) DefaultACLs.

(** The body of the loop of [EditItemPerm]. *)
Definition editOne {M} `{Member M} (policyFunc : Tuple → Op bool)
    (item : Item) (member : M) (p : string) : Op () :=
  if negb (checkValidPerm p) then fail InvalidEditAction
  else policyFunc (buildEnforcingSlice item member p) ;;; ret ().

(** [EditItemPerm]; an unknown action, an empty list of permissions and a
    permission outside the whitelist are all plain [util.Errorf] errors. *)
Definition EditItemPerm {M} `{Member M}
    (item : Item) (member : M) (perms : list string) (action : string) : Op () :=
  LoadPolicy ;;;
  policyFunc <-
    (if bool_decide (action = addPerm) then ret AddPolicy
     else if bool_decide (action = removePerm) then ret RemovePolicy
     else fail InvalidEditAction) ;;
  match perms with
  | [] => fail InvalidEditAction
  | _ :: _ =>
      forEach perms (editOne policyFunc item member) ;;;
      SavePolicy
  end.

(** [CreatorOnly]: one [EditItemPerm] per whitelisted permission. *)
Definition CreatorOnly (item : Item) (creator : Actor) : Op () :=
  LoadPolicy ;;;
  forEach DefaultACLs (λ p, EditItemPerm item creator [p] "add").

End Whitelist.

(** ** Deleting an item's rules *)

(** The removal loop of [DeleteItemACL]; [rmok] ends up as the answer of
    the last removal. *)
Fixpoint removeEach (l : list Tuple) (rmok : bool) : Op bool :=
  match l with
  | [] => ret rmok
  | p :: l' => r <- RemovePolicySafe p ;; removeEach l' r
  end.

Definition DeleteItemACL (item : Item) : Op bool :=
  LoadPolicy ;;;
  policies <- GetItemPolicies (GetName item) (ContainerKind item) (ContainerType item) ;;
  rmok <- removeEach policies false ;;
  SavePolicy ;;;
  ret rmok.

(** The answer of the last removal of the loop, computed on the rule set. *)
Fixpoint lastRemoved (l : list Tuple) (rmok : bool) (s : Enforcer) : bool :=
  match l with
  | [] => rmok
  | p :: l' => lastRemoved l' (RuleStore.RemovePolicy s p).1 (RuleStore.RemovePolicy s p).2
  end.

(** ** Members and roles *)

(** Modelled from the spec: the membership-edge calls of the rule store
    (section 6).  An edge already present is not added again; a deleted
    edge leaves the store. *)
Module RoleStore.

Definition AddRoleForUser (s : Enforcer) (user role : string) : bool * Enforcer :=
  if bool_decide ((user, role) ∈ grouping s) then (false, s)
  else (true, mkEnforcer (policy s) (grouping s ++ [(user, role)])).

Definition DeleteRoleForUser (s : Enforcer) (user role : string) : bool * Enforcer :=
  (bool_decide ((user, role) ∈ grouping s),
   mkEnforcer (policy s) (filter (λ g, g ≠ (user, role)) (grouping s))).

Definition DeleteRolesForUser (s : Enforcer) (user : string) : Enforcer :=
  mkEnforcer (policy s) (filter (λ g, g.1 ≠ user) (grouping s)).

(** [GetPermissionsForUser]: the rules whose subject is the user itself. *)
Definition GetPermissionsForUser (s : Enforcer) (user : string) : list Tuple :=
  RuleStore.GetFilteredPolicy s condGroupPos user.

End RoleStore.

Definition AddRoleForUser (user role : string) : Op bool :=
  λ c, let r := RoleStore.AddRoleForUser (e c) user role in
       (Ok r.1, mkChecker (org c) r.2 (adapter c)).

Definition DeleteRoleForUser (user role : string) : Op bool :=
  λ c, let r := RoleStore.DeleteRoleForUser (e c) user role in
       (Ok r.1, mkChecker (org c) r.2 (adapter c)).

Definition DeleteRolesForUser (user : string) : Op () :=
  λ c, (Ok (), mkChecker (org c) (RoleStore.DeleteRolesForUser (e c) user) (adapter c)).

Definition GetPermissionsForUser (user : string) : Op (list Tuple) :=
  λ c, (Ok (RoleStore.GetPermissionsForUser (e c) user), c).

(** A grant subject of either sort, as [AllMembers] hands them out. *)
Inductive AnyMember :=
  | MActor (a : Actor)
  | MGroup (g : Group).

#[global] Instance AnyMember_named : Named AnyMember :=
  λ m, match m with MActor a => GetName a | MGroup g => GetName g end.
#[global] Instance AnyMember_member : Member AnyMember :=
  λ m, match m with MActor a => ACLName a | MGroup g => ACLName g end.

(** [aclhelper.Role]: a member that knows its members. *)
Record Role := mkRole {
  roleName : string;
  roleACLName : string;
  AllMembers : list AnyMember
}.
#[global] Instance Role_named : Named Role := roleName.
#[global] Instance Role_member : Member Role := roleACLName.

(** [AddMembers]; the [inTransaction] flag only decides whether the locks
    are taken here or by the caller. *)
Definition AddMembers (gRole : Role) (adding : list AnyMember) : Op () :=
  LoadPolicy ;;;
  forEach adding (λ m, AddRoleForUser (ACLName m) (ACLName gRole) ;;; ret ()) ;;;
  SavePolicy.

Definition RemoveMembers (gRole : Role) (removing : list AnyMember) : Op () :=
  LoadPolicy ;;;
  forEach removing (λ m, DeleteRoleForUser (ACLName m) (ACLName gRole) ;;; ret ()) ;;;
  SavePolicy.

Definition AddACLRole (gRole : Role) : Op () :=
  LoadPolicy ;;;
  AddMembers gRole (AllMembers gRole).

Definition RemoveUser {M} `{Member M} (u : M) : Op () :=
  LoadPolicy ;;;
  DeleteRolesForUser (ACLName u) ;;;
  SavePolicy.

(** [newPolicy[condGroupPos] = member.ACLName()]. *)
Definition setGroup (g : string) (p : Tuple) : Tuple :=
  mkTuple g (condSubkind p) (condKind p) (condName p) (condPerm p) (condEffect p).

Definition RenameMember {M} `{Member M} (member : M) (oldName : string) : Op () :=
  LoadPolicy ;;;
  oldPol <- GetPermissionsForUser oldName ;;
  match oldPol with
  | [] => ret ()
  | _ :: _ =>
      forEach oldPol (λ p, AddPolicy (setGroup (ACLName member) p) ;;; ret ()) ;;;
      forEach oldPol (λ p, RemovePolicySafe p ;;; ret ()) ;;;
      SavePolicy
  end.

(** The rule set a member rename computes in memory. *)
Definition memberRenamed (old new : string) (s : Enforcer) : Enforcer :=
  let olds := RoleStore.GetPermissionsForUser s old in
  fold_left (λ s p, (RuleStore.RemovePolicy s p).2) olds
    (fold_left (λ s p, (RuleStore.AddPolicy s (setGroup new p)).2) olds s).

(** ** Effects on the policy file *)

(** A call that leaves organization and policy file as they were. *)
Definition reads_only {A} (m : Op A) : Prop :=
  ∀ c, org (m c).2 = org c ∧ adapter (m c).2 = adapter c.

(** A call that rewrites the policy file, if at all, with the rules it
    holds in memory on return, and only when it returns without error. *)
Definition writes_on_success {A} (m : Op A) : Prop :=
  ∀ c, org (m c).2 = org c ∧
       (adapter (m c).2 = adapter c ∨
        (∃ a, (m c).1 = Ok a) ∧ adapter (m c).2 = mkAdapter (Some (e (m c).2)) true).

(** Every entry sits under its own permission. *)
Definition keyed (m : gmap string ACLItem) : Prop :=
  ∀ k v, m !! k = Some v → Perm v = k.


(** *** Sample data: the scenarios of section 8 *)

Definition alice : Actor := mkActor true "" "alice" "alice".
Definition node1 : Item := mkItem "containers" "nodes" "node1".
Definition admins : Item := mkItem "groups" "groups" "admins".
Definition acme : Organization := mkOrg "acme".
Definition acme_world : World :=
  mkWorld false ["alice-acme"] [alice] [mkGroup "ops"; mkGroup "admins"].

Definition checker_on (s : Enforcer) : Checker :=
  mkChecker acme (mkEnforcer [] []) (mkAdapter (Some s) true).

(** alice belongs to [role##ops], which belongs to [role##admins]; only the
    latter holds the grant on node1. *)
Definition store_role_grant : Enforcer :=
  mkEnforcer
    [mkTuple "role##admins" "nodes" "containers" "node1" "read" "allow";
     mkTuple "bob" "nodes" "containers" "$$default$$" "read" "allow"]
    [("alice", "role##ops"); ("role##ops", "role##admins")].

(** The group admins carries the deny-all sentinel for update, next to a
    type-wide default that would let alice update any group. *)
Definition store_denyall : Enforcer :=
  mkEnforcer
    [mkTuple "denyall##groups" "groups" "groups" "admins" "update" "allow";
     mkTuple "alice" "groups" "groups" "$$default$$" "update" "allow"]
    [].

(** Only a type-wide default exists for nodes. *)
Definition store_default : Enforcer :=
  mkEnforcer
    [mkTuple "alice" "nodes" "containers" "$$default$$" "read" "allow"]
    [].

(** A deny tuple and a role grant sit next to alice's grant on node1. *)
Definition store_with_deny : Enforcer :=
  mkEnforcer
    [mkTuple "alice" "nodes" "containers" "node1" "read" "allow";
     mkTuple "eve" "nodes" "containers" "node1" "read" "deny";
     mkTuple "role##ops" "nodes" "containers" "$$default$$" "read" "allow";
     mkTuple "role##spies" "nodes" "containers" "$$default$$" "read" "deny"]
    [].

(** The payload of the last scenario of section 8: alice and the group ops
    are wanted under update. *)
Definition payload_ops : JSON :=
  JObject {[ "update" :=
    JObject {[ "actors" := JArray [JString "alice"];
               "groups" := JArray [JString "ops"] ]} ]}.

(** A payload whose actor list holds a number. *)
Definition payload_number : JSON :=
  JObject {[ "update" :=
    JObject {[ "actors" := JArray [JNumber 1%Z];
               "groups" := JArray [] ]} ]}.

(** node2 has a grant of its own; node1 has none. *)
Definition store_node2 : Enforcer :=
  mkEnforcer
    [mkTuple "bob" "nodes" "containers" "node2" "read" "allow"]
    [].

(** alice holds read on node1. *)
Definition store_node1 : Enforcer :=
  mkEnforcer
    [mkTuple "alice" "nodes" "containers" "node1" "read" "allow";
     mkTuple "alice" "nodes" "containers" "$$default$$" "read" "allow"]
    [].

(** alice holds read on node1, and update on every node by default. *)
Definition store_pinned : Enforcer :=
  mkEnforcer
    [mkTuple "alice" "nodes" "containers" "node1" "read" "allow";
     mkTuple "alice" "nodes" "containers" "$$default$$" "update" "allow"]
    [].

(** A client of another organization. *)
Definition stranger : Actor := mkActor false "initech" "stranger" "stranger".

(** The permission verbs of a chef server. *)
Definition chef_perms : list string := ["create"; "read"; "update"; "delete"; "grant"].

(** The role behind the group ops, with alice as its only member. *)
Definition ops_role : Role := mkRole "ops" "role##ops" [MActor alice].

(** The group ops may read node1; nobody belongs to it yet. *)
Definition store_ops_grant : Enforcer :=
  mkEnforcer
    [mkTuple "role##ops" "nodes" "containers" "node1" "read" "allow"]
    [].

(** alice under her new name. *)
Definition alicia : Actor := mkActor true "" "alicia" "alicia".

(** The group admins has a grant under a permission for which groups have
    no default. *)
Definition store_group_odd : Enforcer :=
  mkEnforcer
    [mkTuple "alice" "groups" "groups" "admins" "frobnicate" "allow";
     mkTuple "alice" "groups" "groups" "$$default$$" "read" "allow"]
    [].

(** ** Facts about the rule store *)

Lemma pinned_by_Exists {M} `{Member M} (s : Enforcer) (item : Item) (doer : M) :
  Exists (λ p, condGroup p = ACLName doer ∧
               ContainerKind item = condKind p ∧
               ContainerType item = condSubkind p ∧
               GetName item = condName p) (policy s) ↔ pinned_by s item doer.
Proof. unfold pinned_by. by rewrite Exists_exists. Qed.

#[global] Instance pinned_by_dec {M} `{Member M} s item (doer : M) :
  Decision (pinned_by s item doer).
Proof.
  destruct (decide (Exists (λ p, condGroup p = ACLName doer ∧
               ContainerKind item = condKind p ∧
               ContainerType item = condSubkind p ∧
               GetName item = condName p) (policy s))) as [Hex|Hex].
  - left. by apply pinned_by_Exists.
  - right. intros Hp. by apply Hex, pinned_by_Exists.
Defined.

Lemma perm_defined_Exists (s : Enforcer) (item : Item) (perm : string) :
  Exists (λ p, condSubkind p = ContainerType item ∧
               condKind p = ContainerKind item ∧ condPerm p = perm) (policy s)
  ↔ perm_defined s item perm.
Proof. unfold perm_defined. by rewrite Exists_exists. Qed.

#[global] Instance perm_defined_dec s item perm : Decision (perm_defined s item perm).
Proof.
  destruct (decide (Exists (λ p, condSubkind p = ContainerType item ∧
               condKind p = ContainerKind item ∧ condPerm p = perm) (policy s)))
    as [Hex|Hex].
  - left. by apply perm_defined_Exists.
  - right. intros Hp. by apply Hex, perm_defined_Exists.
Defined.


Lemma existsb_elem_of {A} (f : A → bool) (l : list A) :
  existsb f l = true ↔ ∃ x, x ∈ l ∧ f x = true.
Proof.
  rewrite existsb_exists. split; intros (x & Hx & Hf); exists x; split; auto;
    by apply list_elem_of_In.
Qed.

Lemma existsb_false_elem_of {A} (f : A → bool) (l : list A) :
  existsb f l = false ↔ ∀ x, x ∈ l → f x = false.
Proof.
  split.
  - intros Hex x Hx. destruct (f x) eqn:Hf; [|done].
    assert (existsb f l = true) as Ht by (apply existsb_elem_of; eauto).
    congruence.
  - intros Hall. destruct (existsb f l) eqn:Hex; [|done].
    apply existsb_elem_of in Hex as (x & Hx & Hf).
    rewrite (Hall x Hx) in Hf. done.
Qed.

Lemma filter_length_lt {A} (P : A → Prop) `{∀ x, Decision (P x)} (l : list A) x :
  x ∈ l → ¬ P x → length (filter P l) < length l.
Proof.
  induction l as [|y l IH]; intros Hin HnP.
  - by apply elem_of_nil in Hin.
  - rewrite filter_cons. apply elem_of_cons in Hin as [->|Hin].
    + rewrite decide_False by done. pose proof (length_filter P l). simpl. lia.
    + specialize (IH Hin HnP). destruct (decide (P y)); simpl; lia.
Qed.

Module RuleStoreFacts.
Import RuleStore.

Lemma role_path_is_path g u r :
  role_path g u r ↔ ∃ es, is_path g u es r.
Proof.
  split.
  - induction 1 as [u|u m r Hin _ [es IH]].
    + by exists [].
    + exists ((u, m) :: es). simpl. auto.
  - intros [es Hes]. revert u Hes.
    induction es as [|[a b] es IH]; simpl; intros u Hes.
    + subst. constructor.
    + destruct Hes as (Hin & <- & Hes). simpl in *.
      eapply role_path_step; eauto.
Qed.

Lemma role_path_mono g g' u r :
  (∀ e, e ∈ g → e ∈ g') → role_path g u r → role_path g' u r.
Proof.
  intros Hsub. induction 1; [constructor|].
  eapply role_path_step; eauto.
Qed.

Lemma is_path_restrict g g' u es r :
  (∀ e, e ∈ es → e ∈ g') → is_path g u es r → is_path g' u es r.
Proof.
  revert u. induction es as [|e es IH]; simpl; intros u Hsub Hes; [done|].
  destruct Hes as (_ & Hu & Hes). split_and!; [|done|].
  - apply Hsub. left.
  - apply IH; [|done]. intros e' He'. apply Hsub. by right.
Qed.

Lemma is_path_edges g u es r e :
  is_path g u es r → e ∈ es → e ∈ g.
Proof.
  revert u. induction es as [|x es IH]; simpl; intros u Hes He.
  - by apply elem_of_nil in He.
  - destruct Hes as (Hx & _ & Hes).
    apply elem_of_cons in He as [->|He]; eauto.
Qed.

Lemma is_path_suffix g u l1 e l2 r :
  is_path g u (l1 ++ e :: l2) r → is_path g e.1 (e :: l2) r.
Proof.
  revert u. induction l1 as [|x l1 IH]; intros u.
  - simpl. intros (Hin & _ & Hes). by split_and!.
  - simpl. intros (_ & _ & Hes). by apply IH in Hes.
Qed.

Lemma hasLink_aux_sound n g u r :
  hasLink_aux n g u r = true → role_path g u r.
Proof.
  revert g u. induction n as [|n IH]; simpl; intros g u Hl.
  - rewrite orb_false_r in Hl. apply bool_decide_eq_true in Hl as ->. constructor.
  - apply orb_true_iff in Hl as [Hl|Hl].
    + apply bool_decide_eq_true in Hl as ->. constructor.
    + apply existsb_elem_of in Hl as ([a b] & Hin & Hl).
      apply andb_true_iff in Hl as [Ha Hl]. apply bool_decide_eq_true in Ha.
      simpl in *. subst a. eapply role_path_step; [done|].
      eapply role_path_mono; [|by apply IH].
      intros e He. by apply list_elem_of_filter in He as [_ ?].
Qed.

Lemma hasLink_aux_fuel (n m : nat) g u r :
  n ≤ m → hasLink_aux n g u r = true → hasLink_aux m g u r = true.
Proof.
  revert m g u. induction n as [|n IH]; intros m g u Hle; simpl.
  - rewrite orb_false_r. intros ->%bool_decide_eq_true.
    destruct m; simpl; by rewrite bool_decide_eq_true_2.
  - destruct m as [|m]; [lia|]. simpl.
    intros [Hl|Hl]%orb_true_iff; [by rewrite Hl|].
    apply orb_true_iff. right.
    apply existsb_elem_of in Hl as (e & Hin & Hl).
    apply existsb_elem_of. exists e. split; [done|].
    apply andb_true_iff in Hl as [Ha Hl]. rewrite Ha. simpl.
    apply IH; [lia|done].
Qed.

Lemma hasLink_path (k : nat) : ∀ es g u r,
  length es ≤ k → is_path g u es r → hasLink g u r = true.
Proof.
  unfold hasLink.
  induction k as [|k IH]; intros es g u r Hlen Hes.
  - destruct es; [|simpl in Hlen; lia]. simpl in Hes. subst.
    destruct (length g); simpl; by rewrite bool_decide_eq_true_2.
  - destruct es as [|e es].
    { simpl in Hes. subst.
      destruct (length g); simpl; by rewrite bool_decide_eq_true_2. }
    destruct (decide (e ∈ es)) as [Hin|Hnin].
    + apply list_elem_of_split in Hin as (l1 & l2 & ->).
      destruct Hes as (Hg & Hu & Hes).
      apply is_path_suffix in Hes. rewrite Hu in Hes.
      apply (IH (e :: l2)); [|done].
      simpl in *. rewrite length_app in Hlen. simpl in Hlen. lia.
    + destruct Hes as (Hg & Hu & Hes).
      assert (length (filter (λ e', e' ≠ e) g) < length g) as Hlt.
      { apply (filter_length_lt _ _ e); [done|]. by intros ?. }
      destruct (length g) as [|n] eqn:Hn; [lia|]. simpl.
      apply orb_true_iff. right. apply existsb_elem_of.
      exists e. split; [done|].
      rewrite bool_decide_eq_true_2 by done. simpl.
      apply (hasLink_aux_fuel (length (filter (λ e', e' ≠ e) g))); [lia|].
      apply (IH es); [simpl in Hlen; lia|].
      eapply is_path_restrict; [|done].
      intros e' He'. apply list_elem_of_filter. split.
      * intros ->. done.
      * by eapply is_path_edges.
Qed.

(** [hasLink] decides role membership reached through any number of
    edges. *)
Lemma hasLink_spec g u r : hasLink g u r = true ↔ role_path g u r.
Proof.
  split.
  - apply hasLink_aux_sound.
  - intros [es Hes]%role_path_is_path. by eapply hasLink_path.
Qed.

Lemma hasLink_refl g u : hasLink g u u = true.
Proof. apply hasLink_spec. constructor. Qed.

Lemma matches_spec g r p :
  matches g r p = true ↔
  role_path g (condGroup r) (condGroup p) ∧
  condSubkind r = condSubkind p ∧ condKind r = condKind p ∧
  condName r = condName p ∧ condPerm r = condPerm p ∧
  condEffect r = condEffect p.
Proof.
  unfold matches. rewrite !andb_true_iff, !bool_decide_eq_true, hasLink_spec.
  tauto.
Qed.

(** [Enforce] answers true exactly when the store grants the request. *)
Lemma Enforce_spec s r : Enforce s r = true ↔ grants s r.
Proof.
  unfold Enforce, grants. rewrite existsb_elem_of.
  split; intros (p & Hp & Hm); exists p; split; auto;
    by apply matches_spec.
Qed.

Lemma Enforce_false_spec s r : Enforce s r = false ↔ ¬ grants s r.
Proof.
  rewrite <- Enforce_spec. destruct (Enforce s r); naive_solver.
Qed.

(** A rule of the store grants the request that repeats it. *)
Lemma Enforce_present s t : t ∈ policy s → Enforce s t = true.
Proof.
  intros Hin. apply Enforce_spec. exists t. split_and!; try done. constructor.
Qed.

Lemma elem_of_GetFilteredPolicy s i v p :
  p ∈ GetFilteredPolicy s i v ↔ p ∈ policy s ∧ field i p = v.
Proof. unfold GetFilteredPolicy. rewrite list_elem_of_filter. tauto. Qed.

Lemma elem_of_AddPolicy s t p :
  p ∈ policy (AddPolicy s t).2 ↔ p ∈ policy s ∨ p = t.
Proof.
  unfold AddPolicy. destruct (decide (t ∈ policy s)) as [Hin|Hnin].
  - rewrite bool_decide_eq_true_2 by done. split; [by left|by intros [?| ->]].
  - rewrite bool_decide_eq_false_2 by done. simpl.
    rewrite elem_of_app, list_elem_of_singleton. tauto.
Qed.

Lemma elem_of_RemovePolicy s t p :
  p ∈ policy (RemovePolicy s t).2 ↔ p ∈ policy s ∧ p ≠ t.
Proof. unfold RemovePolicy. simpl. rewrite list_elem_of_filter. tauto. Qed.

Lemma grouping_AddPolicy s t : grouping (AddPolicy s t).2 = grouping s.
Proof. unfold AddPolicy. by destruct (bool_decide _). Qed.

Lemma grouping_RemovePolicy s t : grouping (RemovePolicy s t).2 = grouping s.
Proof. done. Qed.

End RuleStoreFacts.

(** ** Permission evaluation *)

Section CheckItemPermFacts.
Import RuleStoreFacts.
Context (w : World).

Lemma testForAnyPol_run {M} `{Member M} (item : Item) (doer : M) perm c :
  testForAnyPol item doer perm c =
  (Ok (bool_decide (pinned_by (e c) item doer) ||
       (bool_decide (ContainerKind item = "groups") &&
        RuleStore.Enforce (e c) (buildDenySlice item perm))), c).
Proof.
  unfold testForAnyPol, bind, GetFilteredPolicy. simpl.
  destruct (existsb _ _) eqn:Hex.
  - apply existsb_elem_of in Hex as (p & Hp & Hm).
    apply elem_of_GetFilteredPolicy in Hp as [Hp Hsub]. simpl in Hsub.
    rewrite !andb_true_iff, !bool_decide_eq_true in Hm.
    rewrite bool_decide_eq_true_2; [done|]. exists p. tauto.
  - rewrite (bool_decide_eq_false_2 (pinned_by _ _ _)).
    + simpl. by destruct (bool_decide (ContainerKind item = "groups")).
    + intros (p & Hp & Hsub & Hk & Ht & Hn).
      rewrite existsb_false_elem_of in Hex.
      specialize (Hex p). rewrite elem_of_GetFilteredPolicy in Hex.
      specialize (Hex (conj Hp Hsub)).
      by rewrite !bool_decide_eq_true_2 in Hex.
Qed.

Lemma isPermValid_run item perm c :
  isPermValid item perm c = (Ok (bool_decide (perm_defined (e c) item perm)), c).
Proof.
  unfold isPermValid, bind, GetFilteredPolicy, ret. simpl. do 2 f_equal.
  destruct (existsb _ _) eqn:Hex; symmetry.
  - apply existsb_elem_of in Hex as (p & Hp & Hm).
    apply elem_of_GetFilteredPolicy in Hp as [Hp Hsub]. simpl in Hsub.
    rewrite andb_true_iff, !bool_decide_eq_true in Hm.
    apply bool_decide_eq_true_2. exists p. tauto.
  - apply bool_decide_eq_false_2. intros (p & Hp & Hsub & Hk & Hperm).
    rewrite existsb_false_elem_of in Hex.
    specialize (Hex p). rewrite elem_of_GetFilteredPolicy in Hex.
    specialize (Hex (conj Hp Hsub)).
    by rewrite !bool_decide_eq_true_2 in Hex.
Qed.

(** The whole of [CheckItemPerm] once the policy file has been read. *)
Lemma CheckItemPerm_run item doer perm c s :
  stored (adapter c) = Some s →
  let c' := mkChecker (org c) s (adapter c) in
  let specific := buildEnforcingSlice item doer perm in
  CheckItemPerm w item doer perm c =
  if RuleStore.Enforce s specific ||
     (negb (bool_decide (pinned_by s item doer) ||
            (bool_decide (ContainerKind item = "groups") &&
             RuleStore.Enforce s (buildDenySlice item perm))) &&
      RuleStore.Enforce s (general specific))
  then (Ok true, c')
  else if negb (bool_decide (perm_defined s item perm))
  then (Err InvalidPermission, c')
  else match testAssociation w doer (org c) with
       | Some err => (Err err, c')
       | None => (Ok false, c')
       end.
Proof.
  intros Hs c' specific. subst c'.
  cbv [CheckItemPerm bind LoadPolicy Enforce ret fail]. rewrite Hs.
  fold specific. cbn [e org].
  destruct (RuleStore.Enforce s specific); cbn [orb]; [done|].
  rewrite testForAnyPol_run. cbn [e org].
  destruct (bool_decide (pinned_by s item doer) || _); cbn [negb andb].
  - rewrite isPermValid_run. cbn [e org].
    by destruct (bool_decide (perm_defined s item perm)).
  - cbn [e]. destruct (RuleStore.Enforce s (general specific)); [done|].
    rewrite isPermValid_run. cbn [e org].
    by destruct (bool_decide (perm_defined s item perm)).
Qed.

End CheckItemPermFacts.

Section CheckItemPermClaims.
Import RuleStore RuleStoreFacts.

(** C1. Whenever the rule set read from the policy file holds an allow
    tuple matching (actor's ACL name, item type, item kind, item name,
    perm), be it on the actor directly or on a role the actor reaches
    through membership edges, [CheckItemPerm] returns [(true, nil)]; no
    assumption is made on [$$default$$] rules. *)
Theorem CheckItemPerm_specific_allows w item doer perm c s :
  stored (adapter c) = Some s →
  grants s (buildEnforcingSlice item doer perm) →
  (CheckItemPerm w item doer perm c).1 = Ok true.
Proof.
  intros Hs Hg. rewrite (CheckItemPerm_run w item doer perm c s Hs).
  apply Enforce_spec in Hg. by rewrite Hg.
Qed.

Lemma CheckItemPerm_specific_allows_witness :
  (CheckItemPerm acme_world node1 alice "read" (checker_on store_role_grant)).1
  = Ok true.
Proof.
  apply (CheckItemPerm_specific_allows acme_world node1 alice "read"
           (checker_on store_role_grant) store_role_grant).
  - reflexivity.
  - apply Enforce_spec. vm_compute. reflexivity.
Defined.

(** C2. On a group item whose [denyall##groups] tuple is set for [perm],
    an associated actor without a grant matching the specific tuple gets
    [(false, nil)], whatever general rules the rule set holds.  The
    sentinel tuple itself makes [perm] a defined permission of the
    item's (kind, subkind) pair. *)
Theorem CheckItemPerm_denyall_group w item doer perm c s :
  stored (adapter c) = Some s →
  ContainerKind item = "groups" →
  buildDenySlice item perm ∈ policy s →
  ¬ grants s (buildEnforcingSlice item doer perm) →
  testAssociation w doer (org c) = None →
  (CheckItemPerm w item doer perm c).1 = Ok false.
Proof.
  intros Hs Hk Hdeny Hng Hassoc.
  rewrite (CheckItemPerm_run w item doer perm c s Hs).
  apply Enforce_false_spec in Hng. rewrite Hng.
  rewrite (bool_decide_eq_true_2 (ContainerKind item = "groups")) by done.
  rewrite (Enforce_present s (buildDenySlice item perm)) by done.
  rewrite orb_true_r. cbn [orb negb andb].
  rewrite (bool_decide_eq_true_2 (perm_defined s item perm)).
  - cbn [negb]. by rewrite Hassoc.
  - exists (buildDenySlice item perm). by split_and!.
Qed.

Lemma CheckItemPerm_denyall_group_witness :
  grants store_denyall (general (buildEnforcingSlice admins alice "update")) ∧
  (CheckItemPerm acme_world admins alice "update" (checker_on store_denyall)).1
  = Ok false.
Proof.
  split.
  - apply Enforce_spec. vm_compute. reflexivity.
  - apply (CheckItemPerm_denyall_group acme_world admins alice "update"
             (checker_on store_denyall) store_denyall).
    + reflexivity.
    + reflexivity.
    + left.
    + apply Enforce_false_spec. vm_compute. reflexivity.
    + vm_compute. reflexivity.
Defined.

(** C3, as the specification words it, fails on a group that carries the
    deny-all sentinel: no tuple names alice on the group admins, the
    general tuple is granted, and still the answer is [(false, nil)]. *)
Lemma CheckItemPerm_general_counterexample :
  ¬ (∀ w item doer perm c s,
       stored (adapter c) = Some s →
       ¬ pinned_by s item doer →
       grants s (general (buildEnforcingSlice item doer perm)) →
       (CheckItemPerm w item doer perm c).1 = Ok true).
Proof.
  intros Hclaim.
  specialize (Hclaim acme_world admins alice "update"
                (checker_on store_denyall) store_denyall eq_refl).
  assert ((CheckItemPerm acme_world admins alice "update"
             (checker_on store_denyall)).1 = Ok false) as Hrun
    by (vm_compute; reflexivity).
  rewrite Hrun in Hclaim.
  assert (Ok false = Ok true) as Habs; [|discriminate Habs].
  apply Hclaim.
  - apply (bool_decide_eq_false_1 (pinned_by store_denyall admins alice)).
    vm_compute. reflexivity.
  - apply Enforce_spec. vm_compute. reflexivity.
Qed.

(** C3, amended.  When no tuple names the actor on the item and the item
    is not a group whose [denyall##groups] tuple is enforced for [perm],
    a granted general tuple makes [CheckItemPerm] return [(true, nil)].
    The general tuple is the specific one renamed to [$$default$$], with
    the subkind first replaced by the item name when kind and subkind
    are both ["containers"]. *)
Theorem CheckItemPerm_general_allows w item doer perm c s :
  stored (adapter c) = Some s →
  ¬ pinned_by s item doer →
  ¬ (ContainerKind item = "groups" ∧ grants s (buildDenySlice item perm)) →
  grants s (general (buildEnforcingSlice item doer perm)) →
  (CheckItemPerm w item doer perm c).1 = Ok true ∧
  general (buildEnforcingSlice item doer perm) =
    mkTuple (ACLName doer)
            (if bool_decide (ContainerType item = "containers" ∧
                             ContainerKind item = "containers")
             then GetName item else ContainerType item)
            (ContainerKind item) "$$default$$" perm enforceEffect.
Proof.
  intros Hs Hpin Hdeny Hgen. split.
  - rewrite (CheckItemPerm_run w item doer perm c s Hs).
    apply Enforce_spec in Hgen. rewrite Hgen.
    rewrite (bool_decide_eq_false_2 (pinned_by s item doer)) by done.
    destruct (decide (ContainerKind item = "groups")) as [Hk|Hk].
    + rewrite (bool_decide_eq_true_2 _ Hk).
      destruct (RuleStore.Enforce s (buildDenySlice item perm)) eqn:Hd.
      * exfalso. apply Hdeny. split; [done|]. by apply Enforce_spec.
      * cbn [orb andb negb]. by rewrite orb_true_r.
    + rewrite (bool_decide_eq_false_2 _ Hk). cbn [orb andb negb].
      by rewrite orb_true_r.
  - unfold general, buildEnforcingSlice. cbn [condSubkind condKind condName
      condGroup condPerm condEffect]. f_equal.
    repeat case_bool_decide; simpl; try done; tauto.
Qed.

Lemma CheckItemPerm_general_allows_witness :
  (CheckItemPerm acme_world node1 alice "read" (checker_on store_default)).1
  = Ok true.
Proof.
  apply (CheckItemPerm_general_allows acme_world node1 alice "read"
           (checker_on store_default) store_default).
  - reflexivity.
  - apply (bool_decide_eq_false_1 (pinned_by store_default node1 alice)).
    vm_compute. reflexivity.
  - intros [Hk _]. vm_compute in Hk. discriminate Hk.
  - apply Enforce_spec. vm_compute. reflexivity.
Defined.

(** C4. When neither the specific nor the general tuple is granted and
    [perm] occurs in no tuple of the item's (kind, subkind) pair,
    [CheckItemPerm] fails with [InvalidPermission]; the world [w], and
    with it the actor's association, is arbitrary. *)
Theorem CheckItemPerm_invalid_perm w item doer perm c s :
  stored (adapter c) = Some s →
  ¬ grants s (buildEnforcingSlice item doer perm) →
  ¬ grants s (general (buildEnforcingSlice item doer perm)) →
  ¬ perm_defined s item perm →
  (CheckItemPerm w item doer perm c).1 = Err InvalidPermission.
Proof.
  intros Hs Hspec Hgen Hperm.
  rewrite (CheckItemPerm_run w item doer perm c s Hs).
  apply Enforce_false_spec in Hspec, Hgen. rewrite Hspec, Hgen.
  rewrite andb_false_r. cbn [orb].
  by rewrite (bool_decide_eq_false_2 (perm_defined s item perm)).
Qed.

(** mallory is a user without an association record. *)
Lemma CheckItemPerm_invalid_perm_witness :
  testAssociation acme_world (mkActor true "" "mallory" "mallory") acme
    = Some NotAssociated ∧
  (CheckItemPerm acme_world node1 (mkActor true "" "mallory" "mallory")
     "frobnicate" (checker_on store_default)).1 = Err InvalidPermission.
Proof.
  split; [vm_compute; reflexivity|].
  apply (CheckItemPerm_invalid_perm acme_world node1
           (mkActor true "" "mallory" "mallory") "frobnicate"
           (checker_on store_default) store_default).
  - reflexivity.
  - apply Enforce_false_spec. vm_compute. reflexivity.
  - apply Enforce_false_spec. vm_compute. reflexivity.
  - apply (bool_decide_eq_false_1 (perm_defined store_default node1 "frobnicate")).
    vm_compute. reflexivity.
Defined.

End CheckItemPermClaims.

(** C10. [RemoveItemACL] returns nil and leaves the checker, in-memory
    rules and policy file alike, exactly as it found it. *)
Theorem RemoveItemACL_noop item c :
  RemoveItemACL item c = (Ok (), c).
Proof. reflexivity. Qed.

(** ** Snapshot assembly *)

Section SnapshotFacts.
Import RuleStoreFacts.

Lemma contributed_fresh pol p :
  condEffect p ≠ denyEffect →
  contributed [] pol (condPerm p) (mkACLItem (condPerm p) (condEffect p) [] []).
Proof.
  intros Heft. split_and!; [done| |]; simpl; intros x Hx;
    by apply elem_of_nil in Hx.
Qed.

Lemma assembleStep_contributed item comparer pol tmp p :
  p ∈ pol →
  all_contributed [] pol tmp →
  all_contributed [] pol (assembleStep item comparer tmp p).
Proof.
  intros Hp Htmp. unfold assembleStep.
  destruct (comparer item p); [|done].
  destruct (decide (condEffect p = denyEffect)) as [Hd|Hd].
  { by rewrite bool_decide_eq_true_2. }
  rewrite bool_decide_eq_false_2 by done.
  set (cur := match tmp !! condPerm p with
              | Some it => it
              | None => mkACLItem (condPerm p) (condEffect p) [] []
              end).
  assert (contributed [] pol (condPerm p) cur) as (Hce & Hca & Hcg).
  { subst cur. destruct (tmp !! condPerm p) as [it|] eqn:Hit.
    - by apply Htmp.
    - by apply contributed_fresh. }
  destruct (HasPrefix (condGroup p) "role##") eqn:Hrole;
    intros k v; rewrite lookup_insert; case_decide as Hk;
    try (by apply Htmp); subst k; intros [= <-];
    (split_and!; [done| |]); simpl; try done.
  - intros g [Hg|Hg]%elem_of_app; [by apply Hcg|].
    apply list_elem_of_singleton in Hg as ->.
    exists p. by split_and!.
  - intros a [Ha|Ha]%elem_of_app; [by apply Hca|].
    apply list_elem_of_singleton in Ha as ->.
    right. exists p. by split_and!.
Qed.

Lemma assembleACL_contributed item filtered comparer pol :
  (∀ p, p ∈ filtered → p ∈ pol) →
  all_contributed [] pol (Perms (assembleACL item filtered comparer)).
Proof.
  intros Hsub. unfold assembleACL. simpl.
  assert (all_contributed [] pol (∅ : gmap string ACLItem)) as Hinit.
  { intros k v Hk. by rewrite lookup_empty in Hk. }
  revert Hsub Hinit. generalize (∅ : gmap string ACLItem) as tmp.
  induction filtered as [|p filtered IH]; intros tmp Hsub Htmp; simpl; [done|].
  apply IH.
  - intros q Hq. apply Hsub. by right.
  - apply assembleStep_contributed; [|done]. apply Hsub. by left.
Qed.

Lemma overrideStep_contributed pol k v acc :
  contributed [] pol k v →
  (∀ m, acc = Some m → all_contributed [] pol m) →
  ∀ m, overrideStep k v acc = Some m → all_contributed [] pol m.
Proof.
  intros (Hve & Hva & Hvg) Hacc m. unfold overrideStep.
  destruct acc as [gen|]; simpl; [|done].
  destruct (gen !! k) as [g|] eqn:Hg; [|done].
  intros [= <-]. specialize (Hacc gen eq_refl).
  destruct (Hacc k g Hg) as (Hge & Hga & Hgg).
  intros k' v'. rewrite lookup_insert. case_decide as Hk; [|by apply Hacc].
  subst k'. intros [= <-]. split_and!; simpl; [done| |].
  - by destruct (Actors v).
  - by destruct (Groups v).
Qed.

Lemma override_contributed pol gen itm m :
  all_contributed [] pol gen →
  all_contributed [] pol itm →
  map_fold overrideStep (Some gen) itm = Some m →
  all_contributed [] pol m.
Proof.
  intros Hgen Hitm. revert m.
  cut ((λ r (itm' : gmap string ACLItem),
          all_contributed [] pol itm' →
          ∀ m, r = Some m → all_contributed [] pol m)
         (map_fold overrideStep (Some gen) itm) itm); [by auto|].
  apply (map_fold_weak_ind _ overrideStep (Some gen)).
  - intros _ m [= <-]. done.
  - intros k v itm' r Hfresh IH Hall m.
    apply overrideStep_contributed.
    + apply Hall. by rewrite lookup_insert_eq.
    + apply IH. intros k' v' Hk'. apply Hall.
      rewrite lookup_insert_ne; [done|]. intros ->. congruence.
Qed.

Lemma finishItem_contributed pol k v :
  contributed [] pol k v →
  contributed [DefaultUser] pol k (finishItem v).
Proof.
  intros (He & Ha & Hg). unfold finishItem, RemoveDupStrings.
  split_and!; simpl; [done| |].
  - intros a Hin. rewrite elem_of_remove_dups in Hin.
    destruct (StringPresentInSlice DefaultUser (Actors v)).
    + destruct (Ha a Hin) as [Hnil|?]; [by apply elem_of_nil in Hnil|by right].
    + apply elem_of_app in Hin as [Hin|Hin].
      * destruct (Ha a Hin) as [Hnil|?]; [by apply elem_of_nil in Hnil|by right].
      * by left.
  - intros g Hin. rewrite elem_of_remove_dups in Hin. by apply Hg.
Qed.

(** The whole of [GetItemACL] once the policy file has been read. *)
Lemma GetItemACL_run item c s :
  stored (adapter c) = Some s →
  let filteredItem := RuleStore.GetFilteredPolicy s condNamePos (GetName item) in
  let filteredType :=
    if bool_decide (ContainerKind item = "groups")
    then RuleStore.GetFilteredPolicy s condNamePos "$$default$$"
    else RuleStore.GetFilteredPolicy s condSubkindPos (ContainerType item) in
  let itemPerms := Perms (assembleACL item filteredItem itemCompare) in
  let genPerms := Perms (assembleACL item filteredType genCompare) in
  let merged :=
    if bool_decide (ContainerKind item = "containers") &&
       bool_decide (ContainerType item = "containers")
    then Some itemPerms
    else map_fold overrideStep (Some genPerms) itemPerms in
  GetItemACL item c =
  (if bool_decide (filteredItem = [] ∧ filteredType = []) then Err NotFound
   else match merged with
        | Some m => Ok (mkACL (finishItem <$> m))
        | None => Panic
        end,
   mkChecker (org c) s (adapter c)).
Proof.
  intros Hs. cbv zeta.
  cbv [GetItemACL bind LoadPolicy GetFilteredPolicy]. rewrite Hs.
  cbn [e org adapter].
  set (filteredItem := RuleStore.GetFilteredPolicy s condNamePos (GetName item)).
  set (filteredType :=
         if bool_decide (ContainerKind item = "groups")
         then RuleStore.GetFilteredPolicy s condNamePos "$$default$$"
         else RuleStore.GetFilteredPolicy s condSubkindPos (ContainerType item)).
  set (c0 := mkChecker (org c) s (adapter c)).
  replace ((if bool_decide (ContainerKind item = "groups")
            then λ c1 : Checker,
              (Ok (RuleStore.GetFilteredPolicy (e c1) condNamePos "$$default$$"), c1)
            else λ c1 : Checker,
              (Ok (RuleStore.GetFilteredPolicy (e c1) condSubkindPos
                     (ContainerType item)), c1)) c0)
    with (Ok filteredType, c0)
    by (subst filteredType c0; by destruct (bool_decide _)).
  destruct filteredItem as [|p0 fi]; destruct filteredType as [|q0 ft];
    try (rewrite (bool_decide_eq_true_2 (_ ∧ _)) by done; reflexivity);
    (rewrite (bool_decide_eq_false_2 (_ ∧ _)) by (intros [? ?]; discriminate));
    (destruct (bool_decide (ContainerKind item = "containers") &&
               bool_decide (ContainerType item = "containers")); [done|]);
    by destruct (map_fold _ _ _).
Qed.

(** C9. Deny-effect tuples leave no trace in a snapshot.  Whatever the
    rule set: (1) each interim snapshot [assembleACL] builds from tuples
    of the rule set, with any comparer, holds only actors and groups that
    a tuple of effect other than deny contributes under that permission,
    and no entry of effect deny; (2) so does the merged snapshot
    [GetItemACL] returns, up to the superuser added to every actor
    list. *)
Theorem GetItemACL_excludes_deny item c s :
  stored (adapter c) = Some s →
  (∀ i v comparer,
     all_contributed [] (policy s)
       (Perms (assembleACL item (RuleStore.GetFilteredPolicy s i v) comparer))) ∧
  (∀ acl c', GetItemACL item c = (Ok acl, c') →
             all_contributed [DefaultUser] (policy s) (Perms acl)).
Proof.
  intros Hs.
  assert (∀ i v comparer,
     all_contributed [] (policy s)
       (Perms (assembleACL item (RuleStore.GetFilteredPolicy s i v) comparer)))
    as Hinterim.
  { intros i v comparer. apply assembleACL_contributed.
    intros p Hp. by apply elem_of_GetFilteredPolicy in Hp as [? _]. }
  split; [done|].
  intros acl c'. rewrite (GetItemACL_run item c s Hs).
  destruct (bool_decide (_ ∧ _)); [discriminate|].
  assert (∀ m, all_contributed [] (policy s) m →
               all_contributed [DefaultUser] (policy s) (finishItem <$> m))
    as Hfinish.
  { intros m Hm k v. rewrite lookup_fmap.
    destruct (m !! k) as [v0|] eqn:Hk; simpl; [|done].
    intros [= <-]. apply finishItem_contributed. by apply Hm. }
  destruct (bool_decide (ContainerKind item = "containers") &&
            bool_decide (ContainerType item = "containers")).
  - intros [= <- _]. apply Hfinish, Hinterim.
  - destruct (map_fold _ _ _) as [m|] eqn:Hfold; [|discriminate].
    intros [= <- _]. apply Hfinish.
    refine (override_contributed _ _ _ _ _ _ Hfold).
    + destruct (bool_decide (ContainerKind item = "groups")); apply Hinterim.
    + apply Hinterim.
Qed.

Lemma GetItemACL_excludes_deny_witness :
  (∀ i v comparer,
     all_contributed [] (policy store_with_deny)
       (Perms (assembleACL node1
                 (RuleStore.GetFilteredPolicy store_with_deny i v) comparer))) ∧
  (∀ acl c', GetItemACL node1 (checker_on store_with_deny) = (Ok acl, c') →
             all_contributed [DefaultUser] (policy store_with_deny) (Perms acl)).
Proof.
  apply (GetItemACL_excludes_deny node1 (checker_on store_with_deny)
           store_with_deny).
  reflexivity.
Defined.

(** On that rule set the snapshot of node1 lists alice, the superuser and
    the group ops under read; eve and spies, denied, are absent. *)
Example GetItemACL_with_deny :
  (GetItemACL node1 (checker_on store_with_deny)).1 =
  Ok (mkACL {[ "read" := mkACLItem "read" "allow" ["alice"; "pivotal"] ["ops"] ]}).
Proof. vm_compute. reflexivity. Qed.

End SnapshotFacts.

(** ** Grant reconciliation *)

Section ReconcileFacts.
Import RuleStoreFacts.
Context (w : World).

Lemma asStrings_run l c : asStrings (JString <$> l) c = (Ok l, c).
Proof.
  revert c. induction l as [|x l IH]; intros c; simpl; [done|].
  unfold bind. by rewrite IH.
Qed.

Lemma forEach_run {A} (f : A → Op ()) (g : A → Enforcer → Enforcer) l c :
  (∀ x c, x ∈ l → f x c = (Ok (), with_e c (g x (e c)))) →
  forEach l f c = (Ok (), with_e c (fold_left (λ s x, g x s) l (e c))).
Proof.
  revert c. induction l as [|x l IH]; intros c Hf; simpl.
  - by destruct c.
  - unfold bind. rewrite Hf by left. rewrite IH.
    + done.
    + intros y c' Hy. apply Hf. by right.
Qed.

Lemma dropUnwanted_run item perm na ng p c :
  dropUnwanted item perm na ng p c =
  (Ok (), with_e c (if unwanted item perm na ng p
                    then (RuleStore.RemovePolicy (e c) p).2 else e c)).
Proof.
  unfold dropUnwanted, unwanted.
  destruct (bool_decide (condKind p = ContainerKind item) &&
            bool_decide (condSubkind p = ContainerType item) &&
            bool_decide (condPerm p = perm)); cbn [andb]; [|by destruct c].
  destruct (HasPrefix (condGroup p) "denyall##"); cbn [negb andb];
    [by destruct c|].
  destruct (HasPrefix (condGroup p) "role##").
  - destruct (StringPresentInSlice _ ng); cbn [negb]; [by destruct c|done].
  - destruct (StringPresentInSlice _ na); cbn [negb]; [by destruct c|done].
Qed.

Lemma addActors_run item perm l c :
  Forall (λ act, is_Some (GetActor w act)) l →
  forEach l (addActor w item perm) c =
  (Ok (), with_e c (addAll (omap (actorTuple w item perm) l) (e c))).
Proof.
  revert c. induction l as [|act l IH]; intros c Hall; simpl.
  - by destruct c.
  - apply Forall_cons in Hall as [[a Ha] Hall].
    unfold bind, addActor at 1, actorTuple at 1. rewrite Ha. simpl.
    rewrite IH by done. done.
Qed.

Lemma addGroups_run item perm l c :
  Forall (λ gr, is_Some (groupGet w gr)) l →
  forEach l (addGroup w item perm) c =
  (Ok (), with_e c (addAll (omap (groupTuple w item perm) l) (e c))).
Proof.
  revert c. induction l as [|gr l IH]; intros c Hall; simpl.
  - by destruct c.
  - apply Forall_cons in Hall as [[g Hg] Hall].
    unfold bind, addGroup at 1, groupTuple at 1. rewrite Hg. simpl.
    rewrite IH by done. done.
Qed.

(** The whole of [EditFromJSON] on a well-formed payload whose actors and
    groups resolve. *)
Lemma EditFromJSON_run item perm data na ng c :
  well_formed data perm na ng →
  Forall (λ act, is_Some (GetActor w act)) na →
  Forall (λ gr, is_Some (groupGet w gr)) ng →
  EditFromJSON w item perm data c =
  match stored (adapter c) with
  | None => (Err PolicyLoadError, c)
  | Some s =>
      let s' := reconciled w item perm na ng s in
      if writable (adapter c)
      then (Ok (), mkChecker (org c) s' (mkAdapter (Some s') true))
      else (Err PolicySaveError, mkChecker (org c) s' (adapter c))
  end.
Proof.
  intros (m & aclEdit & -> & Hperm & Hact & Hgrp) Hna Hng.
  unfold EditFromJSON. rewrite Hperm.
  unfold bind at 1, LoadPolicy.
  destruct (stored (adapter c)) as [s|] eqn:Hs; [|done].
  unfold bind at 1, GetFilteredPolicy at 1. cbn [e]. rewrite Hact, Hgrp.
  unfold bind at 1. rewrite asStrings_run.
  unfold bind at 1. rewrite asStrings_run.
  unfold bind at 1.
  rewrite (forEach_run _ (λ p s0, if unwanted item perm na ng p
                                  then (RuleStore.RemovePolicy s0 p).2 else s0))
    by (intros; apply dropUnwanted_run).
  unfold bind at 1. rewrite addActors_run by done.
  unfold with_e. cbn [e org adapter].
  unfold reconciled, SavePolicy. fold (dropAll item perm na ng).
  set (s1 := dropAll item perm na ng _ s).
  set (s2 := addAll _ s1).
  destruct ng as [|gr ng'].
  - cbn [omap list_omap addAll fold_left].
    destruct (bool_decide (ContainerKind item = "groups"));
      cbv [bind AddPolicy ret]; cbn [e org adapter fst snd];
      by destruct (writable (adapter c)).
  - unfold bind at 1. unfold bind at 1. rewrite addGroups_run by done.
    unfold with_e. cbn [e org adapter].
    destruct (bool_decide (ContainerKind item = "groups"));
      cbv [bind RemovePolicy ret]; cbn [e org adapter fst snd];
      by destruct (writable (adapter c)).
Qed.

Lemma elem_of_dropAll item perm na ng l s t :
  t ∈ policy (dropAll item perm na ng l s) ↔
  t ∈ policy s ∧ ¬ (t ∈ l ∧ unwanted item perm na ng t = true).
Proof.
  unfold dropAll. revert s. induction l as [|p l IH]; intros s; cbn [fold_left].
  - split; [|tauto]. intros Ht. split; [done|]. intros [Hnil _].
    by apply elem_of_nil in Hnil.
  - rewrite IH. rewrite elem_of_cons.
    destruct (unwanted item perm na ng p) eqn:Hp.
    + rewrite elem_of_RemovePolicy. split.
      * intros [[Ht Hne] Hl]. split; [done|]. intros [[->|Hin] Hu]; tauto.
      * intros [Ht Hn]. split_and!; [done| |tauto].
        intros ->. apply Hn. tauto.
    + split.
      * intros [Ht Hl]. split; [done|]. intros [[->|Hin] Hu]; [congruence|tauto].
      * intros [Ht Hn]. split; [done|]. tauto.
Qed.

Lemma elem_of_addAll ts s t :
  t ∈ policy (addAll ts s) ↔ t ∈ policy s ∨ t ∈ ts.
Proof.
  unfold addAll. revert s. induction ts as [|x ts IH]; intros s; cbn [fold_left].
  - rewrite elem_of_nil. tauto.
  - rewrite IH, elem_of_AddPolicy, elem_of_cons. tauto.
Qed.

Lemma grouping_dropAll item perm na ng l s :
  grouping (dropAll item perm na ng l s) = grouping s.
Proof.
  unfold dropAll. revert s. induction l as [|p l IH]; intros s; cbn [fold_left];
    [done|].
  rewrite IH. by destruct (unwanted item perm na ng p).
Qed.

Lemma grouping_addAll ts s : grouping (addAll ts s) = grouping s.
Proof.
  unfold addAll. revert s. induction ts as [|x ts IH]; intros s; cbn [fold_left];
    [done|].
  by rewrite IH, grouping_AddPolicy.
Qed.

Lemma grouping_reconciled item perm na ng s :
  grouping (reconciled w item perm na ng s) = grouping s.
Proof.
  unfold reconciled.
  destruct (bool_decide (ContainerKind item = "groups")); [destruct ng|];
    rewrite ?grouping_AddPolicy, ?grouping_RemovePolicy, !grouping_addAll;
    apply grouping_dropAll.
Qed.

(** Which tuples the reconciled rule set holds. *)
Lemma elem_of_reconciled item perm na ng s t :
  t ∈ policy (reconciled w item perm na ng s) ↔
  let kept := (t ∈ policy s ∧ ¬ dropped item perm na ng t) ∨
              t ∈ omap (actorTuple w item perm) na ∨
              t ∈ omap (groupTuple w item perm) ng in
  if bool_decide (ContainerKind item = "groups") then
    match ng with
    | [] => kept ∨ t = buildDenySlice item perm
    | _ :: _ => kept ∧ t ≠ buildDenySlice item perm
    end
  else kept.
Proof.
  assert (t ∈ policy (addAll (omap (groupTuple w item perm) ng)
                        (addAll (omap (actorTuple w item perm) na)
                           (dropAll item perm na ng
                              (RuleStore.GetFilteredPolicy s condNamePos
                                 (GetName item)) s))) ↔
          (t ∈ policy s ∧ ¬ dropped item perm na ng t) ∨
          t ∈ omap (actorTuple w item perm) na ∨
          t ∈ omap (groupTuple w item perm) ng) as Hkept.
  { rewrite !elem_of_addAll, elem_of_dropAll, elem_of_GetFilteredPolicy.
    unfold dropped. simpl. tauto. }
  unfold reconciled. cbv zeta.
  destruct (bool_decide (ContainerKind item = "groups")); [|done].
  destruct ng as [|gr ng'].
  - by rewrite elem_of_AddPolicy, Hkept.
  - by rewrite elem_of_RemovePolicy, Hkept.
Qed.

#[local] Instance dropped_dec item perm na ng t :
  Decision (dropped item perm na ng t).
Proof. unfold dropped. apply _. Defined.

(** Reconciling a reconciled rule set changes no tuple. *)
Lemma reconciled_idempotent item perm na ng s :
  same_rules (reconciled w item perm na ng (reconciled w item perm na ng s))
             (reconciled w item perm na ng s).
Proof.
  split; [|by rewrite grouping_reconciled].
  intros t.
  pose proof (elem_of_reconciled item perm na ng s t) as Hone.
  pose proof (elem_of_reconciled item perm na ng
                (reconciled w item perm na ng s) t) as Htwo.
  cbv zeta in Hone, Htwo.
  destruct (decide (dropped item perm na ng t)) as [Hd|Hd];
    destruct (decide (t = buildDenySlice item perm)) as [Ht|Ht];
    destruct (bool_decide (ContainerKind item = "groups"));
    destruct ng; tauto.
Qed.

Lemma same_rules_refl s : same_rules s s.
Proof. by split. Qed.

Lemma same_state_refl c : same_state c c.
Proof.
  unfold same_state. split_and!; try done; try apply same_rules_refl.
  destruct (stored (adapter c)); [apply same_rules_refl|done].
Qed.

(** C5. On a well-formed payload whose actors and groups all resolve, a
    second [EditFromJSON] right after the first returns what the first
    returned and leaves the same tuples and membership edges, in memory
    and in the policy file. *)
Theorem EditFromJSON_idempotent item perm data na ng c :
  well_formed data perm na ng →
  Forall (λ act, is_Some (GetActor w act)) na →
  Forall (λ gr, is_Some (groupGet w gr)) ng →
  let once := EditFromJSON w item perm data c in
  let twice := EditFromJSON w item perm data once.2 in
  twice.1 = once.1 ∧ same_state twice.2 once.2.
Proof.
  intros Hwf Hna Hng. cbv zeta.
  rewrite (EditFromJSON_run item perm data na ng c Hwf Hna Hng).
  destruct (stored (adapter c)) as [s|] eqn:Hs.
  - cbv zeta. destruct (writable (adapter c)) eqn:Hw.
    + cbn [fst snd].
      rewrite (EditFromJSON_run item perm data na ng _ Hwf Hna Hng).
      cbn [stored adapter writable org fst snd].
      split; [done|]. split_and!; try done.
      all: apply reconciled_idempotent.
    + cbn [fst snd].
      rewrite (EditFromJSON_run item perm data na ng _ Hwf Hna Hng).
      cbn [stored adapter writable org fst snd]. rewrite Hs, Hw.
      split; [done|]. apply same_state_refl.
  - cbn [fst snd].
    rewrite (EditFromJSON_run item perm data na ng c Hwf Hna Hng), Hs.
    split; [done|]. apply same_state_refl.
Qed.

Lemma addActors_unresolved item perm l c :
  ¬ Forall (λ act, is_Some (GetActor w act)) l →
  (forEach l (addActor w item perm) c).1 = Err BadRequest.
Proof.
  revert c. induction l as [|act l IH]; intros c Hall.
  - destruct Hall. constructor.
  - cbn [forEach]. unfold addActor at 1.
    destruct (GetActor w act) as [a|] eqn:Ha; [|done].
    cbv [bind AddPolicy ret].
    assert (¬ Forall (λ x, is_Some (GetActor w x)) l) as Hl.
    { intros Hl. apply Hall. constructor; [by rewrite Ha|done]. }
    specialize (IH (mkChecker (org c)
                      (RuleStore.AddPolicy (e c) (buildEnforcingSlice item a perm)).2
                      (adapter c)) Hl).
    by destruct (forEach l _ _) as [[[]| |] c2].
Qed.

Lemma addGroups_unresolved item perm l c :
  ¬ Forall (λ gr, is_Some (groupGet w gr)) l →
  (forEach l (addGroup w item perm) c).1 = Err BadRequest.
Proof.
  revert c. induction l as [|gr l IH]; intros c Hall.
  - destruct Hall. constructor.
  - cbn [forEach]. unfold addGroup at 1.
    destruct (groupGet w gr) as [g|] eqn:Hg; [|done].
    cbv [bind AddPolicy ret].
    assert (¬ Forall (λ x, is_Some (groupGet w x)) l) as Hl.
    { intros Hl. apply Hall. constructor; [by rewrite Hg|done]. }
    specialize (IH (mkChecker (org c)
                      (RuleStore.AddPolicy (e c) (buildEnforcingSlice item g perm)).2
                      (adapter c)) Hl).
    by destruct (forEach l _ _) as [[[]| |] c2].
Qed.

(** A wanted actor or group that does not resolve makes the call fail. *)
Lemma EditFromJSON_unresolved item perm data na ng c :
  well_formed data perm na ng →
  ¬ (Forall (λ act, is_Some (GetActor w act)) na ∧
     Forall (λ gr, is_Some (groupGet w gr)) ng) →
  (EditFromJSON w item perm data c).1 ≠ Ok ().
Proof.
  intros (m & aclEdit & -> & Hperm & Hact & Hgrp) Hres.
  unfold EditFromJSON. rewrite Hperm.
  unfold bind at 1, LoadPolicy.
  destruct (stored (adapter c)) as [s|] eqn:Hs; [|done].
  unfold bind at 1, GetFilteredPolicy at 1. cbn [e]. rewrite Hact, Hgrp.
  unfold bind at 1. rewrite asStrings_run.
  unfold bind at 1. rewrite asStrings_run.
  unfold bind at 1.
  rewrite (forEach_run _ (λ p s0, if unwanted item perm na ng p
                                  then (RuleStore.RemovePolicy s0 p).2 else s0))
    by (intros; apply dropUnwanted_run).
  unfold bind at 1.
  destruct (decide (Forall (λ act, is_Some (GetActor w act)) na)) as [Hna|Hna].
  - rewrite addActors_run by done.
    assert (¬ Forall (λ gr, is_Some (groupGet w gr)) ng) as Hng by tauto.
    destruct ng as [|gr ng']; [destruct Hng; constructor|].
    unfold bind at 1. unfold bind at 1.
    pose proof (addGroups_unresolved item perm (gr :: ng')
                  (with_e (with_e (mkChecker (org c) s (adapter c))
                     (fold_left (λ s0 x, if unwanted item perm na (gr :: ng') x
                                         then (RuleStore.RemovePolicy s0 x).2
                                         else s0)
                        (RuleStore.GetFilteredPolicy s condNamePos (GetName item)) s))
                     (addAll (omap (actorTuple w item perm) na)
                        (e (with_e (mkChecker (org c) s (adapter c))
                             (fold_left (λ s0 x,
                                  if unwanted item perm na (gr :: ng') x
                                  then (RuleStore.RemovePolicy s0 x).2 else s0)
                                (RuleStore.GetFilteredPolicy s condNamePos
                                   (GetName item)) s)))))
                  Hng) as Hfail.
    destruct (forEach (gr :: ng') _ _) as [[| |] c2]; cbn [fst] in Hfail;
      try discriminate Hfail. done.
  - pose proof (addActors_unresolved item perm na
                  (with_e (mkChecker (org c) s (adapter c))
                     (fold_left (λ s0 x, if unwanted item perm na ng x
                                         then (RuleStore.RemovePolicy s0 x).2
                                         else s0)
                        (RuleStore.GetFilteredPolicy s condNamePos (GetName item))
                        (e (mkChecker (org c) s (adapter c)))))
                  Hna) as Hfail.
    destruct (forEach na _ _) as [[| |] c2]; cbn [fst] in Hfail;
      try discriminate Hfail. done.
Qed.

Lemma groupGet_name gr g : groupGet w gr = Some g → groupName g = gr.
Proof.
  unfold groupGet. intros [_ Hg]%find_some.
  by apply bool_decide_eq_true in Hg.
Qed.

(** C6. After a successful [EditFromJSON] on a group item the saved rule
    set is the one in memory, and: with wanted groups, it lacks the
    [denyall##groups] tuple of the item and permission and holds a
    [role##<group>] allow tuple for each wanted group; with no wanted
    group, it holds the [denyall##groups] tuple. *)
Theorem EditFromJSON_group_sentinel item perm data na ng c c' :
  ContainerKind item = "groups" →
  well_formed data perm na ng →
  EditFromJSON w item perm data c = (Ok (), c') →
  stored (adapter c') = Some (e c') ∧
  match ng with
  | [] => buildDenySlice item perm ∈ policy (e c')
  | _ :: _ =>
      (buildDenySlice item perm ∉ policy (e c')) ∧
      ∀ gr, gr ∈ ng →
            mkTuple ("role##" +:+ gr) (ContainerType item) (ContainerKind item)
                    (GetName item) perm "allow" ∈ policy (e c')
  end.
Proof.
  intros Hk Hwf Hrun.
  destruct (decide (Forall (λ act, is_Some (GetActor w act)) na ∧
                    Forall (λ gr, is_Some (groupGet w gr)) ng)) as [[Hna Hng]|Hres].
  2: { apply (EditFromJSON_unresolved item perm data na ng c Hwf) in Hres.
       by rewrite Hrun in Hres. }
  rewrite (EditFromJSON_run item perm data na ng c Hwf Hna Hng) in Hrun.
  destruct (stored (adapter c)) as [s|]; [|discriminate Hrun].
  cbv zeta in Hrun. destruct (writable (adapter c)); [|discriminate Hrun].
  injection Hrun as <-. cbn [stored adapter e]. split; [done|].
  pose proof (λ t, elem_of_reconciled item perm na ng s t) as Hin.
  cbv zeta in Hin. rewrite (bool_decide_eq_true_2 _ Hk) in Hin.
  destruct ng as [|gr0 ng'].
  - apply Hin. by right.
  - split.
    + intros Hd. apply Hin in Hd as [_ Hd]. done.
    + intros gr Hgr. apply Hin. split; [|done].
      right. right. apply list_elem_of_omap. exists gr. split; [done|].
      rewrite Forall_forall in Hng. destruct (Hng gr Hgr) as [g Hg].
      unfold groupTuple. rewrite Hg. simpl.
      apply groupGet_name in Hg as <-. done.
Qed.

(** A payload that is no object, lacks the permission key, or holds no
    object under it is rejected at once; the checker is untouched. *)
Lemma EditFromJSON_malformed_outer item perm data c :
  match data with
  | JObject m => match m !! perm with Some (JObject _) => False | _ => True end
  | _ => True
  end →
  EditFromJSON w item perm data c = (Err MalformedACLPayload, c).
Proof.
  destruct data as [| | | | |m]; try done. simpl.
  by destruct (m !! perm) as [[| | | | |]|].
Qed.

(** An actors or groups field that is no list is rejected after the
    policy has been read; nothing is added, removed or saved. *)
Lemma EditFromJSON_malformed_inner item perm m aclEdit c s :
  m !! perm = Some (JObject aclEdit) →
  stored (adapter c) = Some s →
  match aclEdit !! "actors", aclEdit !! "groups" with
  | Some (JArray _), Some (JArray _) => False
  | _, _ => True
  end →
  EditFromJSON w item perm (JObject m) c =
  (Err MalformedACLPayload, mkChecker (org c) s (adapter c)).
Proof.
  intros Hperm Hs Hbad. unfold EditFromJSON. rewrite Hperm.
  cbv [bind LoadPolicy GetFilteredPolicy]. rewrite Hs.
  destruct (aclEdit !! "actors") as [[| | | |la|]|]; try done.
  by destruct (aclEdit !! "groups") as [[| | | | |]|].
Qed.

Lemma asStrings_non_string l c :
  Exists (λ v, ∀ s, v ≠ JString s) l → asStrings l c = (Panic, c).
Proof.
  induction l as [|v l IH]; intros Hex.
  - by apply Exists_nil in Hex.
  - destruct v as [| | |s| |]; try done. simpl. unfold bind.
    rewrite IH; [done|].
    apply Exists_cons in Hex as [Hv|Hl]; [|done]. by destruct (Hv s).
Qed.

(** A list of actors with an element that is no string makes the call
    panic, once the policy has been read; nothing is added, removed or
    saved. *)
Lemma EditFromJSON_non_string_actor item perm m aclEdit la lg c s :
  m !! perm = Some (JObject aclEdit) →
  stored (adapter c) = Some s →
  aclEdit !! "actors" = Some (JArray la) →
  aclEdit !! "groups" = Some (JArray lg) →
  Exists (λ v, ∀ s, v ≠ JString s) la →
  EditFromJSON w item perm (JObject m) c =
  (Panic, mkChecker (org c) s (adapter c)).
Proof.
  intros Hperm Hs Hla Hlg Hex. unfold EditFromJSON. rewrite Hperm.
  cbv [bind LoadPolicy GetFilteredPolicy]. rewrite Hs, Hla, Hlg.
  by rewrite asStrings_non_string.
Qed.

End ReconcileFacts.

Section ReconcileClaims.

Lemma payload_ops_well_formed : well_formed payload_ops "update" ["alice"] ["ops"].
Proof.
  eexists _, _. split_and!; [reflexivity| | |]; vm_compute; reflexivity.
Qed.

Lemma EditFromJSON_idempotent_witness :
  let once := EditFromJSON acme_world admins "update" payload_ops
                (checker_on store_denyall) in
  let twice := EditFromJSON acme_world admins "update" payload_ops once.2 in
  twice.1 = once.1 ∧ same_state twice.2 once.2.
Proof.
  apply (EditFromJSON_idempotent acme_world admins "update" payload_ops
           ["alice"] ["ops"] (checker_on store_denyall)).
  - apply payload_ops_well_formed.
  - repeat constructor. vm_compute. eauto.
  - repeat constructor. vm_compute. eauto.
Defined.

(** The last scenario of section 8: the sentinel goes, [role##ops] comes. *)
Lemma EditFromJSON_group_sentinel_witness :
  let c' := (EditFromJSON acme_world admins "update" payload_ops
               (checker_on store_denyall)).2 in
  stored (adapter c') = Some (e c') ∧
  (buildDenySlice admins "update" ∉ policy (e c')) ∧
  ∀ gr, gr ∈ ["ops"] →
        mkTuple ("role##" +:+ gr) "groups" "groups" "admins" "update" "allow"
          ∈ policy (e c').
Proof.
  apply (EditFromJSON_group_sentinel acme_world admins "update" payload_ops
           ["alice"] ["ops"] (checker_on store_denyall)).
  - reflexivity.
  - apply payload_ops_well_formed.
  - vm_compute. reflexivity.
Defined.

Example EditFromJSON_ops_result :
  policy (e (EditFromJSON acme_world admins "update" payload_ops
               (checker_on store_denyall)).2) =
  [mkTuple "alice" "groups" "groups" "$$default$$" "update" "allow";
   mkTuple "alice" "groups" "groups" "admins" "update" "allow";
   mkTuple "role##ops" "groups" "groups" "admins" "update" "allow"].
Proof. vm_compute. reflexivity. Qed.

(** C7 fails on the code: a number among the wanted actors is met by the
    unchecked assertion [v.(string)], and the call panics where the claim
    promises a structural-validation error. *)
Theorem EditFromJSON_number_actor_panics :
  (EditFromJSON acme_world admins "update" payload_number
     (checker_on store_denyall)).1 = Panic.
Proof. vm_compute. reflexivity. Qed.

End ReconcileClaims.

(** ** Renaming *)

Section RenameFacts.
Import RuleStoreFacts.

Lemma elem_of_olds k ty old s t :
  t ∈ filter (λ p, condKind p = k ∧ condSubkind p = ty)
        (RuleStore.GetFilteredPolicy s condNamePos old) ↔
  t ∈ policy s ∧ is_item k ty old t.
Proof.
  rewrite list_elem_of_filter, elem_of_GetFilteredPolicy.
  unfold is_item. simpl. tauto.
Qed.

Lemma elem_of_remove_each l s t :
  t ∈ policy (fold_left (λ s p, (RuleStore.RemovePolicy s p).2) l s) ↔
  t ∈ policy s ∧ t ∉ l.
Proof.
  revert s. induction l as [|p l IH]; intros s; cbn [fold_left].
  - rewrite elem_of_nil. tauto.
  - rewrite IH, elem_of_RemovePolicy, elem_of_cons. tauto.
Qed.

Lemma elem_of_add_each (f : Tuple → Tuple) l s t :
  t ∈ policy (fold_left (λ s p, (RuleStore.AddPolicy s (f p)).2) l s) ↔
  t ∈ policy s ∨ ∃ p, p ∈ l ∧ t = f p.
Proof.
  revert s. induction l as [|p l IH]; intros s; cbn [fold_left].
  - split; [by left|]. intros [?|(p & Hp & _)]; [done|].
    by apply elem_of_nil in Hp.
  - rewrite IH, elem_of_AddPolicy. split.
    + intros [[?| ->]|(q & Hq & ->)]; [by left| |].
      * right. exists p. split; [left|done].
      * right. exists q. split; [by right|done].
    + intros [?|(q & Hq & ->)]; [by left; left|].
      apply elem_of_cons in Hq as [->|Hq]; [by left; right|].
      right. by exists q.
Qed.

Lemma grouping_remove_each l s :
  grouping (fold_left (λ s p, (RuleStore.RemovePolicy s p).2) l s) = grouping s.
Proof.
  revert s. induction l as [|p l IH]; intros s; cbn [fold_left]; [done|].
  by rewrite IH.
Qed.

Lemma grouping_add_each (f : Tuple → Tuple) l s :
  grouping (fold_left (λ s p, (RuleStore.AddPolicy s (f p)).2) l s) = grouping s.
Proof.
  revert s. induction l as [|p l IH]; intros s; cbn [fold_left]; [done|].
  by rewrite IH, grouping_AddPolicy.
Qed.

(** Which tuples a rename leaves. *)
Lemma elem_of_renamed k ty old new s t :
  t ∈ policy (renamed k ty old new s) ↔
  (t ∈ policy s ∨ ∃ p, p ∈ policy s ∧ is_item k ty old p ∧ t = setName new p) ∧
  ¬ (t ∈ policy s ∧ is_item k ty old t).
Proof.
  unfold renamed. cbv zeta.
  rewrite elem_of_remove_each, elem_of_add_each, elem_of_olds.
  split; intros [Hin Hout]; (split; [|done]).
  - destruct Hin as [?|(p & Hp & ->)]; [by left|].
    apply elem_of_olds in Hp as [? ?]. right. by exists p.
  - destruct Hin as [?|(p & Hp & Hi & ->)]; [by left|].
    right. exists p. split; [|done]. by apply elem_of_olds.
Qed.

Lemma grouping_renamed k ty old new s :
  grouping (renamed k ty old new s) = grouping s.
Proof. unfold renamed. cbv zeta. by rewrite grouping_remove_each, grouping_add_each. Qed.

(** The whole of [RenameItemACL] once the policy file has been read. *)
Lemma RenameItemACL_run item old c s :
  stored (adapter c) = Some s →
  let olds := filter (λ p, condKind p = ContainerKind item ∧
                           condSubkind p = ContainerType item)
                (RuleStore.GetFilteredPolicy s condNamePos old) in
  let s' := renamed (ContainerKind item) (ContainerType item) old (GetName item) s in
  RenameItemACL item old c =
  match olds with
  | [] => (Ok (), mkChecker (org c) s (adapter c))
  | _ :: _ =>
      if writable (adapter c)
      then (Ok (), mkChecker (org c) s' (mkAdapter (Some s') true))
      else (Err PolicySaveError, mkChecker (org c) s' (adapter c))
  end.
Proof.
  intros Hs. cbv zeta. unfold RenameItemACL.
  unfold bind at 1, LoadPolicy at 1. rewrite Hs.
  unfold bind at 1, GetItemPolicies, LoadPolicy. cbn [adapter]. rewrite Hs.
  cbn [snd e org adapter].
  set (olds := filter _ (RuleStore.GetFilteredPolicy s condNamePos old)).
  assert (renamed (ContainerKind item) (ContainerType item) old (GetName item) s
          = fold_left (λ s p, (RuleStore.RemovePolicy s p).2) olds
              (fold_left (λ s p, (RuleStore.AddPolicy s (setName (GetName item) p)).2)
                 olds s)) as -> by done.
  destruct olds as [|p0 olds'] eqn:Holds; [done|]. rewrite <- Holds. clear Holds.
  unfold bind at 1.
  rewrite (forEach_run _ (λ p s0, (RuleStore.AddPolicy s0 (setName (GetName item) p)).2))
    by done.
  unfold bind at 1.
  rewrite (forEach_run _ (λ p s0, (RuleStore.RemovePolicy s0 p).2)) by done.
  unfold with_e, SavePolicy. cbn [e org adapter].
  by destruct (writable (adapter c)).
Qed.

(** Renaming back undoes a rename into a name that was free. *)
Lemma renamed_round_trip k ty old new s :
  (∀ t, t ∈ policy s → ¬ is_item k ty new t) →
  same_rules (renamed k ty new old (renamed k ty old new s)) s.
Proof.
  intros Hfresh. split; [|by rewrite !grouping_renamed].
  intros t. rewrite elem_of_renamed. split.
  - intros [[Hin|(p & Hp & Hnew & ->)] Hout].
    + apply elem_of_renamed in Hin as [[?|(q & Hq & Hold & ->)] _]; [done|].
      destruct Hout. split.
      * apply elem_of_renamed. split; [right; by exists q|].
        intros [Hq' _]. by apply (Hfresh _ Hq'); destruct Hold as (? & ? & ?).
      * by destruct Hold as (? & ? & ?).
    + apply elem_of_renamed in Hp as [[Hp|(q & Hq & Hold & ->)] _].
      * by destruct (Hfresh _ Hp).
      * destruct q, Hold as (Hn & ? & ?). simpl in *. by subst.
  - intros Ht. pose proof (Hfresh _ Ht) as Hnn.
    destruct (decide (is_item k ty old t)) as [Hold|Hold].
    + assert (old ≠ new) as Hne.
      { intros <-. done. }
      split.
      * right. exists (setName new t). split_and!.
        -- apply elem_of_renamed. split; [right; by exists t|].
           intros [_ (Hn & _)]. simpl in Hn. done.
        -- by destruct Hold as (? & ? & ?).
        -- destruct t, Hold as (Hn & ? & ?). simpl in *. by subst.
      * intros [_ ?]. done.
    + split.
      * left. apply elem_of_renamed. split; [by left|]. tauto.
      * intros [_ ?]. done.
Qed.

Lemma RenameItemACL_stored item old c s :
  stored (adapter c) = Some s →
  let c' := (RenameItemACL item old c).2 in
  writable (adapter c') = writable (adapter c) ∧
  stored (adapter c') =
    Some (if writable (adapter c)
          then renamed (ContainerKind item) (ContainerType item) old (GetName item) s
          else s).
Proof.
  intros Hs. cbv zeta. rewrite (RenameItemACL_run item old c s Hs). cbv zeta.
  unfold renamed. cbv zeta.
  destruct (filter _ (RuleStore.GetFilteredPolicy s condNamePos old)) as [|p0 olds'].
  - cbn [snd adapter fold_left]. split; [done|]. rewrite Hs.
    by destruct (writable (adapter c)).
  - destruct (writable (adapter c)) eqn:Hw; cbn [snd adapter stored writable];
      [done|]. by rewrite Hw, Hs.
Qed.

(** C8, as the specification words it, fails when the new name already
    has tuples of the same kind and type: renaming node1 to node2 and
    back hands node1 the grant that was node2's. *)
Lemma RenameItemACL_round_trip_counterexample :
  ¬ (∀ k ty old new c s,
       stored (adapter c) = Some s →
       let c1 := (RenameItemACL (mkItem k ty new) old c).2 in
       let c2 := (RenameItemACL (mkItem k ty old) new c1).2 in
       ∃ s2, stored (adapter c2) = Some s2 ∧
             ∀ t, is_item k ty old t → (t ∈ policy s2 ↔ t ∈ policy s)).
Proof.
  intros Hclaim.
  destruct (Hclaim "containers" "nodes" "node1" "node2"
              (checker_on store_node2) store_node2 eq_refl)
    as (s2 & Hs2 & Hsame).
  vm_compute in Hs2. injection Hs2 as <-.
  specialize (Hsame (mkTuple "bob" "nodes" "containers" "node1" "read" "allow")).
  destruct Hsame as [Hback _]; [done|].
  assert (mkTuple "bob" "nodes" "containers" "node1" "read" "allow"
            ∈ policy store_node2) as Habs by (apply Hback; left).
  apply elem_of_cons in Habs as [Habs|Habs]; [discriminate Habs|].
  by apply elem_of_nil in Habs.
Qed.

(** C8, amended.  When the rule set holds no tuple of the item's kind and
    type under the new name, renaming an item's tuples from [old] to
    [new] and, right after, from [new] back to [old] leaves the policy
    file with the original tuples and membership edges; in particular the
    tuple set of [old] is the original one. *)
Theorem RenameItemACL_round_trip k ty old new c s :
  stored (adapter c) = Some s →
  (∀ t, t ∈ policy s → ¬ is_item k ty new t) →
  let c1 := (RenameItemACL (mkItem k ty new) old c).2 in
  let c2 := (RenameItemACL (mkItem k ty old) new c1).2 in
  ∃ s2, stored (adapter c2) = Some s2 ∧ same_rules s2 s ∧
        ∀ t, is_item k ty old t → (t ∈ policy s2 ↔ t ∈ policy s).
Proof.
  intros Hs Hfresh. cbv zeta.
  destruct (RenameItemACL_stored (mkItem k ty new) old c s Hs) as [Hw1 Hs1].
  cbv zeta in Hw1, Hs1.
  destruct (RenameItemACL_stored (mkItem k ty old) new _ _ Hs1) as [_ Hs2].
  cbv zeta in Hs2. rewrite Hw1 in Hs2.
  eexists. split; [exact Hs2|].
  assert (same_rules
            (if writable (adapter c)
             then renamed (ContainerKind (mkItem k ty old))
                    (ContainerType (mkItem k ty old)) new
                    (GetName (mkItem k ty old))
                    (if writable (adapter c)
                     then renamed (ContainerKind (mkItem k ty new))
                            (ContainerType (mkItem k ty new)) old
                            (GetName (mkItem k ty new)) s
                     else s)
             else if writable (adapter c)
                  then renamed (ContainerKind (mkItem k ty new))
                         (ContainerType (mkItem k ty new)) old
                         (GetName (mkItem k ty new)) s
                  else s) s) as Hsame.
  { destruct (writable (adapter c)); [|by split].
    by apply renamed_round_trip. }
  split; [done|]. intros t _. apply Hsame.
Qed.

Lemma RenameItemACL_round_trip_witness :
  let c1 := (RenameItemACL (mkItem "containers" "nodes" "node2") "node1"
               (checker_on store_node1)).2 in
  let c2 := (RenameItemACL (mkItem "containers" "nodes" "node1") "node2" c1).2 in
  ∃ s2, stored (adapter c2) = Some s2 ∧ same_rules s2 store_node1 ∧
        ∀ t, is_item "containers" "nodes" "node1" t →
             (t ∈ policy s2 ↔ t ∈ policy store_node1).
Proof.
  apply (RenameItemACL_round_trip "containers" "nodes" "node1" "node2"
           (checker_on store_node1) store_node1).
  - reflexivity.
  - intros t Ht (Hn & _). vm_compute in Ht.
    repeat (apply elem_of_cons in Ht as [->|Ht]; [discriminate Hn|]).
    by apply elem_of_nil in Ht.
Defined.

(** The round trip on that rule set, step by step: the grant on node1
    moves to node2 and back, behind the untouched default. *)
Example RenameItemACL_there_and_back :
  let c1 := (RenameItemACL (mkItem "containers" "nodes" "node2") "node1"
               (checker_on store_node1)).2 in
  let c2 := (RenameItemACL (mkItem "containers" "nodes" "node1") "node2" c1).2 in
  policy (e c1) =
    [mkTuple "alice" "nodes" "containers" "$$default$$" "read" "allow";
     mkTuple "alice" "nodes" "containers" "node2" "read" "allow"] ∧
  policy (e c2) =
    [mkTuple "alice" "nodes" "containers" "$$default$$" "read" "allow";
     mkTuple "alice" "nodes" "containers" "node1" "read" "allow"].
Proof. vm_compute. split; reflexivity. Qed.

End RenameFacts.

(** ** What a call does to the policy file *)

Section Frames.

Lemma reads_only_ret {A} (a : A) : reads_only (ret a).
Proof. by intros c. Qed.

Lemma reads_only_fail {A} err : reads_only (@fail A err).
Proof. by intros c. Qed.

Lemma reads_only_panic {A} : reads_only (@panic A).
Proof. by intros c. Qed.

Lemma reads_only_bind {A B} (m : Op A) (k : A → Op B) :
  reads_only m → (∀ a, reads_only (k a)) → reads_only (bind m k).
Proof.
  intros Hm Hk c. unfold bind. destruct (Hm c) as [Ho Ha].
  destruct (m c) as [[a| |] c1]; simpl in *; [|done..].
  destruct (Hk a c1) as [Ho' Ha']. split; congruence.
Qed.

Lemma reads_only_LoadPolicy : reads_only LoadPolicy.
Proof. intros c. unfold LoadPolicy. by destruct (stored (adapter c)). Qed.

Lemma reads_only_Enforce t : reads_only (Enforce t).
Proof. by intros c. Qed.

Lemma reads_only_GetFilteredPolicy i v : reads_only (GetFilteredPolicy i v).
Proof. by intros c. Qed.

Lemma reads_only_AddPolicy t : reads_only (AddPolicy t).
Proof. by intros c. Qed.

Lemma reads_only_RemovePolicy t : reads_only (RemovePolicy t).
Proof. by intros c. Qed.

Lemma reads_only_RemovePolicySafe t : reads_only (RemovePolicySafe t).
Proof. by intros c. Qed.

Lemma reads_only_AddRoleForUser u r : reads_only (AddRoleForUser u r).
Proof. by intros c. Qed.

Lemma reads_only_DeleteRoleForUser u r : reads_only (DeleteRoleForUser u r).
Proof. by intros c. Qed.

Lemma reads_only_DeleteRolesForUser u : reads_only (DeleteRolesForUser u).
Proof. by intros c. Qed.

Lemma reads_only_GetPermissionsForUser u : reads_only (GetPermissionsForUser u).
Proof. by intros c. Qed.

Lemma reads_only_GetItemPolicies n k ty : reads_only (GetItemPolicies n k ty).
Proof.
  intros c. unfold GetItemPolicies. cbn [snd].
  apply reads_only_LoadPolicy.
Qed.

Lemma reads_only_forEach {A} (l : list A) (f : A → Op ()) :
  (∀ x, reads_only (f x)) → reads_only (forEach l f).
Proof.
  intros Hf. induction l as [|x l IH]; simpl.
  - apply reads_only_ret.
  - apply reads_only_bind; [apply Hf|done].
Qed.

Lemma reads_only_asStrings l : reads_only (asStrings l).
Proof.
  induction l as [|v l IH]; simpl; [apply reads_only_ret|].
  destruct v; try apply reads_only_panic.
  apply reads_only_bind; [done|]. intros rest. apply reads_only_ret.
Qed.

Lemma reads_only_removeEach l b : reads_only (removeEach l b).
Proof.
  revert b. induction l as [|p l IH]; intros b; simpl; [apply reads_only_ret|].
  apply reads_only_bind; [apply reads_only_RemovePolicySafe|done].
Qed.

Lemma writes_of_reads {A} (m : Op A) : reads_only m → writes_on_success m.
Proof. intros Hm c. destruct (Hm c). auto. Qed.

Lemma writes_bind {A B} (m : Op A) (k : A → Op B) :
  reads_only m → (∀ a, writes_on_success (k a)) → writes_on_success (bind m k).
Proof.
  intros Hm Hk c. unfold bind. destruct (Hm c) as [Ho Ha].
  destruct (m c) as [[a| |] c1]; simpl in *; [|by auto..].
  destruct (Hk a c1) as [Ho' Ha']. rewrite Ho', Ho, <- Ha. done.
Qed.

Lemma writes_SavePolicy : writes_on_success SavePolicy.
Proof.
  intros c. unfold SavePolicy. destruct (writable (adapter c)); simpl; [|by auto].
  split; [done|]. right. eauto.
Qed.

Lemma writes_then_ret {A B} (m : Op A) (b : B) :
  writes_on_success m → writes_on_success (bind m (λ _, ret b)).
Proof.
  intros Hm c. unfold bind, ret. destruct (Hm c) as [Ho Ha].
  destruct (m c) as [[a| |] c1]; simpl in *; (split; [done|]).
  - destruct Ha as [?|[_ ?]]; [by left|]. right. eauto.
  - destruct Ha as [?|[[? [=]] _]]. by left.
  - destruct Ha as [?|[[? [=]] _]]. by left.
Qed.

End Frames.

Create HintDb frame.

#[local] Hint Resolve reads_only_ret reads_only_fail reads_only_panic
  reads_only_LoadPolicy reads_only_Enforce reads_only_GetFilteredPolicy
  reads_only_AddPolicy reads_only_RemovePolicy reads_only_RemovePolicySafe
  reads_only_AddRoleForUser reads_only_DeleteRoleForUser
  reads_only_DeleteRolesForUser reads_only_GetPermissionsForUser
  reads_only_GetItemPolicies reads_only_asStrings reads_only_removeEach
  writes_SavePolicy : frame.

(** Walks down a call built from [bind], [forEach] and conditionals. *)
Ltac frame_step :=
  first
    [ apply reads_only_bind; [|intros ?]
    | apply reads_only_forEach; intros ?
    | apply writes_bind; [|intros ?]
    | apply writes_then_ret
    | solve [eauto with frame]
    | apply writes_of_reads
    | match goal with
      | |- context [if ?b then _ else _] => destruct b
      | |- context [match ?x with _ => _ end] => destruct x
      end ].

Ltac frame_solve := repeat frame_step.

Section FrameProperties.

Lemma reads_only_testForAnyPol {M} `{Member M} (item : Item) (doer : M) perm :
  reads_only (testForAnyPol item doer perm).
Proof. unfold testForAnyPol. frame_solve. Qed.

Lemma reads_only_isPermValid item perm : reads_only (isPermValid item perm).
Proof. unfold isPermValid. frame_solve. Qed.

(** X1. The evaluation calls never write: whatever they return,
    [CheckItemPerm], [GetItemACL] and [GetItemPolicies] leave the policy
    file and the organization of the checker as they were. *)
Theorem evaluation_reads_only w item doer perm n k ty :
  reads_only (CheckItemPerm w item doer perm) ∧
  reads_only (GetItemACL item) ∧
  reads_only (GetItemPolicies n k ty).
Proof.
  split_and!.
  - unfold CheckItemPerm.
    apply reads_only_bind; [apply reads_only_LoadPolicy|intros _].
    apply reads_only_bind; [apply reads_only_Enforce|intros chk].
    apply reads_only_bind.
    + destruct chk; [apply reads_only_ret|].
      apply reads_only_bind; [apply reads_only_testForAnyPol|intros pinned].
      destruct (negb pinned); [apply reads_only_Enforce|apply reads_only_ret].
    + intros [|]; [apply reads_only_ret|].
      apply reads_only_bind; [apply reads_only_isPermValid|intros valid].
      destruct (negb valid); [apply reads_only_fail|].
      intros c. by destruct (testAssociation w doer (org c)).
  - unfold GetItemACL.
    apply reads_only_bind; [apply reads_only_LoadPolicy|intros _].
    apply reads_only_bind; [apply reads_only_GetFilteredPolicy|intros fi].
    apply reads_only_bind.
    { destruct (bool_decide _); apply reads_only_GetFilteredPolicy. }
    intros ft.
    assert (reads_only
              (bind (if bool_decide (ContainerKind item = "containers") &&
                        bool_decide (ContainerType item = "containers")
                     then ret (Perms (assembleACL item fi itemCompare))
                     else match map_fold overrideStep
                                  (Some (Perms (assembleACL item ft genCompare)))
                                  (Perms (assembleACL item fi itemCompare)) with
                          | Some m => ret m
                          | None => panic
                          end)
                 (λ merged, ret (mkACL (finishItem <$> merged))))) as Hmerge.
    { apply reads_only_bind; [|intros ?; apply reads_only_ret].
      destruct (_ && _); [apply reads_only_ret|].
      destruct (map_fold _ _ _); [apply reads_only_ret|apply reads_only_panic]. }
    destruct fi, ft; try apply Hmerge. apply reads_only_fail.
  - apply reads_only_GetItemPolicies.
Qed.

Lemma reads_only_dropUnwanted item perm na ng p :
  reads_only (dropUnwanted item perm na ng p).
Proof.
  unfold dropUnwanted.
  destruct (_ && _); [|apply reads_only_ret].
  destruct (HasPrefix _ "denyall##"); [apply reads_only_ret|].
  destruct (HasPrefix _ "role##"); (destruct (negb _); [|apply reads_only_ret]);
    (apply reads_only_bind; [apply reads_only_RemovePolicy|intros ?; apply reads_only_ret]).
Qed.

Lemma reads_only_addActor w item perm act : reads_only (addActor w item perm act).
Proof.
  unfold addActor. destruct (GetActor w act); [|apply reads_only_fail].
  apply reads_only_bind; [apply reads_only_AddPolicy|intros ?; apply reads_only_ret].
Qed.

Lemma reads_only_addGroup w item perm gr : reads_only (addGroup w item perm gr).
Proof.
  unfold addGroup. destruct (groupGet w gr); [|apply reads_only_fail].
  apply reads_only_bind; [apply reads_only_AddPolicy|intros ?; apply reads_only_ret].
Qed.


End FrameProperties.

(** ** More on permission evaluation *)

Section CheckItemPermMore.
Import RuleStore RuleStoreFacts.

(** X3. Pinning: when some tuple names the actor on the item, under
    whatever permission, and the specific tuple is not granted,
    [CheckItemPerm] never answers [(true, nil)], even if the general tuple
    is granted; for a defined permission and an associated actor it
    answers [(false, nil)]. *)
Theorem CheckItemPerm_pinned w item doer perm c s :
  stored (adapter c) = Some s →
  pinned_by s item doer →
  ¬ grants s (buildEnforcingSlice item doer perm) →
  (CheckItemPerm w item doer perm c).1 ≠ Ok true ∧
  (perm_defined s item perm → testAssociation w doer (org c) = None →
   (CheckItemPerm w item doer perm c).1 = Ok false).
Proof.
  intros Hs Hpin Hspec. rewrite (CheckItemPerm_run w item doer perm c s Hs).
  apply Enforce_false_spec in Hspec. rewrite Hspec.
  rewrite (bool_decide_eq_true_2 (pinned_by s item doer)) by done.
  cbn [orb negb andb]. split.
  - destruct (bool_decide (perm_defined s item perm)); cbn [negb]; [|done].
    by destruct (testAssociation w doer (org c)).
  - intros Hdef Hassoc.
    rewrite (bool_decide_eq_true_2 (perm_defined s item perm)) by done.
    cbn [negb]. by rewrite Hassoc.
Qed.

Lemma CheckItemPerm_pinned_witness :
  grants store_pinned (general (buildEnforcingSlice node1 alice "update")) ∧
  (CheckItemPerm acme_world node1 alice "update" (checker_on store_pinned)).1
  = Ok false.
Proof.
  split.
  - apply Enforce_spec. vm_compute. reflexivity.
  - apply (CheckItemPerm_pinned acme_world node1 alice "update"
             (checker_on store_pinned) store_pinned).
    + reflexivity.
    + apply (bool_decide_eq_true_1 (pinned_by store_pinned node1 alice)).
      vm_compute. reflexivity.
    + apply Enforce_false_spec. vm_compute. reflexivity.
    + apply (bool_decide_eq_true_1 (perm_defined store_pinned node1 "update")).
      vm_compute. reflexivity.
    + vm_compute. reflexivity.
Defined.

(** X4. A client that is not let through, asking for a permission defined
    for the item's kind and type, gets a clean [(false, nil)] when its
    organization is the checker's and a [NotAssociated] error
    otherwise. *)
Theorem CheckItemPerm_client_association w item doer perm c s :
  stored (adapter c) = Some s →
  IsUser doer = false →
  (CheckItemPerm w item doer perm c).1 ≠ Ok true →
  perm_defined s item perm →
  (CheckItemPerm w item doer perm c).1 =
  if bool_decide (OrgName doer = Name (org c)) then Ok false else Err NotAssociated.
Proof.
  intros Hs Hclient. rewrite (CheckItemPerm_run w item doer perm c s Hs).
  destruct (_ || _); [done|]. intros _ Hdef.
  rewrite (bool_decide_eq_true_2 (perm_defined s item perm)) by done.
  cbn [negb]. unfold testAssociation. rewrite Hclient.
  destruct (decide (OrgName doer = Name (org c))) as [Heq|Hne].
  - rewrite (bool_decide_eq_true_2 _ Heq).
    by rewrite (bool_decide_eq_false_2 (OrgName doer ≠ Name (org c))) by tauto.
  - rewrite (bool_decide_eq_false_2 _ Hne).
    by rewrite (bool_decide_eq_true_2 (OrgName doer ≠ Name (org c))).
Qed.

Lemma CheckItemPerm_client_association_witness :
  (CheckItemPerm acme_world node1 stranger "read" (checker_on store_pinned)).1
  = Err NotAssociated.
Proof.
  apply (CheckItemPerm_client_association acme_world node1 stranger "read"
           (checker_on store_pinned) store_pinned).
  - reflexivity.
  - reflexivity.
  - vm_compute. discriminate.
  - apply (bool_decide_eq_true_1 (perm_defined store_pinned node1 "read")).
    vm_compute. reflexivity.
Defined.

(** X5. [CheckItemPerm] never panics and fails only with a load error,
    [InvalidPermission] or [NotAssociated]; when a database is configured
    it never refuses a user for lack of association. *)
Theorem CheckItemPerm_outcomes w item doer perm c :
  ((∃ b, (CheckItemPerm w item doer perm c).1 = Ok b) ∨
   (CheckItemPerm w item doer perm c).1 = Err PolicyLoadError ∨
   (CheckItemPerm w item doer perm c).1 = Err InvalidPermission ∨
   (CheckItemPerm w item doer perm c).1 = Err NotAssociated) ∧
  (UsingDB w = true → IsUser doer = true →
   (CheckItemPerm w item doer perm c).1 ≠ Err NotAssociated).
Proof.
  destruct (stored (adapter c)) as [s|] eqn:Hs.
  - rewrite (CheckItemPerm_run w item doer perm c s Hs).
    destruct (_ || _); [split; [eauto|done]|].
    destruct (negb _); [split; [auto|done]|].
    unfold testAssociation.
    destruct (IsUser doer), (UsingDB w); cbn [fst].
    + split; [eauto|done].
    + destruct (bool_decide (_ ∈ _)); (split; [eauto|]); by intros [=].
    + destruct (bool_decide (_ ≠ _)); (split; [eauto|]); by intros _ [=].
    + destruct (bool_decide (_ ≠ _)); (split; [eauto|]); by intros [=].
  - assert ((CheckItemPerm w item doer perm c).1 = Err PolicyLoadError) as ->.
    { cbv [CheckItemPerm bind LoadPolicy]. by rewrite Hs. }
    split; [auto|done].
Qed.

(** X6. On a rule set without tuples every check fails with
    [InvalidPermission], whoever asks and whatever the association. *)
Theorem CheckItemPerm_empty_rule_set w item doer perm c g :
  stored (adapter c) = Some (mkEnforcer [] g) →
  (CheckItemPerm w item doer perm c).1 = Err InvalidPermission.
Proof.
  intros Hs. rewrite (CheckItemPerm_run w item doer perm c _ Hs).
  assert (∀ t, RuleStore.Enforce (mkEnforcer [] g) t = false) as Hnone by done.
  rewrite !Hnone.
  rewrite (bool_decide_eq_false_2 (perm_defined (mkEnforcer [] g) item perm)).
  - by rewrite andb_false_r.
  - intros (p & Hp & _). by apply elem_of_nil in Hp.
Qed.

Lemma CheckItemPerm_empty_rule_set_witness :
  (CheckItemPerm acme_world node1 alice "read"
     (checker_on (mkEnforcer [] []))).1 = Err InvalidPermission.
Proof.
  apply (CheckItemPerm_empty_rule_set acme_world node1 alice "read"
           (checker_on (mkEnforcer [] [])) []).
  reflexivity.
Defined.

End CheckItemPermMore.

(** ** Editing single grants *)

Section EditItemPermFacts.
Import RuleStoreFacts.
Context (DefaultACLs : list string).

Lemma checkValidPerm_spec perm :
  checkValidPerm DefaultACLs perm = true ↔ perm ∈ DefaultACLs.
Proof.
  unfold checkValidPerm. rewrite existsb_elem_of. split.
  - intros (p & Hp & Heq). by apply bool_decide_eq_true in Heq as <-.
  - intros Hp. exists perm. split; [done|]. by apply bool_decide_eq_true_2.
Qed.

Lemma reads_only_editOne {M} `{Member M} f item (member : M) p :
  (∀ t, reads_only (f t)) →
  reads_only (editOne DefaultACLs f item member p).
Proof.
  intros Hf. unfold editOne. destruct (negb _); [apply reads_only_fail|].
  apply reads_only_bind; [apply Hf|intros ?; apply reads_only_ret].
Qed.

(** The loop of [EditItemPerm] over permissions that are all valid. *)
Lemma editAll_run {M} `{Member M} (f : Tuple → Op bool)
    (g : Tuple → Enforcer → Enforcer) item (member : M) perms c :
  (∀ t c, ∃ b, f t c = (Ok b, with_e c (g t (e c)))) →
  Forall (λ p, p ∈ DefaultACLs) perms →
  forEach perms (editOne DefaultACLs f item member) c =
  (Ok (), with_e c (fold_left (λ s p, g (buildEnforcingSlice item member p) s)
                      perms (e c))).
Proof.
  intros Hf Hall. apply forEach_run. intros p c0 Hp.
  rewrite Forall_forall in Hall. unfold editOne.
  rewrite (proj2 (checkValidPerm_spec p) (Hall p Hp)). cbn [negb].
  unfold bind. destruct (Hf (buildEnforcingSlice item member p) c0) as [b ->]. done.
Qed.

(** The loop stops with an error at the first permission outside the
    whitelist. *)
Lemma editAll_invalid {M} `{Member M} (f : Tuple → Op bool)
    (g : Tuple → Enforcer → Enforcer) item (member : M) perms c :
  (∀ t c, ∃ b, f t c = (Ok b, with_e c (g t (e c)))) →
  ¬ Forall (λ p, p ∈ DefaultACLs) perms →
  (forEach perms (editOne DefaultACLs f item member) c).1 = Err InvalidEditAction.
Proof.
  intros Hf. revert c. induction perms as [|p perms IH]; intros c Hall.
  - destruct Hall. constructor.
  - cbn [forEach]. unfold bind, editOne at 1.
    destruct (checkValidPerm DefaultACLs p) eqn:Hp; cbn [negb]; [|done].
    unfold bind at 1.
    destruct (Hf (buildEnforcingSlice item member p) c) as [b ->]. cbv [ret].
    assert (¬ Forall (λ p, p ∈ DefaultACLs) perms) as Hrest.
    { intros Hrest. apply Hall. constructor; [|done]. by apply checkValidPerm_spec. }
    specialize (IH (with_e c (g (buildEnforcingSlice item member p) (e c))) Hrest).
    by destruct (forEach perms _ _) as [[[]| |] c2].
Qed.

Lemma AddPolicy_shape t c :
  ∃ b, AddPolicy t c = (Ok b, with_e c ((RuleStore.AddPolicy (e c) t).2)).
Proof. by eexists. Qed.

Lemma RemovePolicy_shape t c :
  ∃ b, RemovePolicy t c = (Ok b, with_e c ((RuleStore.RemovePolicy (e c) t).2)).
Proof. by eexists. Qed.

(** The rule set an edit computes in memory. *)
Lemma EditItemPerm_run {M} `{Member M} item (member : M) perms action c s :
  stored (adapter c) = Some s →
  action = addPerm ∨ action = removePerm →
  perms ≠ [] →
  Forall (λ p, p ∈ DefaultACLs) perms →
  let s' := fold_left
              (λ s p, if bool_decide (action = addPerm)
                      then (RuleStore.AddPolicy s (buildEnforcingSlice item member p)).2
                      else (RuleStore.RemovePolicy s (buildEnforcingSlice item member p)).2)
              perms s in
  EditItemPerm DefaultACLs item member perms action c =
  if writable (adapter c)
  then (Ok (), mkChecker (org c) s' (mkAdapter (Some s') true))
  else (Err PolicySaveError, mkChecker (org c) s' (adapter c)).
Proof.
  intros Hs Hact Hne Hall. cbv zeta. unfold EditItemPerm.
  unfold bind at 1, LoadPolicy. rewrite Hs.
  destruct perms as [|p0 perms']; [done|].
  destruct Hact as [-> | ->].
  - rewrite (bool_decide_eq_true_2 (addPerm = addPerm)) by done.
    unfold bind at 1, ret at 1. unfold bind at 1.
    rewrite (editAll_run AddPolicy (λ t s0, (RuleStore.AddPolicy s0 t).2))
      by (done || apply AddPolicy_shape).
    unfold with_e, SavePolicy. cbn [e org adapter].
    by destruct (writable (adapter c)).
  - rewrite (bool_decide_eq_false_2 (removePerm = addPerm)) by done.
    rewrite (bool_decide_eq_true_2 (removePerm = removePerm)) by done.
    unfold bind at 1, ret at 1. unfold bind at 1.
    rewrite (editAll_run RemovePolicy (λ t s0, (RuleStore.RemovePolicy s0 t).2))
      by (done || apply RemovePolicy_shape).
    unfold with_e, SavePolicy. cbn [e org adapter].
    by destruct (writable (adapter c)).
Qed.

(** What a successful edit tells about its arguments. *)
Lemma EditItemPerm_Ok_inv {M} `{Member M} item (member : M) perms action c :
  (EditItemPerm DefaultACLs item member perms action c).1 = Ok () →
  is_Some (stored (adapter c)) ∧ writable (adapter c) = true ∧
  (action = addPerm ∨ action = removePerm) ∧ perms ≠ [] ∧
  Forall (λ p, p ∈ DefaultACLs) perms.
Proof.
  unfold EditItemPerm. unfold bind at 1, LoadPolicy.
  destruct (stored (adapter c)) as [s|] eqn:Hs; [|done].
  unfold bind at 1.
  destruct (decide (action = addPerm)) as [Hadd|Hadd].
  + rewrite (bool_decide_eq_true_2 _ Hadd). cbv [ret].
    destruct perms as [|p0 perms']; [done|].
    destruct (decide (Forall (λ p, p ∈ DefaultACLs) (p0 :: perms'))) as [Hall|Hall].
    * unfold bind at 1.
      rewrite (editAll_run AddPolicy (λ t s0, (RuleStore.AddPolicy s0 t).2))
        by (done || apply AddPolicy_shape).
      unfold SavePolicy, with_e. cbn [adapter].
      destruct (writable (adapter c)); [|done]. intros _.
      split_and!; eauto.
    * unfold bind at 1.
      pose proof (editAll_invalid AddPolicy (λ t s0, (RuleStore.AddPolicy s0 t).2)
                    item member (p0 :: perms')
                    (mkChecker (org c) s (adapter c)) AddPolicy_shape Hall) as Hf.
      by destruct (forEach _ _ _) as [[[]| |] c2].
  + rewrite (bool_decide_eq_false_2 _ Hadd).
    destruct (decide (action = removePerm)) as [Hrem|Hrem].
    * rewrite (bool_decide_eq_true_2 _ Hrem). cbv [ret].
      destruct perms as [|p0 perms']; [done|].
      destruct (decide (Forall (λ p, p ∈ DefaultACLs) (p0 :: perms'))) as [Hall|Hall].
      -- unfold bind at 1.
         rewrite (editAll_run RemovePolicy (λ t s0, (RuleStore.RemovePolicy s0 t).2))
           by (done || apply RemovePolicy_shape).
         unfold SavePolicy, with_e. cbn [adapter].
         destruct (writable (adapter c)); [|done]. intros _.
         split_and!; eauto.
      -- unfold bind at 1.
         pose proof (editAll_invalid RemovePolicy
                       (λ t s0, (RuleStore.RemovePolicy s0 t).2)
                       item member (p0 :: perms')
                       (mkChecker (org c) s (adapter c)) RemovePolicy_shape Hall) as Hf.
         by destruct (forEach _ _ _) as [[[]| |] c2].
    * by rewrite (bool_decide_eq_false_2 _ Hrem).
Qed.

(** X7. [EditItemPerm] returns nil exactly when the policy file can be
    read and written, the action is ["add"] or ["remove"], the list of
    permissions is not empty and every permission is on the whitelist. *)
Theorem EditItemPerm_succeeds_iff {M} `{Member M} item (member : M) perms action c :
  (EditItemPerm DefaultACLs item member perms action c).1 = Ok () ↔
  is_Some (stored (adapter c)) ∧ writable (adapter c) = true ∧
  (action = addPerm ∨ action = removePerm) ∧ perms ≠ [] ∧
  Forall (λ p, p ∈ DefaultACLs) perms.
Proof.
  split; [apply EditItemPerm_Ok_inv|].
  intros ([s Hs] & Hw & Hact & Hne & Hall).
  rewrite (EditItemPerm_run item member perms action c s Hs Hact Hne Hall).
  by rewrite Hw.
Qed.

Lemma elem_of_add_map {A} (f : A → Tuple) (l : list A) s t :
  t ∈ policy (fold_left (λ s x, (RuleStore.AddPolicy s (f x)).2) l s) ↔
  t ∈ policy s ∨ ∃ x, x ∈ l ∧ t = f x.
Proof.
  revert s. induction l as [|x l IH]; intros s; cbn [fold_left].
  - split; [by left|]. intros [?|(x & Hx & _)]; [done|].
    by apply elem_of_nil in Hx.
  - rewrite IH, elem_of_AddPolicy. split.
    + intros [[?| ->]|(y & Hy & ->)]; [by left| |].
      * right. exists x. split; [left|done].
      * right. exists y. split; [by right|done].
    + intros [?|(y & Hy & ->)]; [by left; left|].
      apply elem_of_cons in Hy as [->|Hy]; [by left; right|].
      right. by exists y.
Qed.

Lemma elem_of_remove_map {A} (f : A → Tuple) (l : list A) s t :
  t ∈ policy (fold_left (λ s x, (RuleStore.RemovePolicy s (f x)).2) l s) ↔
  t ∈ policy s ∧ ∀ x, x ∈ l → t ≠ f x.
Proof.
  revert s. induction l as [|x l IH]; intros s; cbn [fold_left].
  - split; [|tauto]. intros Ht. split; [done|]. intros x Hx.
    by apply elem_of_nil in Hx.
  - rewrite IH, elem_of_RemovePolicy. split.
    + intros [[Ht Hne] Hl]. split; [done|]. intros y Hy.
      apply elem_of_cons in Hy as [->|Hy]; auto.
    + intros [Ht Hl]. split_and!; [done| |].
      * apply Hl. left.
      * intros y Hy. apply Hl. by right.
Qed.

Lemma grouping_add_map {A} (f : A → Tuple) (l : list A) s :
  grouping (fold_left (λ s x, (RuleStore.AddPolicy s (f x)).2) l s) = grouping s.
Proof.
  revert s. induction l as [|x l IH]; intros s; cbn [fold_left]; [done|].
  by rewrite IH, grouping_AddPolicy.
Qed.

Lemma grouping_remove_map {A} (f : A → Tuple) (l : list A) s :
  grouping (fold_left (λ s x, (RuleStore.RemovePolicy s (f x)).2) l s) = grouping s.
Proof.
  revert s. induction l as [|x l IH]; intros s; cbn [fold_left]; [done|].
  by rewrite IH.
Qed.

(** What a successful ["add"] leaves behind. *)
Lemma EditItemPerm_add_inv {M} `{Member M} item (member : M) perms c c' :
  EditItemPerm DefaultACLs item member perms addPerm c = (Ok (), c') →
  ∃ s, stored (adapter c) = Some s ∧ org c' = org c ∧
       adapter c' = mkAdapter (Some (e c')) true ∧
       e c' = fold_left (λ s p, (RuleStore.AddPolicy s
                                   (buildEnforcingSlice item member p)).2) perms s.
Proof.
  intros Hrun.
  destruct (EditItemPerm_Ok_inv item member perms addPerm c)
    as ([s Hs] & Hw & Hact & Hne & Hall); [by rewrite Hrun|].
  rewrite (EditItemPerm_run item member perms addPerm c s Hs Hact Hne Hall) in Hrun.
  cbv zeta in Hrun. rewrite Hw in Hrun.
  rewrite (bool_decide_eq_true_2 (addPerm = addPerm)) in Hrun by done.
  injection Hrun as <-. exists s. by split_and!.
Qed.

(** What a successful ["remove"] leaves behind. *)
Lemma EditItemPerm_remove_inv {M} `{Member M} item (member : M) perms c c' :
  EditItemPerm DefaultACLs item member perms removePerm c = (Ok (), c') →
  ∃ s, stored (adapter c) = Some s ∧ org c' = org c ∧
       adapter c' = mkAdapter (Some (e c')) true ∧
       e c' = fold_left (λ s p, (RuleStore.RemovePolicy s
                                   (buildEnforcingSlice item member p)).2) perms s.
Proof.
  intros Hrun.
  destruct (EditItemPerm_Ok_inv item member perms removePerm c)
    as ([s Hs] & Hw & Hact & Hne & Hall); [by rewrite Hrun|].
  rewrite (EditItemPerm_run item member perms removePerm c s Hs Hact Hne Hall) in Hrun.
  cbv zeta in Hrun. rewrite Hw in Hrun.
  rewrite (bool_decide_eq_false_2 (removePerm = addPerm)) in Hrun by done.
  injection Hrun as <-. exists s. by split_and!.
Qed.

(** X8. Grant, then check: after [EditItemPerm] has added permissions for
    an actor on an item and returned nil, [CheckItemPerm] answers
    [(true, nil)] to that actor for each of them, in every world. *)
Theorem EditItemPerm_add_then_check w item (doer : Actor) perms c c' :
  EditItemPerm DefaultACLs item doer perms addPerm c = (Ok (), c') →
  ∀ p, p ∈ perms → (CheckItemPerm w item doer p c').1 = Ok true.
Proof.
  intros Hrun p Hp.
  destruct (EditItemPerm_add_inv item doer perms c c' Hrun)
    as (s & Hs & Ho & Ha & He).
  assert (stored (adapter c') = Some (e c')) as Hs' by by rewrite Ha.
  rewrite (CheckItemPerm_run w item doer p c' (e c') Hs').
  rewrite Enforce_present; [done|].
  rewrite He. apply elem_of_add_map. right. by exists p.
Qed.

(** X9. The exact effect of a successful [EditItemPerm]: the saved rule
    set is the one in memory; ["add"] leaves the old tuples plus the
    specific allow tuple of each permission, ["remove"] the old tuples
    minus those; role edges are untouched either way. *)
Theorem EditItemPerm_effect {M} `{Member M} item (member : M) perms action c c' :
  EditItemPerm DefaultACLs item member perms action c = (Ok (), c') →
  ∃ s, stored (adapter c) = Some s ∧
       stored (adapter c') = Some (e c') ∧
       grouping (e c') = grouping s ∧
       ∀ t, t ∈ policy (e c') ↔
            if bool_decide (action = addPerm)
            then t ∈ policy s ∨
                 ∃ p, p ∈ perms ∧ t = buildEnforcingSlice item member p
            else t ∈ policy s ∧
                 ∀ p, p ∈ perms → t ≠ buildEnforcingSlice item member p.
Proof.
  intros Hrun.
  destruct (EditItemPerm_Ok_inv item member perms action c)
    as (_ & _ & [-> | ->] & _ & _); [by rewrite Hrun| |].
  - destruct (EditItemPerm_add_inv item member perms c c' Hrun)
      as (s & Hs & Ho & Ha & He).
    exists s. rewrite Ha, He. split_and!; [done|done|apply grouping_add_map|].
    intros t. rewrite (bool_decide_eq_true_2 (addPerm = addPerm)) by done.
    apply elem_of_add_map.
  - destruct (EditItemPerm_remove_inv item member perms c c' Hrun)
      as (s & Hs & Ho & Ha & He).
    exists s. rewrite Ha, He. split_and!; [done|done|apply grouping_remove_map|].
    intros t. rewrite (bool_decide_eq_false_2 (removePerm = addPerm)) by done.
    apply elem_of_remove_map.
Qed.

(** X10. Granting and revoking cancel out: when none of the specific
    tuples is in the rule set, a successful ["add"] followed by a
    successful ["remove"] of the same permissions leaves the policy file
    with the original tuples and role edges. *)
Theorem EditItemPerm_add_remove {M} `{Member M} item (member : M) perms c c1 c2 s :
  stored (adapter c) = Some s →
  (∀ p, p ∈ perms → buildEnforcingSlice item member p ∉ policy s) →
  EditItemPerm DefaultACLs item member perms addPerm c = (Ok (), c1) →
  EditItemPerm DefaultACLs item member perms removePerm c1 = (Ok (), c2) →
  ∃ s2, stored (adapter c2) = Some s2 ∧ same_rules s2 s.
Proof.
  intros Hs Hfresh Hadd Hrem.
  destruct (EditItemPerm_add_inv item member perms c c1 Hadd)
    as (s0 & Hs0 & _ & Ha1 & He1).
  assert (s0 = s) as -> by congruence.
  destruct (EditItemPerm_remove_inv item member perms c1 c2 Hrem)
    as (s1 & Hs1 & _ & Ha2 & He2).
  rewrite Ha1 in Hs1. cbn [stored] in Hs1. injection Hs1 as <-.
  exists (e c2). split; [by rewrite Ha2|].
  rewrite He2, He1. split.
  - intros t. rewrite elem_of_remove_map, elem_of_add_map. split.
    + intros [[Ht|(p & Hp & ->)] Hne]; [done|]. by destruct (Hne p Hp).
    + intros Ht. split; [by left|]. intros p Hp ->. by apply (Hfresh p Hp).
  - by rewrite grouping_remove_map, grouping_add_map.
Qed.

(** X11. [EditItemPerm] touches the policy file only by the closing
    [SavePolicy]: an unknown action, an empty list or a permission outside
    the whitelist, met after earlier permissions were already applied in
    memory, leaves the file as it was. *)
Theorem EditItemPerm_writes_on_success {M} `{Member M}
    item (member : M) perms action :
  writes_on_success (EditItemPerm DefaultACLs item member perms action).
Proof.
  assert (∀ f : Tuple → Op bool, (∀ t, reads_only (f t)) →
            writes_on_success
              (match perms with
               | [] => fail InvalidEditAction
               | _ :: _ =>
                   forEach perms (editOne DefaultACLs f item member) ;;; SavePolicy
               end)) as Hloop.
  { intros f Hf. destruct perms as [|p0 perms'];
      [apply writes_of_reads, reads_only_fail|].
    apply writes_bind; [|intros _; apply writes_SavePolicy].
    apply reads_only_forEach. intros p. by apply reads_only_editOne. }
  unfold EditItemPerm.
  apply writes_bind; [apply reads_only_LoadPolicy|intros _].
  destruct (bool_decide (action = addPerm)).
  { intros c. apply (Hloop AddPolicy reads_only_AddPolicy c). }
  destruct (bool_decide (action = removePerm)).
  { intros c. apply (Hloop RemovePolicy reads_only_RemovePolicy c). }
  apply writes_of_reads. intros c. done.
Qed.

End EditItemPermFacts.

Section EditItemPermWitnesses.

Lemma EditItemPerm_add_then_check_witness :
  let c' := (EditItemPerm chef_perms node1 alice ["read"; "update"] addPerm
               (checker_on store_node2)).2 in
  (CheckItemPerm acme_world node1 alice "read" c').1 = Ok true ∧
  (CheckItemPerm acme_world node1 alice "update" c').1 = Ok true.
Proof.
  assert (EditItemPerm chef_perms node1 alice ["read"; "update"] addPerm
            (checker_on store_node2)
          = (Ok (), (EditItemPerm chef_perms node1 alice ["read"; "update"] addPerm
                       (checker_on store_node2)).2)) as Hrun
    by (vm_compute; reflexivity).
  split.
  - apply (EditItemPerm_add_then_check chef_perms acme_world node1 alice
             ["read"; "update"] (checker_on store_node2) _ Hrun). left.
  - apply (EditItemPerm_add_then_check chef_perms acme_world node1 alice
             ["read"; "update"] (checker_on store_node2) _ Hrun). right. left.
Defined.

Lemma EditItemPerm_effect_witness :
  let c' := (EditItemPerm chef_perms node1 alice ["read"] removePerm
               (checker_on store_node1)).2 in
  ∃ s, stored (adapter (checker_on store_node1)) = Some s ∧
       stored (adapter c') = Some (e c') ∧
       grouping (e c') = grouping s ∧
       ∀ t, t ∈ policy (e c') ↔
            if bool_decide (removePerm = addPerm)
            then t ∈ policy s ∨
                 ∃ p, p ∈ ["read"] ∧ t = buildEnforcingSlice node1 alice p
            else t ∈ policy s ∧
                 ∀ p, p ∈ ["read"] → t ≠ buildEnforcingSlice node1 alice p.
Proof.
  apply (EditItemPerm_effect chef_perms node1 alice ["read"] removePerm
           (checker_on store_node1)).
  vm_compute. reflexivity.
Defined.

Lemma EditItemPerm_add_remove_witness :
  ∃ s2, stored (adapter
                  (EditItemPerm chef_perms node1 alice ["read"; "grant"] removePerm
                     (EditItemPerm chef_perms node1 alice ["read"; "grant"] addPerm
                        (checker_on store_node2)).2).2) = Some s2 ∧
        same_rules s2 store_node2.
Proof.
  apply (EditItemPerm_add_remove chef_perms node1 alice ["read"; "grant"]
           (checker_on store_node2)
           (EditItemPerm chef_perms node1 alice ["read"; "grant"] addPerm
              (checker_on store_node2)).2).
  - reflexivity.
  - intros p Hp Hin. vm_compute in Hin.
    apply elem_of_cons in Hin as [Hin|Hin]; [discriminate Hin|].
    by apply elem_of_nil in Hin.
  - vm_compute. reflexivity.
  - vm_compute. reflexivity.
Defined.

End EditItemPermWitnesses.

(** ** Deleting an item's rules *)

Section DeleteFacts.
Import RuleStoreFacts.

Lemma removeEach_run l b c :
  removeEach l b c =
  (Ok (lastRemoved l b (e c)),
   with_e c (fold_left (λ s p, (RuleStore.RemovePolicy s p).2) l (e c))).
Proof.
  revert b c. induction l as [|p l IH]; intros b c; simpl.
  - by destruct c.
  - unfold bind, RemovePolicySafe, RemovePolicy. cbn [fst snd]. by rewrite IH.
Qed.

(** Every removal of the loop finds its tuple when the rule set holds each
    tuple once. *)
Lemma lastRemoved_NoDup l b s :
  NoDup l → (∀ p, p ∈ l → p ∈ policy s) →
  lastRemoved l b s = match l with [] => b | _ :: _ => true end.
Proof.
  revert b s. induction l as [|p l IH]; intros b s Hnd Hin; [done|].
  apply NoDup_cons in Hnd as [Hp Hnd]. cbn [lastRemoved].
  rewrite IH; [|done|].
  - destruct l; [|done]. cbn [RuleStore.RemovePolicy fst].
    apply bool_decide_eq_true_2, Hin. left.
  - intros q Hq. apply elem_of_RemovePolicy. split.
    + apply Hin. by right.
    + intros ->. done.
Qed.

(** The whole of [DeleteItemACL] once the policy file has been read. *)
Lemma DeleteItemACL_run item c s :
  stored (adapter c) = Some s →
  let olds := filter (λ p, condKind p = ContainerKind item ∧
                           condSubkind p = ContainerType item)
                (RuleStore.GetFilteredPolicy s condNamePos (GetName item)) in
  let s' := fold_left (λ s p, (RuleStore.RemovePolicy s p).2) olds s in
  DeleteItemACL item c =
  if writable (adapter c)
  then (Ok (lastRemoved olds false s), mkChecker (org c) s' (mkAdapter (Some s') true))
  else (Err PolicySaveError, mkChecker (org c) s' (adapter c)).
Proof.
  intros Hs. cbv zeta. unfold DeleteItemACL.
  unfold bind at 1, LoadPolicy at 1. rewrite Hs.
  unfold bind at 1, GetItemPolicies, LoadPolicy. cbn [adapter]. rewrite Hs.
  cbn [snd e org adapter].
  unfold bind at 1. rewrite removeEach_run.
  unfold with_e, bind, SavePolicy, ret. cbn [e org adapter].
  by destruct (writable (adapter c)).
Qed.

Lemma DeleteItemACL_Ok_inv item c b c' :
  DeleteItemACL item c = (Ok b, c') →
  ∃ s, stored (adapter c) = Some s ∧
       let olds := filter (λ p, condKind p = ContainerKind item ∧
                                condSubkind p = ContainerType item)
                     (RuleStore.GetFilteredPolicy s condNamePos (GetName item)) in
       b = lastRemoved olds false s ∧
       adapter c' = mkAdapter (Some (e c')) true ∧
       e c' = fold_left (λ s p, (RuleStore.RemovePolicy s p).2) olds s.
Proof.
  intros Hrun. destruct (stored (adapter c)) as [s|] eqn:Hs.
  - rewrite (DeleteItemACL_run item c s Hs) in Hrun. cbv zeta in Hrun.
    destruct (writable (adapter c)); [|discriminate Hrun].
    injection Hrun as <- <-. exists s. by split_and!.
  - cbv [DeleteItemACL bind LoadPolicy] in Hrun. rewrite Hs in Hrun.
    discriminate Hrun.
Qed.

Lemma elem_of_deleted item s t :
  t ∈ policy (fold_left (λ s p, (RuleStore.RemovePolicy s p).2)
                (filter (λ p, condKind p = ContainerKind item ∧
                              condSubkind p = ContainerType item)
                   (RuleStore.GetFilteredPolicy s condNamePos (GetName item))) s) ↔
  t ∈ policy s ∧
  ¬ is_item (ContainerKind item) (ContainerType item) (GetName item) t.
Proof. rewrite elem_of_remove_each, elem_of_olds. tauto. Qed.

(** X12. The exact effect of a successful [DeleteItemACL]: the saved rule
    set is the one in memory and holds the old tuples except those of the
    item's name, kind and type; role edges are untouched. *)
Theorem DeleteItemACL_effect item c b c' :
  DeleteItemACL item c = (Ok b, c') →
  ∃ s, stored (adapter c) = Some s ∧
       stored (adapter c') = Some (e c') ∧
       grouping (e c') = grouping s ∧
       ∀ t, t ∈ policy (e c') ↔
            t ∈ policy s ∧
            ¬ is_item (ContainerKind item) (ContainerType item) (GetName item) t.
Proof.
  intros Hrun.
  destruct (DeleteItemACL_Ok_inv item c b c' Hrun) as (s & Hs & _ & Ha & He).
  exists s. rewrite Ha, He. split_and!; [done|done|apply grouping_remove_each|].
  intros t. apply elem_of_deleted.
Qed.

(** X13. On a rule set that holds each tuple once, a successful
    [DeleteItemACL] reports true exactly when the item had a tuple. *)
Theorem DeleteItemACL_reports item c b c' s :
  stored (adapter c) = Some s →
  NoDup (policy s) →
  DeleteItemACL item c = (Ok b, c') →
  b = true ↔
  ∃ t, t ∈ policy s ∧
       is_item (ContainerKind item) (ContainerType item) (GetName item) t.
Proof.
  intros Hs Hnd Hrun.
  destruct (DeleteItemACL_Ok_inv item c b c' Hrun) as (s0 & Hs0 & Hb & _).
  assert (s0 = s) as -> by congruence. cbv zeta in Hb. subst b.
  rewrite lastRemoved_NoDup.
  - destruct (filter _ _) as [|p olds] eqn:Holds.
    + split; [done|]. intros (t & Ht & Hi).
      assert (t ∈ filter (λ p, condKind p = ContainerKind item ∧
                               condSubkind p = ContainerType item)
                    (RuleStore.GetFilteredPolicy s condNamePos (GetName item)))
        as Hin by by apply elem_of_olds.
      rewrite Holds in Hin. by apply elem_of_nil in Hin.
    + split; [|done]. intros _. exists p.
      apply elem_of_olds. rewrite Holds. left.
  - apply NoDup_filter. unfold RuleStore.GetFilteredPolicy. by apply NoDup_filter.
  - intros p Hp. by apply elem_of_olds in Hp as [? _].
Qed.

(** X14. Delete, then check: once [DeleteItemACL] has returned nil for an
    item whose name is not [$$default$$], [CheckItemPerm] on that item
    answers [(true, nil)] exactly when the original rule set grants the
    general tuple; neither the item's old grants nor its deny-all sentinel
    play a part any more. *)
Theorem DeleteItemACL_then_check w item doer perm c b c' s :
  stored (adapter c) = Some s →
  GetName item ≠ "$$default$$" →
  DeleteItemACL item c = (Ok b, c') →
  (CheckItemPerm w item doer perm c').1 = Ok true ↔
  RuleStore.grants s (general (buildEnforcingSlice item doer perm)).
Proof.
  intros Hs Hname Hrun.
  destruct (DeleteItemACL_Ok_inv item c b c' Hrun) as (s0 & Hs0 & _ & Ha & He).
  assert (s0 = s) as -> by congruence. cbv zeta in He.
  assert (stored (adapter c') = Some (e c')) as Hs' by by rewrite Ha.
  assert (∀ t, t ∈ policy (e c') ↔
               t ∈ policy s ∧
               ¬ is_item (ContainerKind item) (ContainerType item) (GetName item) t)
    as Hin by (intros t; rewrite He; apply elem_of_deleted).
  assert (grouping (e c') = grouping s) as Hg
    by (rewrite He; apply grouping_remove_each).
  rewrite (CheckItemPerm_run w item doer perm c' (e c') Hs').
  assert (RuleStore.Enforce (e c') (buildEnforcingSlice item doer perm) = false) as ->.
  { apply Enforce_false_spec. intros (p & Hp & _ & Hsub & Hk & Hn & _).
    apply Hin in Hp as [_ Hp]. apply Hp. by split_and!. }
  rewrite (bool_decide_eq_false_2 (pinned_by (e c') item doer)).
  2: { intros (p & Hp & _ & Hk & Hsub & Hn). apply Hin in Hp as [_ Hp].
       apply Hp. by split_and!. }
  assert (RuleStore.Enforce (e c') (buildDenySlice item perm) = false) as ->.
  { apply Enforce_false_spec. intros (p & Hp & _ & Hsub & Hk & Hn & _).
    apply Hin in Hp as [_ Hp]. apply Hp. by split_and!. }
  rewrite andb_false_r. cbn [orb negb andb].
  assert (RuleStore.grants (e c') (general (buildEnforcingSlice item doer perm)) ↔
          RuleStore.grants s (general (buildEnforcingSlice item doer perm))) as Hgen.
  { unfold RuleStore.grants. rewrite Hg. split.
    - intros (p & Hp & Hrest). exists p. split; [|done]. by apply Hin in Hp as [? _].
    - intros (p & Hp & Hrest). exists p. split; [|done]. apply Hin. split; [done|].
      intros (Hn & _). destruct Hrest as (_ & _ & _ & Hn' & _).
      simpl in Hn'. congruence. }
  rewrite <- Hgen, <- Enforce_spec.
  destruct (RuleStore.Enforce (e c') (general _)); [done|].
  destruct (negb _); [done|]. by destruct (testAssociation w doer (org c')).
Qed.

End DeleteFacts.

Section DeleteWitnesses.

Lemma DeleteItemACL_effect_witness :
  let c' := (DeleteItemACL node1 (checker_on store_pinned)).2 in
  ∃ s, stored (adapter (checker_on store_pinned)) = Some s ∧
       stored (adapter c') = Some (e c') ∧
       grouping (e c') = grouping s ∧
       ∀ t, t ∈ policy (e c') ↔
            t ∈ policy s ∧
            ¬ is_item (ContainerKind node1) (ContainerType node1) (GetName node1) t.
Proof.
  apply (DeleteItemACL_effect node1 (checker_on store_pinned) true).
  vm_compute. reflexivity.
Defined.

Lemma DeleteItemACL_reports_witness :
  true = true ↔
  ∃ t, t ∈ policy store_pinned ∧
       is_item (ContainerKind node1) (ContainerType node1) (GetName node1) t.
Proof.
  apply (DeleteItemACL_reports node1 (checker_on store_pinned) true
           (DeleteItemACL node1 (checker_on store_pinned)).2 store_pinned).
  - reflexivity.
  - repeat constructor; vm_compute; intros Hin;
      repeat (apply elem_of_cons in Hin as [Hin|Hin]; [discriminate Hin|]);
      by apply elem_of_nil in Hin.
  - vm_compute. reflexivity.
Defined.

Lemma DeleteItemACL_then_check_witness :
  (CheckItemPerm acme_world node1 alice "update"
     (DeleteItemACL node1 (checker_on store_pinned)).2).1 = Ok true ↔
  RuleStore.grants store_pinned (general (buildEnforcingSlice node1 alice "update")).
Proof.
  apply (DeleteItemACL_then_check acme_world node1 alice "update"
           (checker_on store_pinned) true).
  - reflexivity.
  - discriminate.
  - vm_compute. reflexivity.
Defined.

End DeleteWitnesses.

(** ** Members and roles *)

Section MemberFacts.
Import RuleStore RuleStoreFacts.

Lemma elem_of_AddRoleForUser s u r g :
  g ∈ grouping (RoleStore.AddRoleForUser s u r).2 ↔ g ∈ grouping s ∨ g = (u, r).
Proof.
  unfold RoleStore.AddRoleForUser. destruct (decide ((u, r) ∈ grouping s)) as [Hin|Hnin].
  - rewrite bool_decide_eq_true_2 by done. split; [by left|by intros [?| ->]].
  - rewrite bool_decide_eq_false_2 by done. simpl.
    rewrite elem_of_app, list_elem_of_singleton. tauto.
Qed.

Lemma policy_AddRoleForUser s u r :
  policy (RoleStore.AddRoleForUser s u r).2 = policy s.
Proof. unfold RoleStore.AddRoleForUser. by destruct (bool_decide _). Qed.

Lemma elem_of_add_edges (role : string) (l : list AnyMember) s g :
  g ∈ grouping (fold_left (λ s m, (RoleStore.AddRoleForUser s (ACLName m) role).2) l s) ↔
  g ∈ grouping s ∨ ∃ m, m ∈ l ∧ g = (ACLName m, role).
Proof.
  revert s. induction l as [|m l IH]; intros s; cbn [fold_left].
  - split; [by left|]. intros [?|(m & Hm & _)]; [done|]. by apply elem_of_nil in Hm.
  - rewrite IH, elem_of_AddRoleForUser. split.
    + intros [[?| ->]|(m' & Hm' & ->)]; [by left| |].
      * right. exists m. split; [left|done].
      * right. exists m'. split; [by right|done].
    + intros [?|(m' & Hm' & ->)]; [by left; left|].
      apply elem_of_cons in Hm' as [->|Hm']; [by left; right|].
      right. by exists m'.
Qed.

Lemma policy_add_edges (role : string) (l : list AnyMember) s :
  policy (fold_left (λ s m, (RoleStore.AddRoleForUser s (ACLName m) role).2) l s)
  = policy s.
Proof.
  revert s. induction l as [|m l IH]; intros s; cbn [fold_left]; [done|].
  by rewrite IH, policy_AddRoleForUser.
Qed.

Lemma elem_of_remove_edges (role : string) (l : list AnyMember) s g :
  g ∈ grouping (fold_left (λ s m, (RoleStore.DeleteRoleForUser s (ACLName m) role).2) l s) ↔
  g ∈ grouping s ∧ ∀ m, m ∈ l → g ≠ (ACLName m, role).
Proof.
  revert s. induction l as [|m l IH]; intros s; cbn [fold_left].
  - split; [|tauto]. intros Hg. split; [done|]. intros m Hm.
    by apply elem_of_nil in Hm.
  - rewrite IH. cbn [RoleStore.DeleteRoleForUser snd grouping].
    rewrite list_elem_of_filter. split.
    + intros [[Hne Hg] Hl]. split; [done|]. intros m' Hm'.
      apply elem_of_cons in Hm' as [->|Hm']; auto.
    + intros [Hg Hl]. split_and!; [|done|].
      * apply Hl. left.
      * intros m' Hm'. apply Hl. by right.
Qed.

Lemma policy_remove_edges (role : string) (l : list AnyMember) s :
  policy (fold_left (λ s m, (RoleStore.DeleteRoleForUser s (ACLName m) role).2) l s)
  = policy s.
Proof.
  revert s. induction l as [|m l IH]; intros s; cbn [fold_left]; [done|].
  by rewrite IH.
Qed.

(** The whole of [AddMembers] once the policy file has been read. *)
Lemma AddMembers_run gRole adding c s :
  stored (adapter c) = Some s →
  let s' := fold_left (λ s m, (RoleStore.AddRoleForUser s (ACLName m)
                                 (ACLName gRole)).2) adding s in
  AddMembers gRole adding c =
  if writable (adapter c)
  then (Ok (), mkChecker (org c) s' (mkAdapter (Some s') true))
  else (Err PolicySaveError, mkChecker (org c) s' (adapter c)).
Proof.
  intros Hs. cbv zeta. unfold AddMembers.
  unfold bind at 1, LoadPolicy. rewrite Hs. unfold bind at 1.
  rewrite (forEach_run _ (λ m s0, (RoleStore.AddRoleForUser s0 (ACLName m)
                                     (ACLName gRole)).2)) by done.
  unfold with_e, SavePolicy. cbn [e org adapter].
  by destruct (writable (adapter c)).
Qed.

Lemma RemoveMembers_run gRole removing c s :
  stored (adapter c) = Some s →
  let s' := fold_left (λ s m, (RoleStore.DeleteRoleForUser s (ACLName m)
                                 (ACLName gRole)).2) removing s in
  RemoveMembers gRole removing c =
  if writable (adapter c)
  then (Ok (), mkChecker (org c) s' (mkAdapter (Some s') true))
  else (Err PolicySaveError, mkChecker (org c) s' (adapter c)).
Proof.
  intros Hs. cbv zeta. unfold RemoveMembers.
  unfold bind at 1, LoadPolicy. rewrite Hs. unfold bind at 1.
  rewrite (forEach_run _ (λ m s0, (RoleStore.DeleteRoleForUser s0 (ACLName m)
                                     (ACLName gRole)).2)) by done.
  unfold with_e, SavePolicy. cbn [e org adapter].
  by destruct (writable (adapter c)).
Qed.

Lemma AddMembers_Ok_inv gRole adding c c' :
  AddMembers gRole adding c = (Ok (), c') →
  ∃ s, stored (adapter c) = Some s ∧
       adapter c' = mkAdapter (Some (e c')) true ∧
       e c' = fold_left (λ s m, (RoleStore.AddRoleForUser s (ACLName m)
                                   (ACLName gRole)).2) adding s.
Proof.
  intros Hrun. destruct (stored (adapter c)) as [s|] eqn:Hs.
  - rewrite (AddMembers_run gRole adding c s Hs) in Hrun. cbv zeta in Hrun.
    destruct (writable (adapter c)); [|discriminate Hrun].
    injection Hrun as <-. exists s. by split_and!.
  - cbv [AddMembers bind LoadPolicy] in Hrun. rewrite Hs in Hrun. discriminate Hrun.
Qed.

Lemma RemoveMembers_Ok_inv gRole removing c c' :
  RemoveMembers gRole removing c = (Ok (), c') →
  ∃ s, stored (adapter c) = Some s ∧
       adapter c' = mkAdapter (Some (e c')) true ∧
       e c' = fold_left (λ s m, (RoleStore.DeleteRoleForUser s (ACLName m)
                                   (ACLName gRole)).2) removing s.
Proof.
  intros Hrun. destruct (stored (adapter c)) as [s|] eqn:Hs.
  - rewrite (RemoveMembers_run gRole removing c s Hs) in Hrun. cbv zeta in Hrun.
    destruct (writable (adapter c)); [|discriminate Hrun].
    injection Hrun as <-. exists s. by split_and!.
  - cbv [RemoveMembers bind LoadPolicy] in Hrun. rewrite Hs in Hrun.
    discriminate Hrun.
Qed.

(** X15. The exact effect of a successful [AddMembers]: the saved rule set
    is the one in memory, its tuples are the old ones in the old order,
    and its role edges are the old ones plus an edge from each added
    member to the role. *)
Theorem AddMembers_effect gRole adding c c' :
  AddMembers gRole adding c = (Ok (), c') →
  ∃ s, stored (adapter c) = Some s ∧
       stored (adapter c') = Some (e c') ∧
       policy (e c') = policy s ∧
       ∀ g, g ∈ grouping (e c') ↔
            g ∈ grouping s ∨ ∃ m, m ∈ adding ∧ g = (ACLName m, ACLName gRole).
Proof.
  intros Hrun.
  destruct (AddMembers_Ok_inv gRole adding c c' Hrun) as (s & Hs & Ha & He).
  exists s. rewrite Ha, He. split_and!; [done|done|apply policy_add_edges|].
  intros g. apply elem_of_add_edges.
Qed.

(** X16. Granting through a group: when the rule set holds an allow tuple
    for the role on an item and permission, every actor that a successful
    [AddMembers] puts into the role passes [CheckItemPerm] for them. *)
Theorem AddMembers_then_check w gRole adding item (doer : Actor) perm c c' s :
  stored (adapter c) = Some s →
  mkTuple (ACLName gRole) (ContainerType item) (ContainerKind item)
          (GetName item) perm enforceEffect ∈ policy s →
  MActor doer ∈ adding →
  AddMembers gRole adding c = (Ok (), c') →
  (CheckItemPerm w item doer perm c').1 = Ok true.
Proof.
  intros Hs Htuple Hdoer Hrun.
  destruct (AddMembers_Ok_inv gRole adding c c' Hrun) as (s0 & Hs0 & Ha & He).
  assert (s0 = s) as -> by congruence.
  assert (stored (adapter c') = Some (e c')) as Hs' by by rewrite Ha.
  rewrite (CheckItemPerm_run w item doer perm c' (e c') Hs').
  assert (RuleStore.Enforce (e c') (buildEnforcingSlice item doer perm) = true) as ->;
    [|done].
  apply Enforce_spec. eexists. split_and!.
  - rewrite He, policy_add_edges. exact Htuple.
  - simpl. eapply role_path_step; [|constructor].
    rewrite He. apply elem_of_add_edges. right. by exists (MActor doer).
  - done.
  - done.
  - done.
  - done.
  - done.
Qed.

(** X17. [RemoveMembers] undoes [AddMembers]: when none of the edges was
    in the rule set, adding members to a role and removing the same
    members leaves the policy file with the original tuples and role
    edges. *)
Theorem AddMembers_RemoveMembers gRole members c c1 c2 s :
  stored (adapter c) = Some s →
  (∀ m, m ∈ members → (ACLName m, ACLName gRole) ∉ grouping s) →
  AddMembers gRole members c = (Ok (), c1) →
  RemoveMembers gRole members c1 = (Ok (), c2) →
  ∃ s2, stored (adapter c2) = Some s2 ∧ policy s2 = policy s ∧
        ∀ g, g ∈ grouping s2 ↔ g ∈ grouping s.
Proof.
  intros Hs Hfresh Hadd Hrem.
  destruct (AddMembers_Ok_inv gRole members c c1 Hadd) as (s0 & Hs0 & Ha1 & He1).
  assert (s0 = s) as -> by congruence.
  destruct (RemoveMembers_Ok_inv gRole members c1 c2 Hrem) as (s1 & Hs1 & Ha2 & He2).
  rewrite Ha1 in Hs1. cbn [stored] in Hs1. injection Hs1 as <-.
  exists (e c2). rewrite Ha2, He2, He1. split_and!; [done| |].
  - by rewrite policy_remove_edges, policy_add_edges.
  - intros g. rewrite elem_of_remove_edges, elem_of_add_edges. split.
    + intros [[Hg|(m & Hm & ->)] Hne]; [done|]. by destruct (Hne m Hm).
    + intros Hg. split; [by left|]. intros m Hm ->. by apply (Hfresh m Hm).
Qed.

(** Reading the policy file twice in a row is reading it once. *)
Lemma LoadPolicy_again {A} (k : () → Op A) c :
  bind LoadPolicy (λ _, bind LoadPolicy k) c = bind LoadPolicy k c.
Proof.
  unfold bind, LoadPolicy. destruct (stored (adapter c)) eqn:Hs; [|done].
  cbn [adapter]. by rewrite Hs.
Qed.


(** X19. The exact effect of a successful [RemoveUser]: tuples are
    untouched and the role edges left are those that do not start at the
    member; from then on the rule set grants the member only what a tuple
    naming it as subject grants. *)
Theorem RemoveUser_effect {M} `{Member M} (u : M) c c' :
  RemoveUser u c = (Ok (), c') →
  ∃ s, stored (adapter c) = Some s ∧
       stored (adapter c') = Some (e c') ∧
       policy (e c') = policy s ∧
       (∀ g, g ∈ grouping (e c') ↔ g ∈ grouping s ∧ g.1 ≠ ACLName u) ∧
       ∀ r, condGroup r = ACLName u →
            (grants (e c') r ↔ mkTuple (ACLName u) (condSubkind r) (condKind r)
                                 (condName r) (condPerm r) (condEffect r)
                               ∈ policy s).
Proof.
  unfold RemoveUser. unfold bind at 1, LoadPolicy.
  destruct (stored (adapter c)) as [s|] eqn:Hs; [|done].
  cbv [bind DeleteRolesForUser SavePolicy]. cbn [e org adapter].
  destruct (writable (adapter c)); [|done].
  intros [= <-]. exists s. cbn [stored adapter e]. split_and!; try done.
  - intros g. cbn [RoleStore.DeleteRolesForUser grouping].
    rewrite list_elem_of_filter. tauto.
  - intros r Hr. unfold grants. cbn [RoleStore.DeleteRolesForUser grouping policy].
    split.
    + intros (p & Hp & Hpath & Hsub & Hk & Hn & Hpe & He).
      assert (condGroup p = ACLName u) as Hpu.
      { rewrite Hr in Hpath. inversion Hpath as [|? m ? Hedge _]; [done|].
        apply list_elem_of_filter in Hedge as [Hne _]. by destruct Hne. }
      destruct p. simpl in *. by subst.
    + intros Hin. eexists. split; [exact Hin|]. simpl. rewrite Hr.
      split_and!; try done. constructor.
Qed.

End MemberFacts.

Section MemberWitnesses.
Import RuleStoreFacts.

Lemma AddMembers_effect_witness :
  let c' := (AddMembers ops_role [MActor alice] (checker_on store_ops_grant)).2 in
  ∃ s, stored (adapter (checker_on store_ops_grant)) = Some s ∧
       stored (adapter c') = Some (e c') ∧
       policy (e c') = policy s ∧
       ∀ g, g ∈ grouping (e c') ↔
            g ∈ grouping s ∨
            ∃ m, m ∈ [MActor alice] ∧ g = (ACLName m, ACLName ops_role).
Proof.
  apply (AddMembers_effect ops_role [MActor alice] (checker_on store_ops_grant)).
  vm_compute. reflexivity.
Defined.

Lemma AddMembers_then_check_witness :
  (CheckItemPerm acme_world node1 alice "read" (checker_on store_ops_grant)).1
    = Ok false ∧
  (CheckItemPerm acme_world node1 alice "read"
     (AddMembers ops_role (AllMembers ops_role) (checker_on store_ops_grant)).2).1
    = Ok true.
Proof.
  split; [vm_compute; reflexivity|].
  apply (AddMembers_then_check acme_world ops_role (AllMembers ops_role) node1
           alice "read" (checker_on store_ops_grant) _ store_ops_grant).
  - reflexivity.
  - left.
  - left.
  - vm_compute. reflexivity.
Defined.

Lemma AddMembers_RemoveMembers_witness :
  ∃ s2, stored (adapter
                  (RemoveMembers ops_role [MActor alice]
                     (AddMembers ops_role [MActor alice]
                        (checker_on store_ops_grant)).2).2) = Some s2 ∧
        policy s2 = policy store_ops_grant ∧
        ∀ g, g ∈ grouping s2 ↔ g ∈ grouping store_ops_grant.
Proof.
  apply (AddMembers_RemoveMembers ops_role [MActor alice]
           (checker_on store_ops_grant)
           (AddMembers ops_role [MActor alice] (checker_on store_ops_grant)).2).
  - reflexivity.
  - intros m _ Hin. by apply elem_of_nil in Hin.
  - vm_compute. reflexivity.
  - vm_compute. reflexivity.
Defined.

(** After [RemoveUser], alice no longer reaches the grant of
    [role##admins]. *)
Lemma RemoveUser_effect_witness :
  let c' := (RemoveUser alice (checker_on store_role_grant)).2 in
  (CheckItemPerm acme_world node1 alice "read" (checker_on store_role_grant)).1
    = Ok true ∧
  RuleStore.Enforce (e c') (buildEnforcingSlice node1 alice "read") = false ∧
  ∃ s, stored (adapter (checker_on store_role_grant)) = Some s ∧
       stored (adapter c') = Some (e c') ∧
       policy (e c') = policy s ∧
       (∀ g, g ∈ grouping (e c') ↔ g ∈ grouping s ∧ g.1 ≠ ACLName alice) ∧
       ∀ r, condGroup r = ACLName alice →
            (RuleStore.grants (e c') r ↔
             mkTuple (ACLName alice) (condSubkind r) (condKind r)
               (condName r) (condPerm r) (condEffect r) ∈ policy s).
Proof.
  split; [vm_compute; reflexivity|]. split; [vm_compute; reflexivity|].
  apply (RemoveUser_effect alice (checker_on store_role_grant)).
  vm_compute. reflexivity.
Defined.

End MemberWitnesses.

(** ** Renaming a member *)

Section RenameMemberFacts.
Import RuleStoreFacts.

Lemma elem_of_memberRenamed old new s t :
  t ∈ policy (memberRenamed old new s) ↔
  (t ∈ policy s ∨ ∃ p, p ∈ policy s ∧ condGroup p = old ∧ t = setGroup new p) ∧
  ¬ (t ∈ policy s ∧ condGroup t = old).
Proof.
  unfold memberRenamed, RoleStore.GetPermissionsForUser. cbv zeta.
  rewrite elem_of_remove_each, elem_of_add_each, elem_of_GetFilteredPolicy.
  split; intros [Hin Hout]; (split; [|done]).
  - destruct Hin as [?|(p & Hp & ->)]; [by left|].
    apply elem_of_GetFilteredPolicy in Hp as [? ?]. right. by exists p.
  - destruct Hin as [?|(p & Hp & Hi & ->)]; [by left|].
    right. exists p. split; [|done]. by apply elem_of_GetFilteredPolicy.
Qed.

Lemma grouping_memberRenamed old new s :
  grouping (memberRenamed old new s) = grouping s.
Proof.
  unfold memberRenamed. cbv zeta.
  by rewrite grouping_remove_each, grouping_add_each.
Qed.

(** The whole of [RenameMember] once the policy file has been read. *)
Lemma RenameMember_run {M} `{Member M} (member : M) old c s :
  stored (adapter c) = Some s →
  let s' := memberRenamed old (ACLName member) s in
  RenameMember member old c =
  match RoleStore.GetPermissionsForUser s old with
  | [] => (Ok (), mkChecker (org c) s (adapter c))
  | _ :: _ =>
      if writable (adapter c)
      then (Ok (), mkChecker (org c) s' (mkAdapter (Some s') true))
      else (Err PolicySaveError, mkChecker (org c) s' (adapter c))
  end.
Proof.
  intros Hs. cbv zeta. unfold RenameMember, memberRenamed.
  unfold bind at 1, LoadPolicy at 1. rewrite Hs.
  unfold bind at 1, GetPermissionsForUser. cbn [e]. cbv zeta.
  destruct (RoleStore.GetPermissionsForUser s old) as [|p0 olds'] eqn:Holds; [done|].
  rewrite <- Holds. clear Holds.
  unfold bind at 1.
  rewrite (forEach_run _ (λ p s0, (RuleStore.AddPolicy s0
                                     (setGroup (ACLName member) p)).2)) by done.
  unfold bind at 1.
  rewrite (forEach_run _ (λ p s0, (RuleStore.RemovePolicy s0 p).2)) by done.
  unfold with_e, SavePolicy. cbn [e org adapter].
  by destruct (writable (adapter c)).
Qed.

Lemma RenameMember_stored {M} `{Member M} (member : M) old c s :
  stored (adapter c) = Some s →
  let c' := (RenameMember member old c).2 in
  writable (adapter c') = writable (adapter c) ∧
  stored (adapter c') =
    Some (if writable (adapter c) then memberRenamed old (ACLName member) s else s).
Proof.
  intros Hs. cbv zeta. rewrite (RenameMember_run member old c s Hs). cbv zeta.
  unfold memberRenamed. cbv zeta.
  destruct (RoleStore.GetPermissionsForUser s old) as [|p0 olds'].
  - cbn [snd adapter fold_left]. split; [done|]. rewrite Hs.
    by destruct (writable (adapter c)).
  - destruct (writable (adapter c)) eqn:Hw; cbn [snd adapter stored writable];
      [done|]. by rewrite Hw, Hs.
Qed.


Lemma setGroup_back p old new : condGroup p = old → setGroup old (setGroup new p) = p.
Proof. destruct p. simpl. by intros ->. Qed.

(** Renaming back undoes a member rename into a name that was free. *)
Lemma memberRenamed_round_trip old new s :
  (∀ t, t ∈ policy s → condGroup t ≠ new) →
  same_rules (memberRenamed new old (memberRenamed old new s)) s.
Proof.
  intros Hfresh. split; [|by rewrite !grouping_memberRenamed].
  intros t. rewrite elem_of_memberRenamed. split.
  - intros [[Hin|(p & Hp & Hnew & ->)] Hout].
    + apply elem_of_memberRenamed in Hin as [[?|(q & Hq & Hold & ->)] _]; [done|].
      destruct Hout. split; [|done].
      apply elem_of_memberRenamed. split; [right; by exists q|].
      intros [Hq' _]. by apply (Hfresh _ Hq').
    + apply elem_of_memberRenamed in Hp as [[Hp|(q & Hq & Hold & ->)] _].
      * by destruct (Hfresh _ Hp).
      * by rewrite setGroup_back.
  - intros Ht. pose proof (Hfresh _ Ht) as Hnn.
    destruct (decide (condGroup t = old)) as [Hold|Hold].
    + assert (old ≠ new) as Hne by congruence.
      split; [|by intros [_ ?]].
      right. exists (setGroup new t). split_and!.
      * apply elem_of_memberRenamed. split; [right; by exists t|].
        intros [_ Hn]. simpl in Hn. done.
      * done.
      * by rewrite setGroup_back.
    + split; [|by intros [_ ?]].
      left. apply elem_of_memberRenamed. split; [by left|]. tauto.
Qed.

(** X21. Member rename round trip: when no tuple has the new name as
    subject, renaming a member from the old name to the new one and, right
    after, back again leaves the policy file with the original tuples and
    role edges. *)
Theorem RenameMember_round_trip {M} `{Member M} (mold mnew : M) c s :
  stored (adapter c) = Some s →
  (∀ t, t ∈ policy s → condGroup t ≠ ACLName mnew) →
  let c1 := (RenameMember mnew (ACLName mold) c).2 in
  let c2 := (RenameMember mold (ACLName mnew) c1).2 in
  ∃ s2, stored (adapter c2) = Some s2 ∧ same_rules s2 s.
Proof.
  intros Hs Hfresh. cbv zeta.
  destruct (RenameMember_stored mnew (ACLName mold) c s Hs) as [Hw1 Hs1].
  cbv zeta in Hw1, Hs1.
  destruct (RenameMember_stored mold (ACLName mnew) _ _ Hs1) as [_ Hs2].
  cbv zeta in Hs2. rewrite Hw1 in Hs2.
  eexists. split; [exact Hs2|].
  destruct (writable (adapter c)); [|by split].
  by apply memberRenamed_round_trip.
Qed.


Lemma RenameMember_round_trip_witness :
  let c1 := (RenameMember alicia (ACLName alice) (checker_on store_pinned)).2 in
  let c2 := (RenameMember alice (ACLName alicia) c1).2 in
  ∃ s2, stored (adapter c2) = Some s2 ∧ same_rules s2 store_pinned.
Proof.
  apply (RenameMember_round_trip alice alicia (checker_on store_pinned) store_pinned).
  - reflexivity.
  - intros t Ht Hn. vm_compute in Ht.
    repeat (apply elem_of_cons in Ht as [->|Ht]; [discriminate Hn|]).
    by apply elem_of_nil in Ht.
Defined.

(** The member rename leaves the edge of the old name behind: alice's
    membership in [role##ops] does not follow her to the new name. *)
Example RenameMember_keeps_edges :
  grouping (e (RenameMember alicia "alice"
                 (checker_on (mkEnforcer (policy store_pinned)
                                [("alice", "role##ops")]))).2)
  = [("alice", "role##ops")].
Proof. vm_compute. reflexivity. Qed.

End RenameMemberFacts.

(** ** Creator defaults *)

Section CreatorOnlyFacts.
Import RuleStoreFacts.
Context (DefaultACLs : list string).

Lemma EditItemPerm_one_outcome item (creator : Actor) p c :
  p ∈ DefaultACLs →
  (∃ c', EditItemPerm DefaultACLs item creator [p] addPerm c = (Ok (), c')) ∨
  (EditItemPerm DefaultACLs item creator [p] addPerm c).1 = Err PolicyLoadError ∨
  (EditItemPerm DefaultACLs item creator [p] addPerm c).1 = Err PolicySaveError.
Proof.
  intros Hp. destruct (stored (adapter c)) as [s|] eqn:Hs.
  - rewrite (EditItemPerm_run DefaultACLs item creator [p] addPerm c s Hs);
      [|by left|done|by repeat constructor].
    cbv zeta. destruct (writable (adapter c)); [left; eauto|by right; right].
  - right. left. cbv [EditItemPerm bind LoadPolicy]. by rewrite Hs.
Qed.

(** The loop of [CreatorOnly] over whitelisted permissions. *)
Lemma creator_loop item (creator : Actor) l c c' :
  (∀ p, p ∈ l → p ∈ DefaultACLs) →
  forEach l (λ p, EditItemPerm DefaultACLs item creator [p] addPerm) c = (Ok (), c') →
  match l with
  | [] => c' = c
  | _ :: _ =>
      ∃ s, stored (adapter c) = Some s ∧
           adapter c' = mkAdapter (Some (e c')) true ∧
           ∀ t, t ∈ policy (e c') ↔
                t ∈ policy s ∨ ∃ p, p ∈ l ∧ t = buildEnforcingSlice item creator p
  end.
Proof.
  revert c. induction l as [|p l IH]; intros c Hsub Hrun.
  - by injection Hrun as <-.
  - cbn [forEach] in Hrun. unfold bind in Hrun.
    destruct (EditItemPerm DefaultACLs item creator [p] addPerm c)
      as [[[]| |] c1] eqn:Hone; try discriminate Hrun.
    destruct (EditItemPerm_add_inv DefaultACLs item creator [p] c c1 Hone)
      as (s & Hs & _ & Ha1 & He1).
    cbn [fold_left] in He1.
    assert (∀ q, q ∈ l → q ∈ DefaultACLs) as Hsub' by (intros q Hq; apply Hsub; by right).
    specialize (IH c1 Hsub' Hrun). exists s. split; [done|].
    destruct l as [|p' l'].
    + subst c'. split; [done|]. intros t. rewrite He1, elem_of_AddPolicy.
      split.
      * intros [?| ->]; [by left|]. right. exists p. split; [left|done].
      * intros [?|(q & Hq & ->)]; [by left|].
        apply list_elem_of_singleton in Hq as ->. by right.
    + destruct IH as (s1 & Hs1 & Ha & Hin). split; [done|].
      rewrite Ha1 in Hs1. cbn [stored] in Hs1. injection Hs1 as <-.
      intros t. rewrite Hin, He1, elem_of_AddPolicy. split.
      * intros [[?| ->]|(q & Hq & ->)]; [by left| |].
        -- right. exists p. split; [left|done].
        -- right. exists q. split; [by right|done].
      * intros [?|(q & Hq & ->)]; [by left; left|].
        apply elem_of_cons in Hq as [->|Hq]; [by left; right|].
        right. by exists q.
Qed.

(** X22. Create, then check: once [CreatorOnly] has returned nil, the
    creator passes [CheckItemPerm] on the item for every permission of the
    whitelist. *)
Theorem CreatorOnly_then_check w item creator c c' :
  CreatorOnly DefaultACLs item creator c = (Ok (), c') →
  ∀ p, p ∈ DefaultACLs → (CheckItemPerm w item creator p c').1 = Ok true.
Proof.
  unfold CreatorOnly. unfold bind at 1, LoadPolicy.
  destruct (stored (adapter c)) as [s0|] eqn:Hs0; [|done].
  intros Hrun p Hp.
  apply creator_loop in Hrun; [|done].
  destruct DefaultACLs as [|p0 l]; [by apply elem_of_nil in Hp|].
  destruct Hrun as (s & _ & Ha & Hin).
  assert (stored (adapter c') = Some (e c')) as Hs' by by rewrite Ha.
  rewrite (CheckItemPerm_run w item creator p c' (e c') Hs').
  rewrite Enforce_present; [done|]. apply Hin. right. by exists p.
Qed.

Lemma creator_loop_outcomes item (creator : Actor) l c :
  (∀ p, p ∈ l → p ∈ DefaultACLs) →
  (forEach l (λ p, EditItemPerm DefaultACLs item creator [p] addPerm) c).1 = Ok () ∨
  (forEach l (λ p, EditItemPerm DefaultACLs item creator [p] addPerm) c).1
    = Err PolicyLoadError ∨
  (forEach l (λ p, EditItemPerm DefaultACLs item creator [p] addPerm) c).1
    = Err PolicySaveError.
Proof.
  revert c. induction l as [|p l IH]; intros c Hsub; [by left|].
  cbn [forEach]. unfold bind.
  destruct (EditItemPerm_one_outcome item creator p c) as [[c1 Hone]|[Hone|Hone]].
  - apply Hsub. left.
  - rewrite Hone. apply IH. intros q Hq. apply Hsub. by right.
  - destruct (EditItemPerm _ _ _ _ _ c) as [[[]| |] c1]; try discriminate Hone.
    injection Hone as ->. by right; left.
  - destruct (EditItemPerm _ _ _ _ _ c) as [[[]| |] c1]; try discriminate Hone.
    injection Hone as ->. by right; right.
Qed.

(** X23. [CreatorOnly] never panics and never trips over the permission
    checks of [EditItemPerm]: it returns nil or the error of a failed
    policy load or save. *)
Theorem CreatorOnly_outcomes item creator c :
  (CreatorOnly DefaultACLs item creator c).1 = Ok () ∨
  (CreatorOnly DefaultACLs item creator c).1 = Err PolicyLoadError ∨
  (CreatorOnly DefaultACLs item creator c).1 = Err PolicySaveError.
Proof.
  unfold CreatorOnly. unfold bind at 1 2 3, LoadPolicy.
  destruct (stored (adapter c)) as [s0|]; [|by right; left].
  by apply creator_loop_outcomes.
Qed.

End CreatorOnlyFacts.

Lemma CreatorOnly_then_check_witness :
  (CheckItemPerm acme_world node1 alice "grant"
     (CreatorOnly chef_perms node1 alice (checker_on store_node2)).2).1 = Ok true ∧
  "grant" ∈ chef_perms.
Proof.
  assert ("grant" ∈ chef_perms) as Hin by (vm_compute; repeat constructor).
  split; [|exact Hin].
  apply (CreatorOnly_then_check chef_perms acme_world node1 alice
           (checker_on store_node2)
           (CreatorOnly chef_perms node1 alice (checker_on store_node2)).2).
  - vm_compute. reflexivity.
  - exact Hin.
Defined.

(** ** More on snapshot assembly *)

Section SnapshotMore.
Import RuleStoreFacts.

Lemma assembleStep_dom item comparer tmp p k :
  is_Some (assembleStep item comparer tmp p !! k) ↔
  is_Some (tmp !! k) ∨
  (comparer item p = true ∧ condEffect p ≠ denyEffect ∧ condPerm p = k).
Proof.
  unfold assembleStep. destruct (comparer item p).
  2: { split; [by left|]. by intros [?|[[=] _]]. }
  destruct (decide (condEffect p = denyEffect)) as [Hd|Hd].
  { rewrite bool_decide_eq_true_2 by done. split; [by left|]. intros [?|?]; tauto. }
  rewrite bool_decide_eq_false_2 by done.
  destruct (HasPrefix (condGroup p) "role##");
    rewrite lookup_insert_is_Some; destruct (decide (condPerm p = k)); tauto.
Qed.

Lemma assembleACL_dom item l comparer k :
  is_Some (Perms (assembleACL item l comparer) !! k) ↔
  ∃ p, p ∈ l ∧ comparer item p = true ∧ condEffect p ≠ denyEffect ∧ condPerm p = k.
Proof.
  unfold assembleACL. cbn [Perms].
  assert (∀ tmp : gmap string ACLItem,
            is_Some (fold_left (assembleStep item comparer) l tmp !! k) ↔
            is_Some (tmp !! k) ∨
            ∃ p, p ∈ l ∧ comparer item p = true ∧ condEffect p ≠ denyEffect ∧
                 condPerm p = k) as Hgen.
  { induction l as [|q l IH]; intros tmp; cbn [fold_left].
    - split; [by left|]. intros [?|(p & Hp & _)]; [done|]. by apply elem_of_nil in Hp.
    - rewrite IH, assembleStep_dom. split.
      + intros [[?|?]|(p & Hp & ?)]; [by left| |].
        * right. exists q. split; [left|done].
        * right. exists p. split; [by right|done].
      + intros [?|(p & Hp & Hrest)]; [by left; left|].
        apply elem_of_cons in Hp as [->|Hp]; [by left; right|].
        right. by exists p. }
  rewrite Hgen, lookup_empty. split; [|by right].
  intros [[? [=]]|?]. done.
Qed.

(** The override loop fails exactly on a permission of the specific
    snapshot that the general one lacks, and otherwise keeps the
    permissions of the general snapshot. *)
Lemma override_fold gen itm :
  match map_fold overrideStep (Some gen) itm with
  | Some m => (∀ k, is_Some (itm !! k) → is_Some (gen !! k)) ∧
              (∀ k, is_Some (m !! k) ↔ is_Some (gen !! k))
  | None => ∃ k, is_Some (itm !! k) ∧ gen !! k = None
  end.
Proof.
  apply (map_fold_weak_ind
           (λ r (m' : gmap string ACLItem),
              match r with
              | Some m => (∀ k, is_Some (m' !! k) → is_Some (gen !! k)) ∧
                          (∀ k, is_Some (m !! k) ↔ is_Some (gen !! k))
              | None => ∃ k, is_Some (m' !! k) ∧ gen !! k = None
              end)).
  - split; [|done]. intros k. rewrite lookup_empty. by intros [? [=]].
  - intros i x m' r Hfresh IH. destruct r as [m|]; cbn [overrideStep mbind option_bind].
    + destruct IH as [Hsub Hdom].
      destruct (m !! i) as [g|] eqn:Hi.
      * split.
        -- intros k. rewrite lookup_insert_is_Some.
           intros [<-|[_ Hk]]; [|by apply Hsub]. apply Hdom. by rewrite Hi.
        -- intros k. rewrite lookup_insert_is_Some, <- Hdom.
           destruct (decide (i = k)) as [<-|]; [|tauto].
           rewrite Hi. split; [by eauto|by left].
      * exists i. rewrite lookup_insert_eq. split; [done|].
        destruct (gen !! i) eqn:Hg; [|done].
        assert (is_Some (m !! i)) as [? Hsome] by (apply Hdom; by rewrite Hg).
        congruence.
    + destruct IH as (k & Hk & Hg). exists k. split; [|done].
      rewrite lookup_insert_is_Some. destruct (decide (i = k)); auto.
Qed.

(** When [GetItemACL] panics. *)
Lemma GetItemACL_panics_iff item c s :
  stored (adapter c) = Some s →
  (GetItemACL item c).1 = Panic ↔
  ¬ (ContainerKind item = "containers" ∧ ContainerType item = "containers") ∧
  ∃ p, p ∈ policy s ∧
       is_item (ContainerKind item) (ContainerType item) (GetName item) p ∧
       condEffect p ≠ denyEffect ∧
       ∀ q, q ∈ policy s →
            (if bool_decide (ContainerKind item = "groups")
             then condName q = "$$default$$"
             else condSubkind q = ContainerType item) →
            condKind q = ContainerKind item → condEffect q ≠ denyEffect →
            condPerm q ≠ condPerm p.
Proof.
  intros Hs. rewrite (GetItemACL_run item c s Hs). cbv zeta. cbn [fst].
  set (filteredItem := RuleStore.GetFilteredPolicy s condNamePos (GetName item)).
  set (filteredType :=
         if bool_decide (ContainerKind item = "groups")
         then RuleStore.GetFilteredPolicy s condNamePos "$$default$$"
         else RuleStore.GetFilteredPolicy s condSubkindPos (ContainerType item)).
  assert (∀ q, q ∈ filteredType ↔
               q ∈ policy s ∧
               if bool_decide (ContainerKind item = "groups")
               then condName q = "$$default$$"
               else condSubkind q = ContainerType item) as Hft.
  { intros q. subst filteredType.
    destruct (bool_decide (ContainerKind item = "groups"));
      by rewrite elem_of_GetFilteredPolicy. }
  assert (∀ k, is_Some (Perms (assembleACL item filteredItem itemCompare) !! k) ↔
               ∃ p, p ∈ policy s ∧
                    is_item (ContainerKind item) (ContainerType item) (GetName item) p ∧
                    condEffect p ≠ denyEffect ∧ condPerm p = k) as Hitem.
  { intros k. rewrite assembleACL_dom. unfold itemCompare, is_item.
    split; intros (p & Hp & Hrest); exists p.
    - apply elem_of_GetFilteredPolicy in Hp as [Hp Hn]. simpl in Hn.
      destruct Hrest as (Hc & ? & ?).
      rewrite andb_true_iff, !bool_decide_eq_true in Hc. tauto.
    - destruct Hrest as ((Hn & Hk & Hty) & ? & ?). split_and!; try done.
      + by apply elem_of_GetFilteredPolicy.
      + by rewrite !bool_decide_eq_true_2. }
  destruct (decide (ContainerKind item = "containers" ∧
                    ContainerType item = "containers")) as [Hcc|Hcc].
  { destruct Hcc as [Hk Hty].
    rewrite (bool_decide_eq_true_2 _ Hk), (bool_decide_eq_true_2 _ Hty). cbn [andb].
    split; [|tauto]. intros Hp.
    destruct (bool_decide (filteredItem = [] ∧ filteredType = []));
      discriminate Hp. }
  assert (bool_decide (ContainerKind item = "containers") &&
          bool_decide (ContainerType item = "containers") = false) as Hccb.
  { apply andb_false_iff.
    destruct (decide (ContainerKind item = "containers")) as [Hk|Hk];
      [right|left]; apply bool_decide_eq_false_2; tauto. }
  rewrite Hccb.
  assert (∀ k, is_Some (Perms (assembleACL item filteredType genCompare) !! k) ↔
               ∃ q, q ∈ filteredType ∧ condKind q = ContainerKind item ∧
                    condEffect q ≠ denyEffect ∧ condPerm q = k) as Hgen.
  { intros k. rewrite assembleACL_dom. unfold genCompare. rewrite Hccb.
    split; intros (q & Hq & Hc & Hd & Hperm); exists q.
    - apply bool_decide_eq_true in Hc. by split_and!.
    - split_and!; try done. by apply bool_decide_eq_true_2. }
  pose proof (override_fold (Perms (assembleACL item filteredType genCompare))
                (Perms (assembleACL item filteredItem itemCompare))) as Hfold.
  split.
  - intros Hpanic. split; [done|].
    destruct (bool_decide (filteredItem = [] ∧ filteredType = [])); [done|].
    destruct (map_fold _ _ _) as [m|]; [done|].
    destruct Hfold as (k & Hk & Hnone).
    apply Hitem in Hk as (p & Hp & Hi & Hd & <-).
    exists p. split_and!; try done.
    intros q Hq Hsel Hkind Hqd Heq.
    assert (is_Some (Perms (assembleACL item filteredType genCompare) !! condPerm p))
      as [? Hsome]; [|congruence].
    apply Hgen. exists q. split_and!; try done. apply Hft. by split.
  - intros (_ & p & Hp & Hi & Hd & Hno).
    assert (filteredItem ≠ []) as Hne.
    { intros Hnil. assert (p ∈ filteredItem) as Hin.
      { apply elem_of_GetFilteredPolicy. split; [done|]. by destruct Hi. }
      rewrite Hnil in Hin. by apply elem_of_nil in Hin. }
    rewrite bool_decide_eq_false_2 by tauto.
    destruct (map_fold _ _ _) as [m|]; [|done].
    destruct Hfold as [Hsub _].
    destruct (Hsub (condPerm p)) as [g Hg].
    { apply Hitem. by exists p. }
    assert (is_Some (Perms (assembleACL item filteredType genCompare) !! condPerm p))
      as Hsome by by rewrite Hg.
    apply Hgen in Hsome as (q & Hq & Hkind & Hqd & Heq).
    apply Hft in Hq as [Hq Hsel]. by destruct (Hno q Hq Hsel Hkind Hqd).
Qed.

(** X24. For an item that is not a group, [GetItemACL] never panics: every
    permission of the item-specific snapshot is also one of the general
    snapshot, so the override loop finds its entry. *)
Theorem GetItemACL_no_panic item c :
  ContainerKind item ≠ "groups" →
  (GetItemACL item c).1 ≠ Panic.
Proof.
  intros Hkind. destruct (stored (adapter c)) as [s|] eqn:Hs.
  - rewrite (GetItemACL_panics_iff item c s Hs).
    intros (_ & p & Hp & (Hn & Hk & Hty) & Hd & Hno).
    apply (Hno p Hp); try done.
    by rewrite bool_decide_eq_false_2.
  - cbv [GetItemACL bind LoadPolicy]. by rewrite Hs.
Qed.

(** X25. For a group, [GetItemACL] panics exactly when the group has a
    tuple, of effect other than deny, under a permission for which no
    [$$default$$] tuple of kind groups and effect other than deny
    exists: the override loop dereferences the missing general entry. *)
Theorem GetItemACL_group_panic item c s :
  stored (adapter c) = Some s →
  ContainerKind item = "groups" →
  (GetItemACL item c).1 = Panic ↔
  ∃ p, p ∈ policy s ∧
       is_item (ContainerKind item) (ContainerType item) (GetName item) p ∧
       condEffect p ≠ denyEffect ∧
       ∀ q, q ∈ policy s → condName q = "$$default$$" → condKind q = "groups" →
            condEffect q ≠ denyEffect → condPerm q ≠ condPerm p.
Proof.
  intros Hs Hkind. rewrite (GetItemACL_panics_iff item c s Hs).
  rewrite (bool_decide_eq_true_2 _ Hkind). rewrite Hkind. split.
  - intros (_ & p & Hrest). by exists p.
  - intros (p & Hrest). split; [by intros [[=] _]|]. by exists p.
Qed.

End SnapshotMore.

Section SnapshotShape.
Import RuleStoreFacts.

Lemma assembleACL_keyed item l comparer :
  keyed (Perms (assembleACL item l comparer)).
Proof.
  unfold assembleACL. cbn [Perms].
  assert (keyed (∅ : gmap string ACLItem)) as Hinit.
  { intros k v Hk. by rewrite lookup_empty in Hk. }
  revert Hinit. generalize (∅ : gmap string ACLItem) as tmp.
  induction l as [|p l IH]; intros tmp Htmp; cbn [fold_left]; [done|].
  apply IH. unfold assembleStep.
  destruct (comparer item p); [|done].
  destruct (bool_decide (condEffect p = denyEffect)); [done|].
  assert (Perm (match tmp !! condPerm p with
                | Some it => it
                | None => mkACLItem (condPerm p) (condEffect p) [] []
                end) = condPerm p) as Hcur.
  { destruct (tmp !! condPerm p) as [it|] eqn:Hit; [by apply Htmp|done]. }
  destruct (HasPrefix (condGroup p) "role##");
    intros k v; rewrite lookup_insert; case_decide as Hk;
    try (by apply Htmp); subst k; by intros [= <-].
Qed.

Lemma override_keyed gen itm m :
  keyed gen → keyed itm →
  map_fold overrideStep (Some gen) itm = Some m → keyed m.
Proof.
  intros Hgen Hitm. revert m.
  cut ((λ r (itm' : gmap string ACLItem),
          keyed itm' → ∀ m, r = Some m → keyed m)
         (map_fold overrideStep (Some gen) itm) itm); [by auto|].
  apply (map_fold_weak_ind _ overrideStep (Some gen)).
  - intros _ m [= <-]. done.
  - intros k v itm' r Hfresh IH Hall m. unfold overrideStep.
    destruct r as [acc|]; simpl; [|done].
    destruct (acc !! k) as [g|] eqn:Hg; [|done].
    intros [= <-].
    assert (keyed acc) as Hacc.
    { apply IH; [|done]. intros k' v' Hk'. apply Hall.
      rewrite lookup_insert_ne; [done|]. intros ->. congruence. }
    intros k' v'. rewrite lookup_insert. case_decide as Hk; [|by apply Hacc].
    subst k'. intros [= <-]. simpl. apply Hall. by rewrite lookup_insert_eq.
Qed.


Lemma filter_nil_iff {A} (P : A → Prop) `{∀ x, Decision (P x)} (l : list A) :
  filter P l = [] ↔ ∀ x, x ∈ l → ¬ P x.
Proof.
  split.
  - intros Hnil x Hx HP.
    assert (x ∈ filter P l) as Hin by by apply list_elem_of_filter.
    rewrite Hnil in Hin. by apply elem_of_nil in Hin.
  - intros Hall. apply elem_of_nil_inv. intros x Hx.
    apply list_elem_of_filter in Hx as [HP Hx]. by apply (Hall x).
Qed.

(** X27. [GetItemACL] reports [NotFound] exactly when no tuple of the rule
    set bears the item's name and none passes the type-wide filter: the
    name [$$default$$] for a group, the item's type for anything else.
    Tuples of another kind under the same name or type are enough to get
    a snapshot, possibly an empty one. *)
Theorem GetItemACL_not_found item c s :
  stored (adapter c) = Some s →
  (GetItemACL item c).1 = Err NotFound ↔
  (∀ t, t ∈ policy s → condName t ≠ GetName item) ∧
  (∀ t, t ∈ policy s →
        if bool_decide (ContainerKind item = "groups")
        then condName t ≠ "$$default$$"
        else condSubkind t ≠ ContainerType item).
Proof.
  intros Hs. rewrite (GetItemACL_run item c s Hs). cbv zeta. cbn [fst].
  assert ((RuleStore.GetFilteredPolicy s condNamePos (GetName item) = [] ∧
           (if bool_decide (ContainerKind item = "groups")
            then RuleStore.GetFilteredPolicy s condNamePos "$$default$$"
            else RuleStore.GetFilteredPolicy s condSubkindPos (ContainerType item))
           = []) ↔
          (∀ t, t ∈ policy s → condName t ≠ GetName item) ∧
          (∀ t, t ∈ policy s →
                if bool_decide (ContainerKind item = "groups")
                then condName t ≠ "$$default$$"
                else condSubkind t ≠ ContainerType item)) as Hiff.
  { unfold RuleStore.GetFilteredPolicy.
    destruct (bool_decide (ContainerKind item = "groups"));
      by rewrite !filter_nil_iff. }
  rewrite <- Hiff.
  destruct (decide (RuleStore.GetFilteredPolicy s condNamePos (GetName item) = [] ∧
                    (if bool_decide (ContainerKind item = "groups")
                     then RuleStore.GetFilteredPolicy s condNamePos "$$default$$"
                     else RuleStore.GetFilteredPolicy s condSubkindPos
                            (ContainerType item)) = [])) as [Hnil|Hnil].
  - by rewrite bool_decide_eq_true_2.
  - rewrite bool_decide_eq_false_2 by done. split; [|done].
    destruct (_ && _); [done|]. by destruct (map_fold _ _ _).
Qed.

Lemma GetItemACL_no_panic_witness :
  ContainerKind node1 = "containers" ∧
  (GetItemACL node1 (checker_on store_with_deny)).1 ≠ Panic.
Proof.
  split; [reflexivity|].
  apply (GetItemACL_no_panic node1 (checker_on store_with_deny)).
  discriminate.
Defined.

Lemma GetItemACL_group_panic_witness :
  (GetItemACL admins (checker_on store_group_odd)).1 = Panic.
Proof.
  apply (GetItemACL_group_panic admins (checker_on store_group_odd) store_group_odd).
  - reflexivity.
  - reflexivity.
  - exists (mkTuple "alice" "groups" "groups" "admins" "frobnicate" "allow").
    split_and!; [left|by split_and!|discriminate|].
    intros q Hq Hn _ _ Hperm. vm_compute in Hq.
    apply elem_of_cons in Hq as [->|Hq]; [discriminate Hn|].
    apply elem_of_cons in Hq as [->|Hq]; [discriminate Hperm|].
    by apply elem_of_nil in Hq.
Defined.


Lemma GetItemACL_not_found_witness :
  (GetItemACL node1 (checker_on store_denyall)).1 = Err NotFound.
Proof.
  apply (GetItemACL_not_found node1 (checker_on store_denyall) store_denyall).
  - reflexivity.
  - split; intros t Ht; vm_compute in Ht;
      repeat (apply elem_of_cons in Ht as [->|Ht]; [discriminate|]);
      by apply elem_of_nil in Ht.
Defined.

End SnapshotShape.

(** ** Reconciliation, then evaluation *)

Section ReconcileThenEvaluate.
Import RuleStore RuleStoreFacts.

(** What a successful reconciliation leaves behind. *)
Lemma EditFromJSON_Ok_inv w item perm data na ng c c' :
  well_formed data perm na ng →
  EditFromJSON w item perm data c = (Ok (), c') →
  Forall (λ act, is_Some (GetActor w act)) na ∧
  Forall (λ gr, is_Some (groupGet w gr)) ng ∧
  ∃ s, stored (adapter c) = Some s ∧
       c' = mkChecker (org c) (reconciled w item perm na ng s)
              (mkAdapter (Some (reconciled w item perm na ng s)) true).
Proof.
  intros Hwf Hrun.
  destruct (decide (Forall (λ act, is_Some (GetActor w act)) na ∧
                    Forall (λ gr, is_Some (groupGet w gr)) ng)) as [[Hna Hng]|Hres].
  2: { apply (EditFromJSON_unresolved w item perm data na ng c Hwf) in Hres.
       by rewrite Hrun in Hres. }
  split_and!; [done|done|].
  rewrite (EditFromJSON_run w item perm data na ng c Hwf Hna Hng) in Hrun.
  destruct (stored (adapter c)) as [s|]; [|discriminate Hrun].
  cbv zeta in Hrun. destruct (writable (adapter c)); [|discriminate Hrun].
  injection Hrun as <-. by exists s.
Qed.

Lemma role_not_denyall s : HasPrefix s "role##" = true → HasPrefix s "denyall##" = false.
Proof.
  unfold HasPrefix. destruct s as [|a s]; [done|]. cbn [String.prefix].
  destruct (ascii_dec "r" a) as [<-|]; [|done]. intros _.
  by destruct (ascii_dec "d" "r") as [Heq|].
Qed.

Lemma group_subject_prefix gr : HasPrefix ("role##" +:+ gr) "role##" = true.
Proof.
  unfold HasPrefix. cbn [String.prefix String.append].
  repeat (match goal with
          | |- context [ascii_dec ?a ?a] =>
              destruct (ascii_dec a a) as [_|Hne]; [|by destruct Hne]
          end).
  by destruct gr.
Qed.

Lemma group_subject_trim gr : TrimPrefix ("role##" +:+ gr) "role##" = gr.
Proof. unfold TrimPrefix. by rewrite group_subject_prefix. Qed.

(** The tuple of a wanted group is in the reconciled rule set. *)
Lemma group_tuple_reconciled w item perm na ng s gr :
  Forall (λ gr, is_Some (groupGet w gr)) ng →
  gr ∈ ng →
  mkTuple ("role##" +:+ gr) (ContainerType item) (ContainerKind item)
          (GetName item) perm enforceEffect
    ∈ policy (reconciled w item perm na ng s).
Proof.
  intros Hng Hgr. apply elem_of_reconciled. cbv zeta.
  assert (mkTuple ("role##" +:+ gr) (ContainerType item) (ContainerKind item)
            (GetName item) perm enforceEffect
            ∈ omap (groupTuple w item perm) ng) as Hin.
  { apply list_elem_of_omap. exists gr. split; [done|].
    rewrite Forall_forall in Hng. destruct (Hng gr Hgr) as [g Hg].
    unfold groupTuple. rewrite Hg. simpl.
    apply groupGet_name in Hg as <-. done. }
  destruct (bool_decide (ContainerKind item = "groups")); [|by auto].
  destruct ng as [|gr0 ng']; [by apply elem_of_nil in Hgr|].
  split; [by auto|]. done.
Qed.

(** X28. Reconcile, then check: after [EditFromJSON] has returned nil,
    every wanted actor whose ACL name is not the deny-all sentinel, and
    every actor that reaches the role of a wanted group through membership
    edges, passes [CheckItemPerm] for the item and permission. *)
Theorem EditFromJSON_then_check w w' item perm data na ng c c' :
  well_formed data perm na ng →
  EditFromJSON w item perm data c = (Ok (), c') →
  (∀ act a, act ∈ na → GetActor w act = Some a →
            ACLName a ≠ "denyall##groups" →
            (CheckItemPerm w' item a perm c').1 = Ok true) ∧
  (∀ gr (doer : Actor), gr ∈ ng →
        role_path (grouping (e c')) (ACLName doer) ("role##" +:+ gr) →
        (CheckItemPerm w' item doer perm c').1 = Ok true).
Proof.
  intros Hwf Hrun.
  destruct (EditFromJSON_Ok_inv w item perm data na ng c c' Hwf Hrun)
    as (Hna & Hng & s & Hs & ->).
  set (s' := reconciled w item perm na ng s).
  assert (stored (adapter (mkChecker (org c) s' (mkAdapter (Some s') true)))
          = Some s') as Hs' by done.
  split.
  - intros act a Hact Ha Hne.
    rewrite (CheckItemPerm_run w' item a perm _ s' Hs').
    rewrite Enforce_present; [done|].
    apply elem_of_reconciled. cbv zeta.
    assert (buildEnforcingSlice item a perm ∈ omap (actorTuple w item perm) na) as Hin.
    { apply list_elem_of_omap. exists act. split; [done|].
      unfold actorTuple. by rewrite Ha. }
    destruct (bool_decide (ContainerKind item = "groups")); [|by auto].
    destruct ng; [by auto|]. split; [by auto|].
    intros [= Heq]. by apply Hne.
  - intros gr doer Hgr Hpath. cbn [e] in Hpath.
    rewrite (CheckItemPerm_run w' item doer perm _ s' Hs').
    assert (RuleStore.Enforce s' (buildEnforcingSlice item doer perm) = true) as ->;
      [|done].
    apply Enforce_spec. eexists. split; [by apply group_tuple_reconciled|].
    by split_and!.
Qed.

End ReconcileThenEvaluate.

(** ** Reconciliation, then snapshot *)

Section ReconcileThenSnapshot.
Import RuleStore RuleStoreFacts.

Lemma assembleStep_groups item comparer tmp q k g :
  (∃ v, assembleStep item comparer tmp q !! k = Some v ∧ g ∈ Groups v) ↔
  (∃ v, tmp !! k = Some v ∧ g ∈ Groups v) ∨
  (comparer item q = true ∧ condEffect q ≠ denyEffect ∧ condPerm q = k ∧
   HasPrefix (condGroup q) "role##" = true ∧ TrimPrefix (condGroup q) "role##" = g).
Proof.
  unfold assembleStep. destruct (comparer item q).
  2: { split; [by left|]. by intros [?|[[=] _]]. }
  destruct (decide (condEffect q = denyEffect)) as [Hd|Hd].
  { rewrite bool_decide_eq_true_2 by done. split; [by left|]. intros [?|?]; tauto. }
  rewrite bool_decide_eq_false_2 by done.
  set (cur := match tmp !! condPerm q with
              | Some it => it
              | None => mkACLItem (condPerm q) (condEffect q) [] []
              end).
  assert (∀ x, x ∈ Groups cur ↔ ∃ v, tmp !! condPerm q = Some v ∧ x ∈ Groups v) as Hcur.
  { intros x. subst cur. destruct (tmp !! condPerm q) as [it|].
    - split; [by eauto|]. by intros (v & [= <-] & ?).
    - simpl. rewrite elem_of_nil. split; [done|]. by intros (v & [=] & _). }
  destruct (HasPrefix (condGroup q) "role##") eqn:Hrole.
  - split.
    + intros (v & Hv & Hg). rewrite lookup_insert in Hv. case_decide as Hk.
      * injection Hv as <-. simpl in Hg. subst k.
        apply elem_of_app in Hg as [Hg|Hg].
        -- left. by apply Hcur.
        -- apply list_elem_of_singleton in Hg as ->. by right.
      * left. eauto.
    + intros [(v & Hv & Hg)|(_ & _ & Hk & _ & Hg)].
      * destruct (decide (condPerm q = k)) as [Hk|Hk].
        -- eexists. rewrite lookup_insert, decide_True by done.
           split; [done|]. simpl. apply elem_of_app. left. apply Hcur.
           subst k. eauto.
        -- exists v. by rewrite lookup_insert_ne.
      * eexists. rewrite lookup_insert, decide_True by done.
        split; [done|]. simpl. apply elem_of_app. right. rewrite Hg. left.
  - split.
    + intros (v & Hv & Hg). rewrite lookup_insert in Hv. case_decide as Hk.
      * injection Hv as <-. simpl in Hg. subst k. left. by apply Hcur.
      * left. eauto.
    + intros [(v & Hv & Hg)|(_ & _ & _ & [=] & _)].
      destruct (decide (condPerm q = k)) as [Hk|Hk].
      * eexists. rewrite lookup_insert, decide_True by done.
        split; [done|]. simpl. apply Hcur. subst k. eauto.
      * exists v. by rewrite lookup_insert_ne.
Qed.

(** The groups an interim snapshot lists under a permission. *)
Lemma assembleACL_groups item l comparer k g :
  (∃ v, Perms (assembleACL item l comparer) !! k = Some v ∧ g ∈ Groups v) ↔
  ∃ p, p ∈ l ∧ comparer item p = true ∧ condEffect p ≠ denyEffect ∧
       condPerm p = k ∧ HasPrefix (condGroup p) "role##" = true ∧
       TrimPrefix (condGroup p) "role##" = g.
Proof.
  unfold assembleACL. cbn [Perms].
  assert (∀ tmp : gmap string ACLItem,
            (∃ v, fold_left (assembleStep item comparer) l tmp !! k = Some v ∧
                  g ∈ Groups v) ↔
            (∃ v, tmp !! k = Some v ∧ g ∈ Groups v) ∨
            ∃ p, p ∈ l ∧ comparer item p = true ∧ condEffect p ≠ denyEffect ∧
                 condPerm p = k ∧ HasPrefix (condGroup p) "role##" = true ∧
                 TrimPrefix (condGroup p) "role##" = g) as Hgen.
  { induction l as [|q l IH]; intros tmp; cbn [fold_left].
    - split; [by left|]. intros [?|(p & Hp & _)]; [done|]. by apply elem_of_nil in Hp.
    - rewrite IH, assembleStep_groups. split.
      + intros [[?|?]|(p & Hp & ?)]; [by left| |].
        * right. exists q. split; [left|done].
        * right. exists p. split; [by right|done].
      + intros [?|(p & Hp & Hrest)]; [by left; left|].
        apply elem_of_cons in Hp as [->|Hp]; [by left; right|].
        right. by exists p. }
  rewrite Hgen. split; [|by right].
  intros [(v & Hv & _)|?]; [|done]. by rewrite lookup_empty in Hv.
Qed.

(** The entry the override loop leaves under a permission of the specific
    snapshot. *)
Lemma override_lookup gen itm m :
  map_fold overrideStep (Some gen) itm = Some m →
  ∀ k v, itm !! k = Some v →
         ∃ g, gen !! k = Some g ∧
              m !! k = Some (mkACLItem (Perm v) (Effect v)
                               (match Actors v with [] => Actors g | _ => Actors v end)
                               (match Groups v with [] => Groups g | _ => Groups v end)).
Proof.
  revert m.
  cut ((λ r (itm' : gmap string ACLItem),
          ∀ m, r = Some m →
               (∀ k v, itm' !! k = Some v →
                  ∃ g, gen !! k = Some g ∧
                       m !! k = Some (mkACLItem (Perm v) (Effect v)
                                  (match Actors v with [] => Actors g | _ => Actors v end)
                                  (match Groups v with [] => Groups g | _ => Groups v end))) ∧
               (∀ k, itm' !! k = None → m !! k = gen !! k))
         (map_fold overrideStep (Some gen) itm) itm).
  { intros Hcut m Hm. by apply Hcut. }
  apply (map_fold_weak_ind _ overrideStep (Some gen)).
  - intros m [= <-]. split; [|done]. intros k v Hk. by rewrite lookup_empty in Hk.
  - intros i x itm' r Hfresh IH m. unfold overrideStep.
    destruct r as [acc|]; simpl; [|done].
    destruct (IH acc eq_refl) as [Hsome Hnone].
    destruct (acc !! i) as [g0|] eqn:Hi; [|done].
    intros [= <-]. rewrite (Hnone i Hfresh) in Hi. split.
    + intros k v. rewrite lookup_insert. case_decide as Hk.
      * subst k. intros [= <-]. exists g0. by rewrite lookup_insert_eq.
      * intros Hv. destruct (Hsome k v Hv) as (g & Hg & Hm).
        exists g. by rewrite lookup_insert_ne.
    + intros k. rewrite lookup_insert. case_decide as Hk; [done|].
      intros Hk'. rewrite lookup_insert_ne by done. by apply Hnone.
Qed.

Lemma GetActor_known w act a : GetActor w act = Some a → a ∈ actors w.
Proof. unfold GetActor. intros [Hin _]%find_some. by apply list_elem_of_In. Qed.

(** X29. Reconcile, then read back: when no actor of the organization has
    an ACL name starting with [role##], the snapshot [GetItemACL] returns
    right after a successful [EditFromJSON] with wanted groups lists, under
    that permission, exactly the wanted groups. *)
Theorem EditFromJSON_then_GetItemACL w item perm data na ng c c' acl c'' :
  well_formed data perm na ng →
  ng ≠ [] →
  Forall (λ a, HasPrefix (ACLName a) "role##" = false) (actors w) →
  EditFromJSON w item perm data c = (Ok (), c') →
  GetItemACL item c' = (Ok acl, c'') →
  ∃ v, Perms acl !! perm = Some v ∧ ∀ g, g ∈ Groups v ↔ g ∈ ng.
Proof.
  intros Hwf Hne Hactors Hedit Hget.
  destruct (EditFromJSON_Ok_inv w item perm data na ng c c' Hwf Hedit)
    as (Hna & Hng & s & Hs & ->).
  set (s' := reconciled w item perm na ng s) in *.
  assert (stored (adapter (mkChecker (org c) s' (mkAdapter (Some s') true)))
          = Some s') as Hs' by done.
  rewrite (GetItemACL_run item _ s' Hs') in Hget. cbv zeta in Hget.
  destruct (bool_decide (_ ∧ _)); [discriminate Hget|].
  set (itemPerms := Perms (assembleACL item
                             (RuleStore.GetFilteredPolicy s' condNamePos (GetName item))
                             itemCompare)) in *.
  (* the groups of the item-specific entry *)
  assert (∀ g, (∃ v, itemPerms !! perm = Some v ∧ g ∈ Groups v) ↔ g ∈ ng) as Hgroups.
  { intros g. subst itemPerms. rewrite assembleACL_groups. split.
    - intros (p & Hp & Hcmp & Hd & Hperm & Hrole & Htrim).
      apply elem_of_GetFilteredPolicy in Hp as [Hp Hname]. simpl in Hname.
      unfold itemCompare in Hcmp.
      rewrite andb_true_iff, !bool_decide_eq_true in Hcmp. destruct Hcmp as [Hk Hty].
      assert ((p ∈ policy s ∧ ¬ dropped item perm na ng p) ∨
              p ∈ omap (actorTuple w item perm) na ∨
              p ∈ omap (groupTuple w item perm) ng) as Hkept.
      { apply elem_of_reconciled in Hp. cbv zeta in Hp.
        destruct (bool_decide (ContainerKind item = "groups")); [|done].
        destruct ng; [done|]. by destruct Hp. }
      destruct Hkept as [[Hps Hnd]|[Hin|Hin]].
      + destruct (decide (g ∈ ng)) as [|Hg]; [done|]. destruct Hnd.
        split; [done|]. unfold unwanted.
        rewrite !bool_decide_eq_true_2 by done.
        rewrite (role_not_denyall _ Hrole), Hrole, Htrim.
        unfold StringPresentInSlice. by rewrite bool_decide_eq_false_2.
      + apply list_elem_of_omap in Hin as (act & Hact & Hin).
        unfold actorTuple in Hin.
        destruct (GetActor w act) as [a|] eqn:Ha; [|done].
        injection Hin as <-. simpl in Hrole.
        rewrite Forall_forall in Hactors.
        rewrite (Hactors a (GetActor_known w act a Ha)) in Hrole. done.
      + apply list_elem_of_omap in Hin as (gr & Hgr & Hin).
        unfold groupTuple in Hin.
        destruct (groupGet w gr) as [g0|] eqn:Hg0; [|done].
        injection Hin as <-. simpl in Htrim.
        apply groupGet_name in Hg0.
        change (ACLName g0) with ("role##" +:+ groupName g0) in Htrim.
        rewrite Hg0, group_subject_trim in Htrim. by subst g.
    - intros Hg. eexists. split_and!.
      + apply elem_of_GetFilteredPolicy. split.
        * by apply (group_tuple_reconciled w item perm na ng s g).
        * done.
      + unfold itemCompare. simpl. by rewrite !bool_decide_eq_true_2.
      + done.
      + done.
      + apply group_subject_prefix.
      + apply group_subject_trim. }
  destruct ng as [|gr0 ng'] eqn:Hngeq; [done|]. rewrite <- Hngeq in *.
  assert (gr0 ∈ ng) as Hgr0 by (rewrite Hngeq; left).
  destruct (proj2 (Hgroups gr0) Hgr0) as (vi & Hvi & Hgr0in).
  assert (∀ g, g ∈ Groups vi ↔ g ∈ ng) as Hvi_groups.
  { intros g. rewrite <- Hgroups. split; [by eauto|].
    intros (v & Hv & ?). congruence. }
  assert (∀ (m : gmap string ACLItem) v0,
            m !! perm = Some v0 → Groups v0 = Groups vi →
                  ∃ v, (finishItem <$> m) !! perm = Some v ∧
                       ∀ g, g ∈ Groups v ↔ g ∈ ng) as Hfinish.
  { intros m v0 Hm Heq. exists (finishItem v0). rewrite lookup_fmap, Hm.
    split; [done|]. intros g. unfold finishItem, RemoveDupStrings. simpl.
    by rewrite elem_of_remove_dups, Heq. }
  destruct (bool_decide (ContainerKind item = "containers") &&
            bool_decide (ContainerType item = "containers")).
  - injection Hget as <- _. cbn [Perms]. by apply (Hfinish itemPerms vi).
  - destruct (map_fold _ _ _) as [m|] eqn:Hfold; [|discriminate Hget].
    injection Hget as <- _. cbn [Perms].
    destruct (override_lookup _ _ _ Hfold perm vi Hvi) as (g0 & _ & Hm).
    eapply Hfinish; [exact Hm|]. simpl.
    destruct (Groups vi) eqn:Hnil; [|done]. by apply elem_of_nil in Hgr0in.
Qed.

End ReconcileThenSnapshot.

Section ReconcileThenWitnesses.

Lemma EditFromJSON_then_check_witness :
  let c' := (EditFromJSON acme_world admins "update" payload_ops
               (checker_on store_denyall)).2 in
  (∀ act a, act ∈ ["alice"] → GetActor acme_world act = Some a →
            ACLName a ≠ "denyall##groups" →
            (CheckItemPerm acme_world admins a "update" c').1 = Ok true) ∧
  (∀ gr (doer : Actor), gr ∈ ["ops"] →
        RuleStore.role_path (grouping (e c')) (ACLName doer) ("role##" +:+ gr) →
        (CheckItemPerm acme_world admins doer "update" c').1 = Ok true).
Proof.
  apply (EditFromJSON_then_check acme_world acme_world admins "update" payload_ops
           ["alice"] ["ops"] (checker_on store_denyall)).
  - apply payload_ops_well_formed.
  - vm_compute. reflexivity.
Defined.

Lemma EditFromJSON_then_GetItemACL_witness :
  ∃ v, Perms (mkACL {[ "update" := mkACLItem "update" "allow"
                                     ["alice"; "pivotal"] ["ops"] ]}) !! "update"
       = Some v ∧
       ∀ g, g ∈ Groups v ↔ g ∈ ["ops"].
Proof.
  apply (EditFromJSON_then_GetItemACL acme_world admins "update" payload_ops
           ["alice"] ["ops"] (checker_on store_denyall)
           (EditFromJSON acme_world admins "update" payload_ops
              (checker_on store_denyall)).2
           _
           (GetItemACL admins
              (EditFromJSON acme_world admins "update" payload_ops
                 (checker_on store_denyall)).2).2).
  - apply payload_ops_well_formed.
  - discriminate.
  - repeat constructor.
  - vm_compute. reflexivity.
  - vm_compute. reflexivity.
Defined.

End ReconcileThenWitnesses.
